(** * Stan Math: the reverse-mode substrate, the latent Gaussian
      Poisson Newton solver and a few primitive functions.

  The development follows the C++ sources:
  - [stan/math/prim/fun/add.hpp]
  - [stan/math/prim/fun/lgamma_stirling_diff.hpp]
  - [stan/math/laplace/lgp_newton_solver.hpp]
  and, for the autodiff stack itself ([vari], [ChainableStack], [grad],
  [start_nested], [recover_memory_nested]), its prose description: an
  append-only tape of arena-allocated nodes, a reverse sweep, and a
  stack of checkpoints.

  Doubles are IEEE binary64 values ([spec_float] at precision 53 and
  exponent bound 1024); node memory is a finite map from arena
  addresses to nodes; C++ exceptions and undefined behaviour are
  explicit outcomes. *)

From Stdlib Require Import ZArith List Bool String Lia.
From Stdlib Require Import Floats.SpecFloat.
From Stdlib Require Import Numbers.DecimalString.
From stdpp Require Import base option list sorting gmap.

Local Open Scope Z_scope.

(* ================================================================= *)
(** ** IEEE binary64 *)

Module Double.

Definition prec : Z := 53.
Definition emax : Z := 1024.

Definition double : Type := spec_float.

Definition add : double -> double -> double := SFadd prec emax.
Definition sub : double -> double -> double := SFsub prec emax.
Definition mul : double -> double -> double := SFmul prec emax.
Definition div : double -> double -> double := SFdiv prec emax.
Definition neg : double -> double := SFopp.

(** C++ relational operators on doubles; every comparison with a NaN
    operand is false. *)
Definition lt (x y : double) : bool := SFltb x y.
Definition le (x y : double) : bool := SFleb x y.
Definition gt (x y : double) : bool := SFltb y x.
Definition ge (x y : double) : bool := SFleb y x.
Definition eq (x y : double) : bool := SFeqb x y.

(** Conversion of an integer literal ([1], [0.5] is [half] below). *)
Definition of_Z (z : Z) : double := binary_normalize prec emax z 0 false.

Definition zero : double := S754_zero false.
Definition one : double := of_Z 1.
Definition half : double := div one (of_Z 2).

(** [stan::math::NOT_A_NUMBER] and [stan::math::INFTY]. *)
Definition NOT_A_NUMBER : double := S754_nan.
Definition INFTY : double := S754_infinity false.
Definition NEGATIVE_INFTY : double := S754_infinity true.

(** [std::isnan] and [std::isfinite]. *)
Definition is_nan (x : double) : bool :=
  match x with S754_nan => true | _ => false end.

Definition isfinite (x : double) : bool :=
  match x with
  | S754_zero _ | S754_finite _ _ _ => true
  | S754_infinity _ | S754_nan => false
  end.

End Double.

Abbreviation double := Double.double.

(* ================================================================= *)
(** ** Exceptions and results of throwing code *)

(** The exception classes the modelled code throws.  The payload is
  what the thrower puts in: the reporting function and the argument
  name for the argument checks, the full message otherwise. *)
Inductive exn : Type :=
| domain_error (function name : string)
| invalid_argument (function name1 name2 : string)
| evaluation_error (message : string)
| logic_error (message : string).

(** Result of a computation that touches no autodiff state. *)
Inductive result (A : Type) : Type :=
| Return (a : A)
| Raise (x : exn).
Arguments Return {A} a.
Arguments Raise {A} x.

Definition result_bind {A B} (r : result A) (k : A -> result B) : result B :=
match r with
| Return a => k a
| Raise x => Raise x
end.

(* ================================================================= *)
(** ** Primitive matrix functions: [add] *)

Module Prim.

(** A dynamically sized Eigen matrix of doubles: its run-time
    dimensions and its coefficients in column-major order. *)
Record Matrix : Type := mkMatrix {
  rows : nat;
  cols : nat;
  coeffs : list double
}.

(** The storage holds exactly [rows * cols] coefficients. *)
Definition wf_matrix (m : Matrix) : Prop :=
  length (coeffs m) = (rows m * cols m)%nat.

(** [m(i, j)] *)
Definition coeff (m : Matrix) (i j : nat) : option double :=
  coeffs m !! (j * rows m + i)%nat.

(** Modelled from the spec: [check_matching_dims] is defined in
    [stan/math/prim/err], which is not among the sources.  Its
    contract is the one the documentation of [add] relies on: it
    throws [std::invalid_argument] when the two arguments do not have
    the same number of rows and of columns, and returns otherwise. *)
Definition check_matching_dims (function name1 : string) (y1 : Matrix)
    (name2 : string) (y2 : Matrix) : result unit :=
  if bool_decide (rows y1 = rows y2) && bool_decide (cols y1 = cols y2)
  then Return tt
  else Raise (invalid_argument function name1 name2).

(** Eigen's [m1 + m2] evaluated: coefficient-wise sum. *)
Definition eigen_plus (m1 m2 : Matrix) : Matrix :=
  {| rows := rows m1; cols := cols m1;
     coeffs := zip_with Double.add (coeffs m1) (coeffs m2) |}.

(** [add(const Mat1& m1, const Mat2& m2)] *)
Definition add (m1 m2 : Matrix) : result Matrix :=
  result_bind (check_matching_dims "add" "m1" m1 "m2" m2)
    (fun _ => Return (eigen_plus m1 m2)).

(** [add(const Mat& m, const Scal c)] and [add(const Scal c, const Mat& m)] *)
Definition add_ms (m : Matrix) (c : double) : Matrix :=
  {| rows := rows m; cols := cols m;
     coeffs := map (fun x => Double.add x c) (coeffs m) |}.

Definition add_sm (c : double) (m : Matrix) : Matrix :=
  {| rows := rows m; cols := cols m;
     coeffs := map (fun x => Double.add c x) (coeffs m) |}.

End Prim.

(* ================================================================= *)
(** ** The autodiff stack: arena, nodes, tape, nesting, reverse sweep *)

Module Arena.

(** An arena position: chunk index and byte offset inside the chunk. *)
Definition addr : Type := (nat * N)%type.

(** Modelled from the spec: the arena allocator ([stack_alloc]) is not
    among the sources.  It owns a growable list of chunks, of which only
    the capacities in bytes matter here, and an allocation cursor. *)
Record stack_alloc : Type := mk_stack_alloc {
  chunks : list N;
  cur_chunk : nat;
  next_loc : N
}.

Definition initial_nbytes : N := 65536.

Definition init : stack_alloc :=
  {| chunks := [initial_nbytes]; cur_chunk := 0; next_loc := 0 |}.

(** Offset of the first element of [l] that can hold [size] bytes;
    [length l] when there is none. *)
Fixpoint first_fit (l : list N) (size : N) : nat :=
  match l with
  | [] => 0%nat
  | c :: l' => if (size <=? c)%N then 0%nat else S (first_fit l' size)
  end.

(** Modelled from the spec: [watermark() -> token] returns the current
    (chunk index, offset) position. *)
Definition watermark (a : stack_alloc) : addr := (cur_chunk a, next_loc a).

(** Modelled from the spec: [allocate(size) -> address] returns storage
    from the current chunk; if the chunk is exhausted the cursor moves
    to the next chunk that can hold the request, and when there is none
    a new chunk is linked, twice as large as the last one (and at least
    as large as the request). *)
Definition allocate (a : stack_alloc) (size : N) : addr * stack_alloc :=
  let fits :=
    match chunks a !! cur_chunk a with
    | Some cap => (next_loc a + size <=? cap)%N
    | None => false
    end in
  if fits then
    (watermark a,
     {| chunks := chunks a; cur_chunk := cur_chunk a;
        next_loc := (next_loc a + size)%N |})
  else
    let nxt := S (cur_chunk a) in
    let i := (nxt + first_fit (drop nxt (chunks a)) size)%nat in
    if (i <? length (chunks a))%nat then
      ((i, 0%N),
       {| chunks := chunks a; cur_chunk := i; next_loc := size |})
    else
      let newsize := N.max (2 * List.last (chunks a) initial_nbytes) size in
      ((length (chunks a), 0%N),
       {| chunks := chunks a ++ [newsize];
          cur_chunk := length (chunks a); next_loc := size |}).

(** Modelled from the spec: [rewind(token)] resets the allocation cursor
    to [token]; no chunk is released and nothing stored beyond the
    cursor is cleaned up. *)
Definition rewind (a : stack_alloc) (token : addr) : stack_alloc :=
  {| chunks := chunks a; cur_chunk := fst token; next_loc := snd token |}.

End Arena.

Abbreviation addr := Arena.addr.

(** The propagation capability of a node.  The first five variants are
    the elementary operations of the engine; the last one is
    [lgp_newton_solver_vari] with its fields [phi_], [theta_size_],
    [theta_] and [J_].  [phi_] and [theta_] are arrays of node pointers
    taken from the arena; an entry that was never written is [None]. *)
Inductive operation : Type :=
| op_leaf
| op_add_vv (a b : addr)
| op_add_vd (a : addr)
| op_multiply_vv (a b : addr)
| op_multiply_vd (a : addr) (c : double)
| op_lgp_newton_solver (phi_ : list (option addr)) (theta_size_ : nat)
    (theta_ : list (option addr)) (J_ : list double).

(** Modelled from the spec: the node base class [vari] is not among the
    sources.  A node stores a value, an adjoint (initialised to 0) and
    its propagation capability. *)
Record vari : Type := mk_vari {
  val_ : double;
  adj_ : double;
  op : operation
}.

Definition set_adj (v : vari) (d : double) : vari :=
  {| val_ := val_ v; adj_ := d; op := op v |}.

(** Node memory: what is stored at each arena address. *)
Abbreviation memory := (gmap addr vari).

(** The adjoint of the node at [a], when there is one. *)
Definition adjoint (m : memory) (a : addr) : option double :=
  adj_ <$> m !! a.

(** A checkpoint of the nesting manager. *)
Record checkpoint : Type := mk_checkpoint {
  cp_watermark : addr;
  cp_tape_length : nat
}.

(** Modelled from the spec: the thread's autodiff state
    ([ChainableStack]): the arena, the node memory it hands out, the
    tape of node references in creation order and the checkpoint stack
    of the nesting manager (top first). *)
Record engine : Type := mk_engine {
  memalloc_ : Arena.stack_alloc;
  mem : memory;
  var_stack_ : list addr;
  nested_ : list checkpoint
}.

Definition empty_engine : engine :=
  {| memalloc_ := Arena.init; mem := ∅; var_stack_ := []; nested_ := [] |}.

(** Outcome of code that runs against the autodiff state: normal
    return, a C++ exception leaving the state as it was when thrown,
    undefined behaviour (a failed Eigen index assertion, a dangling or
    uninitialised node pointer, signed overflow), or an unbounded loop
    that was still running when the fuel given to it ran out. *)
Inductive outcome (A : Type) : Type :=
| Ok (a : A) (e : engine)
| Throw (x : exn) (e : engine)
| Undef
| OutOfFuel.
Arguments Ok {A} a e.
Arguments Throw {A} x e.
Arguments Undef {A}.
Arguments OutOfFuel {A}.

Definition M (A : Type) : Type := engine -> outcome A.

Definition ret {A} (a : A) : M A := fun e => Ok a e.

Definition bind {A B} (m : M A) (k : A -> M B) : M B :=
  fun e =>
    match m e with
    | Ok a e' => k a e'
    | Throw x e' => Throw x e'
    | Undef => Undef
    | OutOfFuel => OutOfFuel
    end.

Definition throw {A} (x : exn) : M A := fun e => Throw x e.

Definition lift_result {A} (r : result A) : M A :=
  match r with
  | Return a => ret a
  | Raise x => throw x
  end.

Definition lift_option {A} (o : option A) : M A :=
  fun e => match o with Some a => Ok a e | None => Undef end.

Declare Scope engine_scope.
Delimit Scope engine_scope with engine.
Notation "x <- m ;; k" := (bind m (fun x => k))
  (at level 100, m at next level, right associativity) : engine_scope.
Notation "m ;;; k" := (bind m (fun _ => k))
  (at level 100, right associativity) : engine_scope.

Local Open Scope engine_scope.

(** Object sizes in bytes (LP64): a [vari] holds a vtable pointer and
    two doubles; [lgp_newton_solver_vari] adds two pointers, an [int]
    and an [Eigen::VectorXd] header. *)
Definition sizeof_ptr : N := 8.
Definition sizeof_vari : N := 24.
Definition sizeof_vv_vari : N := 40.
Definition sizeof_vd_vari : N := 40.
Definition sizeof_lgp_newton_solver_vari : N := 64.

(** Modelled from the spec: arena allocation as an action on the
    engine ([memalloc_.alloc]). *)
Definition alloc (size : N) : M addr :=
  fun e =>
    let '(a, al) := Arena.allocate (memalloc_ e) size in
    Ok a {| memalloc_ := al; mem := mem e;
            var_stack_ := var_stack_ e; nested_ := nested_ e |}.

(** Modelled from the spec: [append(nodeRef)] records a node at the end
    of the tape. *)
Definition push_var_stack (a : addr) : M unit :=
  fun e =>
    Ok tt {| memalloc_ := memalloc_ e; mem := mem e;
             var_stack_ := var_stack_ e ++ [a]; nested_ := nested_ e |}.

Definition store (a : addr) (v : vari) : M unit :=
  fun e =>
    Ok tt {| memalloc_ := memalloc_ e; mem := <[a := v]> (mem e);
             var_stack_ := var_stack_ e; nested_ := nested_ e |}.

Definition load (a : addr) : M vari :=
  fun e => match mem e !! a with Some v => Ok v e | None => Undef end.

(** Modelled from the spec: construction of a node ([new vari(...)]):
    storage of [size] bytes is taken from the arena, the value is
    stored with a zero adjoint, and the node is appended to the tape.
    With [stacked = false] (the second constructor argument of [vari]
    used by [lgp_newton_solver_vari]) the node is not put on the tape:
    it has nothing to propagate. *)
Definition new_vari (size : N) (x : double) (o : operation)
    (stacked : bool) : M addr :=
  a <- alloc size ;;
  store a {| val_ := x; adj_ := Double.zero; op := o |} ;;;
  (if stacked then push_var_stack a else ret tt) ;;;
  ret a.

(** *** Value handles *)

(** Modelled from the spec: a value handle wraps a plain number (no
    tape participation) or a reference to a node. *)
Inductive handle : Type :=
| Const (c : double)
| Var (vi_ : addr).

Definition value_of (h : handle) : M double :=
  match h with
  | Const c => ret c
  | Var a => v <- load a ;; ret (val_ v)
  end.

(** Modelled from the spec: [makeLeaf(value)] introduces an independent
    variable. *)
Definition makeLeaf (x : double) : M handle :=
  a <- new_vari sizeof_vari x op_leaf true ;; ret (Var a).

(** Modelled from the spec: addition and multiplication of handles.  A
    node is allocated only when at least one operand participates in
    the tape, and it references only the participating operands. *)
Definition add_h (x y : handle) : M handle :=
  vx <- value_of x ;;
  vy <- value_of y ;;
  let s := Double.add vx vy in
  match x, y with
  | Const _, Const _ => ret (Const s)
  | Var a, Var b =>
      n <- new_vari sizeof_vv_vari s (op_add_vv a b) true ;; ret (Var n)
  | Var a, Const _ | Const _, Var a =>
      n <- new_vari sizeof_vd_vari s (op_add_vd a) true ;; ret (Var n)
  end.

Definition multiply_h (x y : handle) : M handle :=
  vx <- value_of x ;;
  vy <- value_of y ;;
  let p := Double.mul vx vy in
  match x, y with
  | Const _, Const _ => ret (Const p)
  | Var a, Var b =>
      n <- new_vari sizeof_vv_vari p (op_multiply_vv a b) true ;; ret (Var n)
  | Var a, Const c | Const c, Var a =>
      n <- new_vari sizeof_vd_vari p (op_multiply_vd a c) true ;; ret (Var n)
  end.

(** *** Propagation *)

(** [a->adj_ += d] *)
Definition bump_adj (m : memory) (a : addr) (d : double) : option memory :=
  v ← m !! a;
  Some (<[a := set_adj v (Double.add (adj_ v) d)]> m).

(** One iteration of the loop of [lgp_newton_solver_vari::chain]:
    [phi_[0]->adj_ += theta_[i]->adj_ * J_[i]]. *)
Definition lgp_chain_step (phi_ theta_ : list (option addr))
    (J_ : list double) (m : memory) (i : nat) : option memory :=
  p ← phi_ !! 0%nat ≫= id;
  t ← theta_ !! i ≫= id;
  j ← J_ !! i;
  tv ← m !! t;
  bump_adj m p (Double.mul (adj_ tv) j).

(** Monadic left fold, used for the counted loops. *)
Fixpoint foldM {A B} (f : A -> B -> option A) (l : list B) (a : A)
    : option A :=
  match l with
  | [] => Some a
  | b :: l' => a' ← f a b; foldM f l' a'
  end.

(** The propagation operation of the node stored at [this].  The
    elementary variants are modelled from the spec (each adds
    [this.adjoint * local partial derivative] into its operands);
    the last case is [lgp_newton_solver_vari::chain]:
    [for (int i = 0; i < theta_size_; i++)
       phi_[0]->adj_ += theta_[i]->adj_ * J_[i];] *)
Definition chain (m : memory) (this : addr) : option memory :=
  v ← m !! this;
  match op v with
  | op_leaf => Some m
  | op_add_vv a b =>
      m1 ← bump_adj m a (adj_ v);
      bump_adj m1 b (adj_ v)
  | op_add_vd a => bump_adj m a (adj_ v)
  | op_multiply_vv a b =>
      va ← m !! a;
      vb ← m !! b;
      m1 ← bump_adj m a (Double.mul (adj_ v) (val_ vb));
      bump_adj m1 b (Double.mul (adj_ v) (val_ va))
  | op_multiply_vd a c => bump_adj m a (Double.mul (adj_ v) c)
  | op_lgp_newton_solver phi_ theta_size_ theta_ J_ =>
      foldM (lgp_chain_step phi_ theta_ J_) (seq 0 theta_size_) m
  end.

(** The nodes whose adjoint [chain] updates, and those whose adjoint it
    reads, for each variant. *)
Definition chain_updates (o : operation) : list addr :=
  match o with
  | op_leaf => []
  | op_add_vv a b | op_multiply_vv a b => [a; b]
  | op_add_vd a | op_multiply_vd a _ => [a]
  | op_lgp_newton_solver phi_ n _ _ =>
      match n with
      | O => []
      | S _ => omap id (take 1 phi_)
      end
  end.

Definition chain_reads (this : addr) (o : operation) : list addr :=
  match o with
  | op_leaf => []
  | op_add_vv _ _ | op_add_vd _ | op_multiply_vv _ _
  | op_multiply_vd _ _ => [this]
  | op_lgp_newton_solver _ n theta_ _ => omap id (take n theta_)
  end.

(** The adjoint the operand of [lgp_newton_solver_vari] holds after
    [chain]: the products [theta_[i]->adj_ * J_[i]] added one after the
    other, in index order, to its adjoint [acc]. *)
Definition accumulate (acc : double) (adjs J : list double) : double :=
  fold_left Double.add (zip_with Double.mul adjs J) acc.

(** *** Creation order *)

(** Arena addresses are handed out in increasing (chunk, offset) order,
    so the order on addresses is the creation order of the nodes. *)
Definition addr_ltb (a b : addr) : bool :=
  (fst a <? fst b)%nat || ((fst a =? fst b)%nat && (snd a <? snd b)%N).

Definition addr_lt (a b : addr) : Prop := addr_ltb a b = true.

#[global] Instance addr_lt_dec (a b : addr) : Decision (addr_lt a b).
Proof. unfold addr_lt. apply _. Defined.

(** Weak order: [a] is [b] or was created before it. *)
Definition addr_le (a b : addr) : Prop := a = b \/ addr_lt a b.

(** *** Well-formed tapes *)

Definition live (m : memory) (a : addr) : Prop := is_Some (m !! a).

(** The references of a node are sound: every operand whose adjoint
    [chain] updates was created before the node and is still in
    memory; for [lgp_newton_solver_vari], [phi_] holds the operand,
    [theta_] holds [theta_size_] solution nodes, created after the node
    itself, and [J_] has one entry for each of them. *)
Definition node_ok (m : memory) (this : addr) (o : operation) : Prop :=
  match o with
  | op_leaf => True
  | op_add_vv a b | op_multiply_vv a b =>
      (addr_lt a this /\ live m a) /\ (addr_lt b this /\ live m b)
  | op_add_vd a | op_multiply_vd a _ => addr_lt a this /\ live m a
  | op_lgp_newton_solver phi_ n theta_ J_ =>
      exists p ts,
        phi_ = [Some p] /\ theta_ = Some <$> ts
        /\ length ts = n /\ length J_ = n
        /\ addr_lt p this /\ live m p
        /\ Forall (fun t => addr_lt this t /\ live m t) ts
  end.

(** The tape lists nodes in creation order, and each of them is in
    memory with sound references. *)
Definition tape_ok (m : memory) (tape : list addr) : Prop :=
  StronglySorted addr_lt tape
  /\ Forall (fun a => exists v, m !! a = Some v /\ node_ok m a (op v)) tape.

(** Two memories hold the same nodes up to their adjoints. *)
Definition same_shape (m m' : memory) : Prop :=
  forall a, (fun v => (val_ v, op v)) <$> m !! a
            = (fun v => (val_ v, op v)) <$> m' !! a.

(** *** Nesting manager *)

Definition watermark (e : engine) : addr := Arena.watermark (memalloc_ e).

(** Modelled from the spec: [start_nested()] pushes the checkpoint
    (arena watermark, tape length). *)
Definition start_nested : M unit :=
  fun e =>
    Ok tt {| memalloc_ := memalloc_ e; mem := mem e;
             var_stack_ := var_stack_ e;
             nested_ := {| cp_watermark := watermark e;
                           cp_tape_length := length (var_stack_ e) |}
                        :: nested_ e |}.

(** What is left of the node memory once the arena is rewound to
    [token]: the storage beyond the token is free, and the nodes that
    lived there are gone (a later access through a stale reference is
    undefined behaviour). *)
Definition release (token : addr) (m : memory) : memory :=
  filter (fun kv => addr_lt (fst kv) token) m.

(** Modelled from the spec: [recover_nested()] pops the top checkpoint,
    truncates the tape to the recorded length and rewinds the arena to
    the recorded watermark.  With an empty checkpoint stack it fails
    with a diagnostic and touches neither the tape nor the arena. *)
Definition recover_memory_nested : M unit :=
  fun e =>
    match nested_ e with
    | [] =>
        Throw (logic_error
          "empty_nested() must be false before calling recover_memory_nested()")
          e
    | c :: rest =>
        Ok tt {| memalloc_ := Arena.rewind (memalloc_ e) (cp_watermark c);
                 mem := release (cp_watermark c) (mem e);
                 var_stack_ := take (cp_tape_length c) (var_stack_ e);
                 nested_ := rest |}
    end.

(** Modelled from the spec: [recover_all()] drops every checkpoint and
    rewinds the tape and the arena to empty. *)
Definition recover_memory : M unit :=
  fun e =>
    Ok tt {| memalloc_ := Arena.rewind (memalloc_ e) (0%nat, 0%N);
             mem := ∅; var_stack_ := []; nested_ := [] |}.

(** First tape position of the active nested segment. *)
Definition nested_begin (e : engine) : nat :=
  match nested_ e with
  | [] => 0%nat
  | c :: _ => cp_tape_length c
  end.

(** *** Reverse sweep *)

(** Modelled from the spec: the walk of the reverse sweep.  Starting
    below position [lo + k] it visits the positions [lo + k - 1], ...,
    [lo] in this order and calls the propagation operation of each
    node.  The second component records the positions in the order in
    which they were visited. *)
Fixpoint sweep_down (tape : list addr) (lo k : nat)
    (st : memory * list nat) : option (memory * list nat) :=
  match k with
  | O => Some st
  | S k' =>
      this ← tape !! (lo + k')%nat;
      m' ← chain (fst st) this;
      sweep_down tape lo k' (m', snd st ++ [(lo + k')%nat])
  end.

Definition set_zero_adjoint (m : memory) (a : addr) : option memory :=
  v ← m !! a; Some (<[a := set_adj v Double.zero]> m).

Definition seed (m : memory) (root : addr) : option memory :=
  v ← m !! root; Some (<[root := set_adj v Double.one]> m).

(** Modelled from the spec: [gradient(root, leaves)].
    1. zero the adjoint of every node of the active tape segment;
    2. set [root.adjoint = 1];
    3. walk the tape from its last position down to the first position
       of the active segment (position 0 when no nested scope is open),
       calling the propagation operation of each node;
    4. read the adjoint of each designated leaf.
    [grad_trace] also returns the order in which positions were
    visited. *)
Definition prepare (e : engine) (root : addr) : option memory :=
  m0 ← foldM set_zero_adjoint (drop (nested_begin e) (var_stack_ e)) (mem e);
  seed m0 root.

Definition grad_trace (root : addr) : M (list nat) :=
  fun e =>
    let lo := nested_begin e in
    let tape := var_stack_ e in
    match
      m1 ← prepare e root;
      sweep_down tape lo (length tape - lo) (m1, [])
    with
    | Some (m', tr) =>
        Ok tr {| memalloc_ := memalloc_ e; mem := m';
                 var_stack_ := var_stack_ e; nested_ := nested_ e |}
    | None => Undef
    end.

Definition adjoint_of (h : handle) : M double :=
  match h with
  | Const _ => ret Double.zero
  | Var a => v <- load a ;; ret (adj_ v)
  end.

Fixpoint mapM {A B} (f : A -> M B) (l : list A) : M (list B) :=
  match l with
  | [] => ret []
  | a :: l' => b <- f a ;; bs <- mapM f l' ;; ret (b :: bs)
  end.

Definition gradient (root : addr) (leaves : list handle) : M (list double) :=
  grad_trace root ;;; mapM adjoint_of leaves.

(** A list of positions in strictly decreasing order. *)
Definition strictly_decreasing (l : list nat) : Prop :=
  StronglySorted (fun i j => (j < i)%nat) l.

(** Construction of [n] nodes, one after the other, each with its own
    size, value and propagation capability. *)
Fixpoint build_nodes (l : list (N * double * operation)) : M unit :=
  match l with
  | [] => ret tt
  | (size, x, o) :: l' => new_vari size x o true ;;; build_nodes l'
  end.

(** [start_nested(); build the nodes; recover_memory_nested()] *)
Definition nested_bracket (l : list (N * double * operation)) : M unit :=
  start_nested ;;; build_nodes l ;;; recover_memory_nested.

(** The bracket repeated once for each element of [ls]. *)
Fixpoint nested_brackets (ls : list (list (N * double * operation)))
    : M unit :=
  match ls with
  | [] => ret tt
  | l :: ls' => nested_bracket l ;;; nested_brackets ls'
  end.

(* ================================================================= *)
(** ** Argument checks and [lgamma_stirling_diff] *)

Module PrimFun.

(** Modelled from the spec: [check_nonnegative] is defined in
    [stan/math/prim/err], which is not among the sources.  It throws
    [std::domain_error] unless [y >= 0]. *)
Definition check_nonnegative (function name : string) (y : double)
    : result unit :=
  if Double.ge y Double.zero then Return tt
  else Raise (domain_error function name).

(** Modelled from the spec: [check_positive_finite] is defined in
    [stan/math/prim/err], which is not among the sources; its unit test
    is.  It throws [std::domain_error] unless the argument is positive
    and finite. *)
Definition check_positive_finite (function name : string) (y : double)
    : result unit :=
  if Double.gt y Double.zero && Double.isfinite y then Return tt
  else Raise (domain_error function name).

(** The vector overload checks the elements in order and reports the
    first offending one. *)
Fixpoint check_positive_finite_vec (function name : string)
    (y : list double) : result unit :=
  match y with
  | [] => Return tt
  | x :: y' =>
      result_bind (check_positive_finite function name x)
        (fun _ => check_positive_finite_vec function name y')
  end.

Definition lgamma_stirling_diff_useful : double := Double.of_Z 10.

(** [constexpr double stirling_series[]]: the binary64 values of the
    decimal literals 0.0833333333333333333333333,
    -0.00277777777777777777777778, 0.000793650793650793650793651 and
    -0.000595238095238095238095238. *)
Definition stirling_series : list double :=
  [ S754_finite false 6004799503160661 (-56);
    S754_finite true 6405119470038039 (-61);
    S754_finite false 7320136537186330 (-63);
    S754_finite true 5490102402889748 (-63) ].

Definition stirling_coeff (i : nat) : double :=
  nth i stirling_series Double.NOT_A_NUMBER.

(** Conversion of a double result to the return type of the scalar type
    of [x]: the double itself for [T = double], a fresh node for
    [T = var]. *)
Definition to_return_type (x : handle) (c : double) : M handle :=
  match x with
  | Const _ => ret (Const c)
  | Var _ => makeLeaf c
  end.

Section LgammaStirlingDiff.

(** The functions [lgamma], [lgamma_stirling], [inv], [square] and the
    subtraction of the scalar type, defined in headers that are not
    among the sources. *)
Variables lgamma lgamma_stirling inv square : handle -> M handle.
Variable subtract : handle -> handle -> M handle.

(** [template <typename T> return_type_t<T> lgamma_stirling_diff(const T x)];
    the handle [x] is a [Const] for [T = double] and a [Var] for
    [T = var]. *)
Definition lgamma_stirling_diff (x : handle) : M handle :=
  v <- value_of x ;;
  if Double.is_nan v then to_return_type x Double.NOT_A_NUMBER
  else
    lift_result (check_nonnegative "lgamma_stirling_diff" "argument" v) ;;;
    if Double.eq v Double.zero then to_return_type x Double.INFTY
    else if Double.lt v lgamma_stirling_diff_useful then
      a <- lgamma x ;;
      b <- lgamma_stirling x ;;
      subtract a b
    else
      inv_x <- inv x ;;
      inv_x_squared <- square inv_x ;;
      inv_x_cubed <- multiply_h inv_x inv_x_squared ;;
      inv_x_fifth <- multiply_h inv_x_cubed inv_x_squared ;;
      t0 <- multiply_h (Const (stirling_coeff 0)) inv_x ;;
      t1 <- multiply_h (Const (stirling_coeff 1)) inv_x_cubed ;;
      t2 <- multiply_h (Const (stirling_coeff 2)) inv_x_fifth ;;
      s <- add_h t0 t1 ;;
      add_h s t2.

End LgammaStirlingDiff.

End PrimFun.

(* ================================================================= *)
(** ** The latent Gaussian Poisson Newton solver *)

Module Laplace.

Abbreviation VectorXd := (list double).

(** Modelled from the spec: [lgp_conditional_system] is declared in
    [stan/math/laplace/lgp_conditional_system.hpp], which is not among
    the sources.  The solver builds it from the global parameter, the
    number of samples and the sums, and reads these back. *)
Record lgp_conditional_system (T : Type) : Type := mk_system {
  phi_ : T;
  n_samples_ : VectorXd;
  sums_ : VectorXd
}.
Arguments mk_system {T} _ _ _.
Arguments phi_ {T} _.
Arguments n_samples_ {T} _.
Arguments sums_ {T} _.

Definition get_phi {T} (s : lgp_conditional_system T) : T := phi_ s.
Definition get_n_samples {T} (s : lgp_conditional_system T) := n_samples_ s.
Definition get_sums {T} (s : lgp_conditional_system T) := sums_ s.

(** The operators of the double-valued system, and the two Eigen
    reductions the solver uses ([norm()] and the product of a row by a
    column vector).  Their definitions are outside the sources; the
    solver only calls them. *)
Class lgp_operators : Type := {
  log_density : lgp_conditional_system double -> VectorXd -> double;
  cond_gradient : lgp_conditional_system double -> VectorXd -> VectorXd;
  cond_hessian : lgp_conditional_system double -> VectorXd -> VectorXd;
  solver_gradient : lgp_conditional_system double -> VectorXd -> VectorXd;
  norm : VectorXd -> double;
  dot : VectorXd -> VectorXd -> double
}.

(** Modelled from the spec: [elt_divide] is defined in
    [stan/math/prim/mat/fun/elt_divide.hpp], which is not among the
    sources.  It checks that its operands have matching dimensions
    (throwing [std::invalid_argument] otherwise) and returns the
    coefficient-wise quotient. *)
Definition elt_divide (a b : VectorXd) : result VectorXd :=
  if decide (length a = length b) then Return (zip_with Double.div a b)
  else Raise (invalid_argument "elt_divide" "m1" "m2").

(** Eigen's unary minus and product by a scalar. *)
Definition vec_neg (a : VectorXd) : VectorXd := map Double.neg a.
Definition vec_scale (c : double) (a : VectorXd) : VectorXd :=
  map (Double.mul c) a.

(** Eigen's [a + b] and [a += b]: the operands must have the same
    size; with different sizes the size assertion fails and the sum
    has no defined value ([None]). *)
Definition vec_add (a b : VectorXd) : option VectorXd :=
  if decide (length a = length b) then Some (zip_with Double.add a b)
  else None.

(** Ranges of [int] and of the loop counter. *)
Definition INT_MAX : Z := 2147483647.

(** What a call of the double instantiation can do. *)
Inductive solver_outcome : Type :=
| Returns (theta : VectorXd)
| Throws (x : exn)
| SignedOverflow
| SizesDiffer
| StillSearching.

(** What the body of the loop can do on the way to the new
    [theta_dbl]: complete the update, throw, add vectors of different
    sizes, or stay in the line search. *)
Inductive update_outcome : Type :=
| Updated (theta : VectorXd)
| UpdateThrows (x : exn)
| UpdateSizesDiffer
| UpdateSearching.

Definition max_steps_message (max_num_steps : Z) : string :=
  String.append "lgp_newton_solver: max number of iterations:"
    (String.append (NilZero.string_of_int (Z.to_int max_num_steps))
       " exceeded.").

Section Solver.

Context {ops : lgp_operators}.
Variable system : lgp_conditional_system double.
Variable tol : double.
Variable max_num_steps : Z.
Variable line_search : bool.

(** The [while] loop of the Armijo line search:
    [while (log_density(theta_candidate) > log_density(theta_dbl) + c * m)
       { alpha = tau * alpha;
         theta_candidate = theta_dbl + alpha * direction; }]
    It has no iteration bound of its own; [fuel] bounds the number of
    times the model tests the condition. *)
Fixpoint armijo (fuel : nat) (theta_dbl direction : VectorXd) (c tau m : double)
    (alpha : double) (theta_candidate : VectorXd) : update_outcome :=
  match fuel with
  | O => UpdateSearching
  | S fuel' =>
      if Double.gt (log_density system theta_candidate)
           (Double.add (log_density system theta_dbl) (Double.mul c m))
      then
        let alpha' := Double.mul tau alpha in
        match vec_add theta_dbl (vec_scale alpha' direction) with
        | Some theta_candidate' =>
            armijo fuel' theta_dbl direction c tau m alpha' theta_candidate'
        | None => UpdateSizesDiffer
        end
      else Updated theta_candidate
  end.

(** The body of the [for] loop from [gradient] and the current
    [theta_dbl] to the new [theta_dbl]:
    [direction = - elt_divide(gradient, system.cond_hessian(theta_dbl))],
    then [theta_dbl += direction] or the line search. *)
Definition newton_step (fuel : nat) (gradient theta_dbl : VectorXd)
    : update_outcome :=
  match elt_divide gradient (cond_hessian system theta_dbl) with
  | Raise x => UpdateThrows x
  | Return quotient =>
      let direction := vec_neg quotient in
      if negb line_search then
        match vec_add theta_dbl direction with
        | Some theta' => Updated theta'
        | None => UpdateSizesDiffer
        end
      else
        let alpha := Double.one in
        let c := Double.half in
        let tau := Double.half in
        let m := dot direction gradient in
        match vec_add theta_dbl (vec_scale alpha direction) with
        | Some theta_candidate =>
            armijo fuel theta_dbl direction c tau m alpha theta_candidate
        | None => UpdateSizesDiffer
        end
  end.

(** One Newton update: the new [theta_dbl] when the body of the loop
    completes the update. *)
Definition newton_update (fuel : nat) (gradient theta_dbl : VectorXd)
    : option VectorXd :=
  match newton_step fuel gradient theta_dbl with
  | Updated theta' => Some theta'
  | _ => None
  end.

(** [for (int i = 0; i <= max_num_steps; i++) { ... }] followed by
    [return theta_dbl].  [n] bounds the number of times the loop
    condition is tested. *)
Fixpoint newton_loop (fuel : nat) (n : nat) (i : Z) (theta_dbl : VectorXd)
    : solver_outcome :=
  match n with
  | O => StillSearching
  | S n' =>
      if negb (i <=? max_num_steps) then Returns theta_dbl
      else if i =? max_num_steps then
        Throws (evaluation_error (max_steps_message max_num_steps))
      else
        let gradient := cond_gradient system theta_dbl in
        match newton_step fuel gradient theta_dbl with
        | UpdateThrows x => Throws x
        | UpdateSizesDiffer => SizesDiffer
        | UpdateSearching => StillSearching
        | Updated theta' =>
            if Double.le (norm gradient) tol then Returns theta'
            else if i =? INT_MAX then SignedOverflow
            else newton_loop fuel n' (i + 1) theta'
        end
  end.

(** [lgp_newton_solver] with [phi] of type [double].  The loop
    condition is tested once when [max_num_steps] is negative and at
    most [max_num_steps + 1] times otherwise. *)
Definition lgp_newton_solver (fuel : nat) (theta_0 : VectorXd)
    : solver_outcome :=
  newton_loop fuel (S (Z.to_nat max_num_steps)) 0 theta_0.

(** The iterate held in [theta_dbl] after [k] updates. *)
Fixpoint iterate (fuel : nat) (k : nat) (theta_0 : VectorXd)
    : option VectorXd :=
  match k with
  | O => Some theta_0
  | S k' =>
      theta ← iterate fuel k' theta_0;
      newton_update fuel (cond_gradient system theta) theta
  end.

(** The convergence test of the loop, on the gradient at [theta]. *)
Definition converged (theta : VectorXd) : bool :=
  Double.le (norm (cond_gradient system theta)) tol.

End Solver.

Local Open Scope engine_scope.

(** The constructor of [lgp_newton_solver_vari]: the node itself is
    allocated and (by the base class constructor, with the value
    [theta_dbl(0)]) put on the tape; the arrays [phi_] and [theta_] are
    taken from the arena; then the body runs:
    [*phi_ = phi.vi_; theta_[0] = this;
     for (int i = 0; i < theta_size_; i++)
       theta_[i] = new vari(theta_dbl(i), false);
     J_ = system.solver_gradient(theta_dbl);] *)
Fixpoint fill_theta (theta_dbl : VectorXd) (i : nat)
    (theta_ : list (option addr)) : M (list (option addr)) :=
  match theta_dbl with
  | [] => ret theta_
  | x :: rest =>
      a <- new_vari sizeof_vari x op_leaf false ;;
      fill_theta rest (S i) (<[i := Some a]> theta_)
  end.

Definition new_lgp_newton_solver_vari {ops : lgp_operators} (phi : addr)
    (system : lgp_conditional_system double) (theta_dbl : VectorXd)
    : M addr :=
  this <- alloc sizeof_lgp_newton_solver_vari ;;
  x0 <- lift_option (theta_dbl !! 0%nat) ;;
  push_var_stack this ;;;
  let theta_size_ := length theta_dbl in
  alloc (1 * sizeof_ptr) ;;;
  alloc (N.of_nat theta_size_ * sizeof_ptr) ;;;
  let phi_ := [Some phi] in
  let theta0 := <[0%nat := Some this]> (replicate theta_size_ None) in
  theta_ <- fill_theta theta_dbl 0 theta0 ;;
  let J_ := solver_gradient system theta_dbl in
  store this {| val_ := x0; adj_ := Double.zero;
                op := op_lgp_newton_solver phi_ theta_size_ theta_ J_ |} ;;;
  ret this.

Definition lift_solver (r : solver_outcome) : M VectorXd :=
  match r with
  | Returns theta => ret theta
  | Throws x => throw x
  | SignedOverflow => fun _ => Undef
  | SizesDiffer => fun _ => Undef
  | StillSearching => fun _ => OutOfFuel
  end.

(** The handles [var(vi0->theta_[i])], [i = 0 .. n - 1]. *)
Fixpoint theta_handles (theta_ : list (option addr)) (n : nat) (i : nat)
    : M (list handle) :=
  match n with
  | O => ret []
  | S n' =>
      a <- lift_option (theta_ !! i ≫= id) ;;
      rest <- theta_handles theta_ n' (S i) ;;
      ret (Var a :: rest)
  end.

(** [lgp_newton_solver] with [phi] of type [var] (and a double initial
    guess): the Newton iteration runs on the double-valued copy of the
    system, then the node is constructed and the solution is returned
    as handles to [vi0->theta_[i]]. *)
Definition lgp_newton_solver_var {ops : lgp_operators} (fuel : nat)
    (theta_0 : VectorXd) (system : lgp_conditional_system addr)
    (tol : double) (max_num_steps : Z) (line_search : bool)
    : M (list handle) :=
  phi_val <- value_of (Var (get_phi system)) ;;
  let system_dbl :=
    mk_system phi_val (get_n_samples system) (get_sums system) in
  theta_dbl <- lift_solver
    (lgp_newton_solver system_dbl tol max_num_steps line_search fuel theta_0) ;;
  vi0 <- new_lgp_newton_solver_vari (get_phi system) system_dbl theta_dbl ;;
  v <- load vi0 ;;
  match op v with
  | op_lgp_newton_solver _ _ theta_ _ =>
      lift_option (theta_ !! 0%nat ≫= id) ;;;
      theta_handles theta_ (length theta_dbl) 0
  | _ => fun _ => Undef
  end.

End Laplace.

(* ================================================================= *)
(** ** Engine histories and their invariant *)

Module History.

Import Laplace.
Local Open Scope engine_scope.

(** The calls a client of the engine can make. *)
Inductive action : Type :=
| a_leaf (x : double)
| a_add (x y : handle)
| a_multiply (x y : handle)
| a_lgp_newton_solver (fuel : nat) (theta_0 : VectorXd)
    (system : lgp_conditional_system addr) (tol : double)
    (max_num_steps : Z) (line_search : bool)
| a_start_nested
| a_recover_memory_nested
| a_recover_memory
| a_grad (root : addr).

Definition discard {A} (m : M A) : M unit := m ;;; ret tt.

Definition run {ops : lgp_operators} (a : action) : M unit :=
  match a with
  | a_leaf x => discard (makeLeaf x)
  | a_add x y => discard (add_h x y)
  | a_multiply x y => discard (multiply_h x y)
  | a_lgp_newton_solver fuel theta_0 system tol max_num_steps line_search =>
      discard (lgp_newton_solver_var fuel theta_0 system tol max_num_steps
                 line_search)
  | a_start_nested => start_nested
  | a_recover_memory_nested => recover_memory_nested
  | a_recover_memory => recover_memory
  | a_grad root => discard (grad_trace root)
  end.

Fixpoint exec {ops : lgp_operators} (l : list action) : M unit :=
  match l with
  | [] => ret tt
  | a :: l' => run a ;;; exec l'
  end.

(** The references of a node respect the creation order: the operands
    whose adjoint [chain] updates are older than the node, and the
    solution nodes held by [lgp_newton_solver_vari] are younger. *)
Definition refs_ok (this : addr) (o : operation) : Prop :=
  (forall r, r ∈ chain_updates o -> addr_lt r this)
  /\ match o with
     | op_lgp_newton_solver _ _ theta_ _ =>
         forall t, Some t ∈ theta_ -> addr_lt this t
     | _ => True
     end.

(** Every open checkpoint records a prefix of the tape that lies below
    its watermark, and a watermark inside the chunks of the arena. *)
Fixpoint checkpoints_ok (nchunks : nat) (tape : list addr)
    (cs : list checkpoint) : Prop :=
  match cs with
  | [] => True
  | c :: rest =>
      (fst (cp_watermark c) < nchunks)%nat
      /\ (cp_tape_length c <= length tape)%nat
      /\ Forall (fun a => addr_lt a (cp_watermark c))
           (take (cp_tape_length c) tape)
      /\ checkpoints_ok nchunks (take (cp_tape_length c) tape) rest
  end.

Record engine_inv (e : engine) : Prop := mk_engine_inv {
  inv_arena :
    (Arena.cur_chunk (memalloc_ e) < length (Arena.chunks (memalloc_ e)))%nat;
  inv_mem : forall a v, mem e !! a = Some v -> addr_lt a (watermark e);
  inv_refs : forall a v, mem e !! a = Some v -> refs_ok a (op v);
  inv_sorted : StronglySorted addr_lt (var_stack_ e);
  inv_tape : Forall (fun a => addr_lt a (watermark e)) (var_stack_ e);
  inv_nested :
    checkpoints_ok (length (Arena.chunks (memalloc_ e))) (var_stack_ e)
      (nested_ e)
}.

(** What one call may do to a node that existed before it: release it,
    or leave its value and its references as they were. *)
Definition node_preserved (e e' : engine) : Prop :=
  forall this v, mem e !! this = Some v ->
    mem e' !! this = None
    \/ exists v', mem e' !! this = Some v'
         /\ op v' = op v /\ val_ v' = val_ v.

(** The order invariant of the tape: the operands whose
    adjoint the node at position [i] updates are older than the node
    and, when they are on the tape, at positions below [i]. *)
Definition operands_precede (e : engine) : Prop :=
  forall i this v r,
    var_stack_ e !! i = Some this -> mem e !! this = Some v ->
    r ∈ chain_updates (op v) ->
    addr_lt r this
    /\ forall j, var_stack_ e !! j = Some r -> (j < i)%nat.

(** The same for every node [chain] reads or updates: all the
    references held by the node. *)
Definition references (o : operation) : list addr :=
  match o with
  | op_leaf => []
  | op_add_vv a b | op_multiply_vv a b => [a; b]
  | op_add_vd a | op_multiply_vd a _ => [a]
  | op_lgp_newton_solver phi_ _ theta_ _ => omap id phi_ ++ omap id theta_
  end.

Definition references_precede (e : engine) : Prop :=
  forall i this v r,
    var_stack_ e !! i = Some this -> mem e !! this = Some v ->
    r ∈ references (op v) ->
    exists j, (j < i)%nat /\ var_stack_ e !! j = Some r.

(** A later state of the engine in which everything below the old
    watermark is as it was. *)
Record extends (e e' : engine) : Prop := mk_extends {
  ext_watermark : addr_le (watermark e) (watermark e');
  ext_mem : forall a, addr_lt a (watermark e) -> mem e' !! a = mem e !! a;
  ext_nested : nested_ e' = nested_ e;
  ext_tape : exists added, var_stack_ e' = var_stack_ e ++ added
}.

End History.

(* ================================================================= *)
(** ** Concrete scenarios *)

Module Scenario.

Local Open Scope engine_scope.

Definition m_2x2 (a b c d : Z) : Prim.Matrix :=
  Prim.mkMatrix 2 2 (map Double.of_Z [a; b; c; d]).

Definition m_1x3 (a b c : Z) : Prim.Matrix :=
  Prim.mkMatrix 1 3 (map Double.of_Z [a; b; c]).

(** Leaves [x = 3.0], [y = 4.0]; [z = x * y + x]; gradient of [z]
    with respect to [x] and [y]. *)
Definition x_times_y_plus_x : M (list double) :=
  x <- makeLeaf (Double.of_Z 3) ;;
  y <- makeLeaf (Double.of_Z 4) ;;
  xy <- multiply_h x y ;;
  z <- add_h xy x ;;
  match z with
  | Var zi => gradient zi [x; y]
  | Const _ => ret []
  end.

(** Leaf [x = 2.0] and detached constant [c = 5.0]; [x + c]. *)
Definition x_plus_constant : M (handle * list double) :=
  x <- makeLeaf (Double.of_Z 2) ;;
  z <- add_h x (Const (Double.of_Z 5)) ;;
  match z with
  | Var zi => g <- gradient zi [x] ;; ret (z, g)
  | Const _ => ret (z, [])
  end.

(** Stand-ins for the scalar functions that [lgamma_stirling_diff]
    takes as parameters, for runs that do not reach them. *)
Definition unary_stub (h : handle) : M handle := ret h.
Definition binary_stub (a b : handle) : M handle := ret a.

Definition lgamma_stirling_diff_stub : handle -> M handle :=
  PrimFun.lgamma_stirling_diff unary_stub unary_stub unary_stub unary_stub
    binary_stub.

End Scenario.

(** *** A small system for the solver *)

Module SolverScenario.

Import Laplace.

(** Operators of a one-parameter family of quadratic log densities,
    [-(n / 2) * theta^2 + s * theta] in every coordinate: gradient
    [s - n * theta], Hessian [-n]; the reductions are the sum of
    absolute values and the sum of products, accumulated from the
    left.  They stand for the operators of the system, which are
    outside the sources. *)
Definition sum_left (l : VectorXd) : double :=
  fold_left Double.add l Double.zero.

Definition quadratic : lgp_operators := {|
  log_density s theta :=
    sum_left (zip_with Double.sub
      (zip_with Double.mul (sums_ s) theta)
      (zip_with Double.mul (n_samples_ s)
         (map (fun t => Double.mul Double.half (Double.mul t t)) theta)));
  cond_gradient s theta :=
    zip_with Double.sub (sums_ s) (zip_with Double.mul (n_samples_ s) theta);
  cond_hessian s theta := map Double.neg (n_samples_ s);
  solver_gradient s theta := map (fun _ => Double.zero) theta;
  norm v := sum_left (map SFabs v);
  dot a b := sum_left (zip_with Double.mul a b)
|}.

Definition unit_system : lgp_conditional_system double :=
  mk_system Double.one [Double.one] [Double.one].

(** [tol = 1e-3], the default of the double instantiation. *)
Definition tol_default : double := S754_finite false 4611686018427388 (-62).

End SolverScenario.

(** *** Statements about the solver *)

Module SolverClaims.

Import Laplace.

Section Statements.

Context {ops : lgp_operators}.
Variable system : lgp_conditional_system double.
Variable tol : double.
Variable max_num_steps : Z.
Variable line_search : bool.
Variable fuel : nat.
Variable theta_0 : VectorXd.




End Statements.

End SolverClaims.

(** *** A custom-gradient node with two solution components *)

Module NodeScenario.

Import Laplace.
Local Open Scope engine_scope.

(** Operators whose [solver_gradient] is the sensitivity vector
    [2.0, -1.0]. *)
Definition sens_ops : lgp_operators := {|
  log_density := log_density (lgp_operators := SolverScenario.quadratic);
  cond_gradient := cond_gradient (lgp_operators := SolverScenario.quadratic);
  cond_hessian := cond_hessian (lgp_operators := SolverScenario.quadratic);
  solver_gradient _ _ := [Double.of_Z 2; Double.of_Z (-1)];
  norm := norm (lgp_operators := SolverScenario.quadratic);
  dot := dot (lgp_operators := SolverScenario.quadratic)
|}.

Definition two_system : lgp_conditional_system double :=
  mk_system Double.one [Double.one; Double.one] [Double.one; Double.one].

(** A leaf [phi], then the node constructed by
    [new lgp_newton_solver_vari(phi, system, theta_dbl)] for a solution
    with two components.  Returns the address of [phi] and of the
    node. *)
Definition build_custom_node : M (addr * addr) :=
  phi <- new_vari sizeof_vari Double.one op_leaf true ;;
  this <- new_lgp_newton_solver_vari (ops := sens_ops) phi two_system
            [Double.of_Z 7; Double.of_Z 9] ;;
  ret (phi, this).

Definition phi_addr : addr := (0%nat, 0%N).
Definition node_addr : addr := (0%nat, 24%N).
Definition a_addr : addr := (0%nat, 112%N).
Definition b_addr : addr := (0%nat, 136%N).

(** The memory after construction. *)
Definition built_memory : memory :=
  match build_custom_node empty_engine with
  | Ok _ e => mem e
  | _ => ∅
  end.

End NodeScenario.

(** *** A sweep inside a nested scope *)

Module NestedScenario.

Local Open Scope engine_scope.

(** A leaf [x] at position 0; then, inside a nested scope, a leaf [y]
    and [z = x * y], and the reverse sweep from [z]. *)
Definition sweep_in_nested_scope : M (list nat) :=
  x <- makeLeaf (Double.of_Z 3) ;;
  start_nested ;;;
  y <- makeLeaf (Double.of_Z 4) ;;
  z <- multiply_h x y ;;
  match z with
  | Var zi => grad_trace zi
  | Const _ => ret []
  end.

(** Four nodes at top level: [x], [y], [x * y], [x * y + x]. *)
Definition four_nodes : M addr :=
  x <- makeLeaf (Double.of_Z 3) ;;
  y <- makeLeaf (Double.of_Z 4) ;;
  xy <- multiply_h x y ;;
  z <- add_h xy x ;;
  match z with
  | Var zi => ret zi
  | Const _ => fun _ => Undef
  end.

Definition four_nodes_engine : engine :=
  match four_nodes empty_engine with
  | Ok _ e => e
  | _ => empty_engine
  end.

Definition z_addr : addr := (0%nat, 88%N).

End NestedScenario.


(** *** A history that ends with the solver *)

Module HistoryScenario.

Import Laplace History.

(** A leaf [phi = 1.0], then the solver with [phi] as global parameter
    on a system with two local parameters. *)
Definition solver_history : list action :=
  [ a_leaf Double.one;
    a_lgp_newton_solver 0 [Double.zero; Double.zero]
      (mk_system NodeScenario.phi_addr [Double.one; Double.one]
         [Double.one; Double.one])
      SolverScenario.tol_default 5 false ].

Definition solver_engine : engine :=
  match exec (ops := NodeScenario.sens_ops) solver_history empty_engine with
  | Ok _ e => e
  | _ => empty_engine
  end.




(** Two leaves and their product. *)
Definition product_history : list action :=
  [ a_leaf (Double.of_Z 3); a_leaf (Double.of_Z 4);
    a_multiply (Var (0%nat, 0%N)) (Var (0%nat, 24%N)) ].

Definition product_engine : engine :=
  match exec (ops := NodeScenario.sens_ops) product_history empty_engine with
  | Ok _ e => e
  | _ => empty_engine
  end.

End HistoryScenario.

(** *** A node whose sensitivity vector is too short *)

Module ShortJScenario.

Import Laplace.
Local Open Scope engine_scope.

(** The constructor run on a solution with three components while
    [solver_gradient] returns two sensitivities. *)
Definition build_short_node : M (addr * addr) :=
  phi <- new_vari sizeof_vari Double.one op_leaf true ;;
  this <- new_lgp_newton_solver_vari (ops := NodeScenario.sens_ops) phi
            NodeScenario.two_system
            [Double.of_Z 7; Double.of_Z 9; Double.of_Z 11] ;;
  ret (phi, this).

Definition short_memory : memory :=
  match build_short_node empty_engine with
  | Ok _ e => mem e
  | _ => ∅
  end.

Definition short_node : vari :=
  {| val_ := Double.of_Z 7; adj_ := Double.zero;
     op := op_lgp_newton_solver [Some NodeScenario.phi_addr] 3
             [Some (0%nat, 120%N); Some (0%nat, 144%N); Some (0%nat, 168%N)]
             [Double.of_Z 2; Double.of_Z (-1)] |}.

End ShortJScenario.


(** *** A log density on which the line search cannot succeed *)

Module LineSearchScenario.

Import Laplace.

(** Operators of a constant log density that nevertheless report the
    gradient [1] and the Hessian [1] in each coordinate, so that the
    Newton direction is [-1] and its product with the gradient is
    negative. *)
Definition flat : lgp_operators := {|
  log_density s theta := Double.zero;
  cond_gradient s theta := map (fun _ => Double.one) theta;
  cond_hessian s theta := map (fun _ => Double.one) theta;
  solver_gradient s theta := map (fun _ => Double.zero) theta;
  norm v := SolverScenario.sum_left (map SFabs v);
  dot a b := SolverScenario.sum_left (zip_with Double.mul a b)
|}.

End LineSearchScenario.

(* ================================================================= *)
(** ** The dense latent Gaussian Poisson system *)

Module DenseSystem.

(** What a piece of code that indexes vectors and matrices can do
    besides returning: [std::vector]'s constructor throws
    [std::length_error] for a size beyond [max_size()], and an access
    outside a vector or a matrix, a matrix of negative dimension, a
    read of a coefficient that was never written and a signed overflow
    have no defined behaviour. *)
Inductive run (A : Type) : Type :=
| Done (a : A)
| LengthError
| Undefined.
Arguments Done {A} _.
Arguments LengthError {A}.
Arguments Undefined {A}.

#[global] Instance run_ret : MRet run := fun A a => Done a.
#[global] Instance run_bind : MBind run := fun A B k m =>
  match m with
  | Done a => k a
  | LengthError => LengthError
  | Undefined => Undefined
  end.

(** [for (int i = lo; i < lo + n; i++) s = body(i, s);] *)
Fixpoint for_loop {St : Type} (body : Z -> St -> run St) (i : Z) (n : nat)
    (s : St) : run St :=
  match n with
  | O => Done s
  | S n' => s' ← body i s; for_loop body (i + 1) n' s'
  end.

(** [v[i]] and [v(i)] as an rvalue and as the target of an assignment. *)
Definition vec_read {A : Type} (v : list A) (i : Z) : run A :=
  if decide (0 <= i) then
    match v !! Z.to_nat i with Some a => Done a | None => Undefined end
  else Undefined.

Definition vec_write {A : Type} (v : list A) (i : Z) (a : A) : run (list A) :=
  if decide (0 <= i < Z.of_nat (length v)) then Done (<[Z.to_nat i := a]> v)
  else Undefined.

(** [Eigen::Matrix<T, Dynamic, Dynamic>], stored by columns; a
    coefficient is [None] until it is first written. *)
Record EigenMatrix (T : Type) : Type := {
  e_rows : Z;
  e_cols : Z;
  e_data : list (option T)
}.
Arguments e_rows {T} _.
Arguments e_cols {T} _.
Arguments e_data {T} _.

Section Matrices.

Context {T : Type}.

(** [Eigen::Matrix<T, Dynamic, Dynamic> m(r, c);] *)
Definition new_matrix (r c : Z) : run (EigenMatrix T) :=
  if decide (0 <= r /\ 0 <= c) then
    Done {| e_rows := r; e_cols := c;
            e_data := replicate (Z.to_nat (r * c)) None |}
  else Undefined.

Definition in_range (m : EigenMatrix T) (i j : Z) : Prop :=
  0 <= i < e_rows m /\ 0 <= j < e_cols m.

Definition index_of (m : EigenMatrix T) (i j : Z) : nat :=
  Z.to_nat (i + j * e_rows m).

(** [m(i, j) = v;] *)
Definition mat_write (m : EigenMatrix T) (i j : Z) (v : T)
    : run (EigenMatrix T) :=
  if decide (in_range m i j) then
    Done {| e_rows := e_rows m; e_cols := e_cols m;
            e_data := <[index_of m i j := Some v]> (e_data m) |}
  else Undefined.

(** [m(i, j)] as an rvalue. *)
Definition mat_read (m : EigenMatrix T) (i j : Z) : run T :=
  if decide (in_range m i j) then
    match e_data m !! index_of m i j with
    | Some (Some v) => Done v
    | _ => Undefined
    end
  else Undefined.

End Matrices.

Section Covariance.

Context {T : Type}.

(** [std::pow] and the product of the scalar type, from headers that
    are not among the sources. *)
Variable pow : T -> double -> T.
Variable mul : T -> T -> T.

(** [lgp_covariance(phi, M, space_matters)]. *)
Definition lgp_covariance (phi : list T) (M : Z) (space_matters : bool)
    : run (EigenMatrix T) :=
  sigma ← vec_read phi 0;
  rho ← vec_read phi 1;
  Sigma ← new_matrix M M;
  for_loop (fun i Sigma =>
      Sigma ← for_loop (fun j Sigma =>
          let exponent :=
            if space_matters then Double.of_Z (i - j) else Double.of_Z 1 in
          Sigma ← mat_write Sigma i j (mul (pow rho exponent) sigma);
          v ← mat_read Sigma i j;
          mat_write Sigma j i v)
        0 (Z.to_nat i) Sigma;
      mat_write Sigma i i sigma)
    0 (Z.to_nat M) Sigma.

(** The coefficient the loops are meant to leave at row [i], column
    [j]. *)
Definition covariance_entry (sigma rho : T) (space_matters : bool) (i j : Z)
    : T :=
  if i =? j then sigma
  else mul (pow rho (if space_matters then Double.of_Z (Z.abs (i - j))
                     else Double.of_Z 1)) sigma.

End Covariance.

(** [struct lgp_dense_system<T0>]; the members are public. *)
Record lgp_dense_system (T0 : Type) : Type := {
  phi_ : list T0;
  M_ : Z;
  space_matters_ : bool;
  n_samples_ : list double;
  sums_ : list double;
  Q_ : EigenMatrix T0
}.
Arguments phi_ {T0} _.
Arguments M_ {T0} _.
Arguments space_matters_ {T0} _.
Arguments n_samples_ {T0} _.
Arguments sums_ {T0} _.
Arguments Q_ {T0} _.

Definition INT_MIN : Z := -2147483648.

Definition fits_int (z : Z) : bool :=
  (INT_MIN <=? z) && (z <=? Laplace.INT_MAX).

Section System.

Context {T0 : Type}.

(** [inverse_spd] and [to_array_1d] are defined in headers that are not
    among the sources. *)
Variable inverse_spd : EigenMatrix T0 -> run (EigenMatrix T0).
Variable to_array_1d : EigenMatrix T0 -> list double.
Variable pow : T0 -> double -> T0.
Variable mul : T0 -> T0 -> T0.

(** The constructor: [M_(n_samples.size())] and
    [Q_ = inverse_spd(lgp_covariance(phi, M_, true))]. *)
Definition new_lgp_dense_system (phi : list T0) (n_samples sums : list double)
    (space_matters : bool) : run (lgp_dense_system T0) :=
  let M := Z.of_nat (length n_samples) in
  Sigma ← lgp_covariance pow mul phi M true;
  Q ← inverse_spd Sigma;
  mret {| phi_ := phi; M_ := M; space_matters_ := space_matters;
          n_samples_ := n_samples; sums_ := sums; Q_ := Q |}.

(** [get_dat()]: [std::vector<double> dat(M_ * (2 + M_))] holds zeros
    until the three loops fill it. *)
Definition get_dat (s : lgp_dense_system T0) : run (list double) :=
  let M := M_ s in
  if negb (fits_int (2 + M) && fits_int (M * (2 + M)) && fits_int (M * M)
           && fits_int (2 * M))
  then Undefined
  else if decide (M * (2 + M) < 0) then LengthError
  else
    let dat := replicate (Z.to_nat (M * (2 + M))) Double.zero in
    let Q_array := to_array_1d (Q_ s) in
    dat ← for_loop (fun i dat =>
             x ← vec_read (n_samples_ s) i; vec_write dat i x)
           0 (Z.to_nat M) dat;
    dat ← for_loop (fun i dat =>
             x ← vec_read (sums_ s) i; vec_write dat (M + i) x)
           0 (Z.to_nat M) dat;
    for_loop (fun i dat =>
        x ← vec_read Q_array i; vec_write dat (2 * M + i) x)
      0 (Z.to_nat (M * M)) dat.

Definition get_phi (s : lgp_dense_system T0) : list T0 := phi_ s.
Definition get_n_samples (s : lgp_dense_system T0) : list double :=
  n_samples_ s.
Definition get_sums (s : lgp_dense_system T0) : list double := sums_ s.
Definition get_space_matters (s : lgp_dense_system T0) : bool :=
  space_matters_ s.

End System.

End DenseSystem.

(** *** A dense system with two local parameters *)

Module DenseScenario.

Import DenseSystem.

(** A stand-in for [to_array_1d], which is outside the sources: the
    coefficients in storage order, zero for the unwritten ones. *)
Definition flatten (Q : EigenMatrix double) : list double :=
  map (fun c => match c with Some x => x | None => Double.zero end) (e_data Q).

Definition identity_2x2 : EigenMatrix double :=
  {| e_rows := 2; e_cols := 2;
     e_data := [Some Double.one; Some Double.zero;
                Some Double.zero; Some Double.one] |}.

Definition two_by_two : lgp_dense_system double :=
  {| phi_ := [Double.one; Double.half]; M_ := 2; space_matters_ := false;
     n_samples_ := [Double.one; Double.one];
     sums_ := [Double.of_Z 3; Double.of_Z 4];
     Q_ := identity_2x2 |}.

End DenseScenario.

(* ================================================================= *)
(** ** Promotion of scalar types *)

Module PromoteScalar.

Import DenseSystem.

(** [for (int i = lo; i < lo + n; ++i) s = body(i, s);] where the
    bound is wider than [int]: the counter is an [int], and [++i] at
    [INT_MAX] is a signed overflow. *)
Fixpoint for_loop_int {St : Type} (body : Z -> St -> run St) (i : Z) (n : nat)
    (s : St) : run St :=
  match n with
  | O => Done s
  | S n' =>
      s' ← body i s;
      if decide (i + 1 <= Laplace.INT_MAX) then for_loop_int body (i + 1) n' s'
      else Undefined
  end.

Section Promote.

Context {S R : Type}.

(** [promote_scalar_struct<T, S>::apply] for the element type: the
    conversion [T(x)] of the base case, the identity of the
    specialisation for equal types, or one of the container
    specialisations below. *)
Variable apply : S -> run R.

(** The value of a value-initialised element of the result vector. *)
Variable init : R.

(** [promote_scalar_struct<T, std::vector<S>>::apply]. *)
Definition apply_vector (x : list S) : run (list R) :=
  let y := replicate (length x) init in
  for_loop (fun i y => xi ← vec_read x i; r ← apply xi; vec_write y i r)
    0 (length x) y.

(** [x(i)] and [y(i) = r] with a single index, on an Eigen matrix. *)
Definition coeff_read {A : Type} (m : EigenMatrix A) (i : Z) : run A :=
  if decide (0 <= i < e_rows m * e_cols m) then
    match e_data m !! Z.to_nat i with
    | Some (Some v) => Done v
    | _ => Undefined
    end
  else Undefined.

Definition coeff_write {A : Type} (m : EigenMatrix A) (i : Z) (v : A)
    : run (EigenMatrix A) :=
  if decide (0 <= i < e_rows m * e_cols m) then
    Done {| e_rows := e_rows m; e_cols := e_cols m;
            e_data := <[Z.to_nat i := Some v]> (e_data m) |}
  else Undefined.

(** [promote_scalar_struct<T, Eigen::Matrix<S, -1, -1>>::apply]; the
    specialisations for row and column vectors have the same body.
    The loop is [for (int i = 0; i < x.size(); ++i)], with [x.size()]
    the 64-bit [rows * cols]. *)
Definition apply_matrix (x : EigenMatrix S) : run (EigenMatrix R) :=
  y ← new_matrix (e_rows x) (e_cols x);
  for_loop_int
    (fun i y => xi ← coeff_read x i; r ← apply xi; coeff_write y i r)
    0 (Z.to_nat (e_rows x * e_cols x)) y.

End Promote.

(** The base case and the specialisation for equal types. *)
Definition apply_base {S T : Type} (convert : S -> T) (x : S) : run T :=
  Done (convert x).

Definition apply_same {T : Type} (x : T) : run T := Done x.

End PromoteScalar.

(* ================================================================= *)
(** ** The OpenCL kernel generator *)

Module KernelGenerator.

Local Open Scope string_scope.

(** [struct kernel_parts]. *)
Record kernel_parts : Type := {
  includes : string;
  initialization : string;
  body_prefix : string;
  body : string;
  reduction : string;
  args : string
}.

(** [kernel_parts{}]. *)
Definition empty_parts : kernel_parts :=
  {| includes := ""; initialization := ""; body_prefix := ""; body := "";
     reduction := ""; args := "" |}.

(** [operator+]; [operator+=] assigns the same six concatenations to
    the left operand. *)
Definition parts_add (a b : kernel_parts) : kernel_parts :=
  {| includes := includes a ++ includes b;
     initialization := initialization a ++ initialization b;
     body_prefix := body_prefix a ++ body_prefix b;
     body := body a ++ body b;
     reduction := reduction a ++ reduction b;
     args := args a ++ args b |}.

(** [std::accumulate(first, last, kernel_parts{})]. *)
Definition accumulate_parts (l : list kernel_parts) : kernel_parts :=
  fold_left parts_add l empty_parts.

(** What a class derived from [operation_cl] supplies: its [generate]
    (which reads the [var_name] of the object, here the first
    argument, then [i], [j], [view_handled] and the variable names of
    the arguments), its [modify_argument_indices] and its
    [view_transitivity]. *)
Record derived_class : Type := {
  generate : string -> string -> string -> bool -> list string -> kernel_parts;
  modify_argument_indices : string -> string -> string * string;
  view_transitivity : list bool
}.

(** An expression: the address of the object, its class and its
    arguments.  The same object can occur several times. *)
#[warnings="-register-all"] Inductive operation : Type :=
| Op (this : positive) (derived : derived_class) (arguments_ : list operation).

Definition address (op : operation) : positive :=
  match op with Op this _ _ => this end.

Section Generation.

(** [name_generator] is defined in a header that is not among the
    sources; [generate_name] is its [generate()]. *)
Variable name_generator : Type.
Variable generate_name : name_generator -> string * name_generator.

(** The state the generation threads through: the set [generated], the
    name generator, and the [var_name] members of the objects (empty
    until set). *)
Record gen_state : Type := {
  generated : gset positive;
  name_gen : name_generator;
  var_names : gmap positive string
}.

Definition var_name (st : gen_state) (op : operation) : string :=
  default "" (var_names st !! address op).

Section Arguments.

Variable rec : operation -> string -> string -> bool -> gen_state
               -> kernel_parts * gen_state.
Variables i_arg j_arg : string.
Variable view_handled : bool.

(** The braced initialiser of [args_parts]: the arguments generate
    their parts from left to right, the [Is]-th with
    [view_handled && view_transitivity[Is]]. *)
Fixpoint arguments_parts (arguments : list operation) (transitivity : list bool)
    (st : gen_state) : list kernel_parts * gen_state :=
  match arguments with
  | [] => ([], st)
  | a :: arguments' =>
      let '(p, st1) :=
        rec a i_arg j_arg (view_handled && hd false transitivity) st in
      let '(ps, st2) := arguments_parts arguments' (tl transitivity) st1 in
      (p :: ps, st2)
  end.

End Arguments.

(** [operation_cl::get_kernel_parts]. *)
Fixpoint get_kernel_parts (op : operation) (i j : string) (view_handled : bool)
    (st : gen_state) : kernel_parts * gen_state :=
  match op with
  | Op this derived arguments_ =>
      if decide (this ∈ generated st) then (empty_parts, st)
      else
        let '(name, ng) := generate_name (name_gen st) in
        let st0 := {| generated := {[this]} ∪ generated st;
                      name_gen := ng;
                      var_names := <[this := name]> (var_names st) |} in
        let '(i_arg, j_arg) := modify_argument_indices derived i j in
        let '(args_parts, st1) :=
          arguments_parts get_kernel_parts i_arg j_arg view_handled
            arguments_ (view_transitivity derived) st0 in
        let res := accumulate_parts args_parts in
        let my_part :=
          generate derived (var_name st1 op) i j view_handled
            (map (var_name st1) arguments_) in
        let res := parts_add res my_part in
        ({| includes := includes res;
            initialization := initialization res;
            body_prefix := "";
            body := body_prefix res ++ body res;
            reduction := reduction res;
            args := args res |}, st1)
  end.

End Generation.

(** [unary_function_cl<Derived, T>]: [generate] of the class for the
    function [fun_] with the include text [include];
    [modify_argument_indices] and [view_transitivity] are those of
    [operation_cl] ([std::is_same<T, void>] is false for an operation
    [T]).  [type_str] is the name of the scalar type. *)
Definition unary_function_cl (type_str include fun_ : string)
    : derived_class :=
  {| generate var_name i j view_handled names :=
       {| includes := include;
          initialization := "";
          body_prefix := "";
          body := type_str ++ " " ++ var_name ++ " = " ++ fun_ ++ "("
                  ++ hd "" names ++ ");" ++ String (Ascii.ascii_of_nat 10) "";
          reduction := "";
          args := "" |};
     modify_argument_indices i j := (i, j);
     view_transitivity := [false] |}.

End KernelGenerator.

(** *** An expression with a shared argument *)

Module KernelScenario.

Import KernelGenerator.

Local Open Scope string_scope.

(** A stand-in for the name generator: a counter, and the names
    [v], [vv], [vvv], ... *)
Definition counter_names (n : nat) : string * nat :=
  (String.concat "" (replicate (S n) "v"), S n).

(** A class with no arguments that declares its variable. *)
Definition source_class : derived_class :=
  {| generate var_name i j view_handled names :=
       {| includes := ""; initialization := ""; body_prefix := "";
          body := "double " ++ var_name ++ " = 0;";
          reduction := ""; args := "" |};
     modify_argument_indices i j := (i, j);
     view_transitivity := [] |}.

Definition source : operation := Op 1 source_class [].

(** [exp(source)]. *)
Definition exp_source : operation :=
  Op 2 (unary_function_cl "double" "" "exp") [source].

Definition start (generated : gset positive) : gen_state nat :=
  {| generated := generated; name_gen := 0%nat; var_names := ∅ |}.

End KernelScenario.

(** *** A system on which the iteration makes no progress *)

Module StuckScenario.

Import Laplace.

(** Operators that report the gradient [1] and an infinite Hessian in
    each coordinate: the Newton direction is [-0], every update leaves
    the vector as it is, and the norm of the gradient never falls. *)
Definition stuck : lgp_operators := {|
  log_density s theta := Double.zero;
  cond_gradient s theta := map (fun _ => Double.one) theta;
  cond_hessian s theta := map (fun _ => Double.INFTY) theta;
  solver_gradient s theta := map (fun _ => Double.zero) theta;
  norm v := SolverScenario.sum_left (map SFabs v);
  dot a b := SolverScenario.sum_left (zip_with Double.mul a b)
|}.

End StuckScenario.

(** The step size of the line search after [k] executions of
    [alpha = tau * alpha], from [alpha = 1] with [tau = 0.5]. *)
Definition armijo_step_size (k : nat) : double :=
  Nat.iter k (Double.mul Double.half) Double.one.

(** *** A product below a nested scope *)

Module NestedProductScenario.

Local Open Scope engine_scope.

(** Leaves [x = 3.0] and [y = 4.0] and their product [xy] at the
    positions 0, 1 and 2; then, inside a nested scope, [w = xy + xy] at
    position 3 and the reverse sweep from [w].  The result is the
    visiting order together with the root. *)
Definition sweep_above_product : M (list nat * addr) :=
  x <- makeLeaf (Double.of_Z 3) ;;
  y <- makeLeaf (Double.of_Z 4) ;;
  xy <- multiply_h x y ;;
  start_nested ;;;
  w <- add_h xy xy ;;
  match w with
  | Var wi => tr <- grad_trace wi ;; ret (tr, wi)
  | Const _ => fun _ => Undef
  end.

Definition x_addr : addr := (0%nat, 0%N).
Definition xy_addr : addr := (0%nat, 48%N).

End NestedProductScenario.

(* ================================================================= *)
(** * Properties *)

(** ** [add] *)

Section AddFacts.

Import Prim.

Lemma check_matching_dims_ok f n1 m1 n2 m2 :
  rows m1 = rows m2 -> cols m1 = cols m2 ->
  check_matching_dims f n1 m1 n2 m2 = Return tt.
Proof.
  intros Hr Hc. unfold check_matching_dims.
  rewrite !bool_decide_eq_true_2 by assumption. reflexivity.
Qed.

Lemma check_matching_dims_throws f n1 m1 n2 m2 :
  rows m1 <> rows m2 \/ cols m1 <> cols m2 ->
  check_matching_dims f n1 m1 n2 m2 = Raise (invalid_argument f n1 n2).
Proof.
  intros H. unfold check_matching_dims.
  destruct (bool_decide (rows m1 = rows m2)) eqn:Er;
    destruct (bool_decide (cols m1 = cols m2)) eqn:Ec; simpl; try reflexivity.
  apply bool_decide_eq_true_1 in Er, Ec. tauto.
Qed.

Lemma eigen_plus_wf m1 m2 :
  rows m1 = rows m2 -> cols m1 = cols m2 ->
  wf_matrix m1 -> wf_matrix m2 -> wf_matrix (eigen_plus m1 m2).
Proof.
  unfold wf_matrix, eigen_plus. simpl. intros Hr Hc H1 H2.
  rewrite length_zip_with, H1, H2, Hr, Hc. lia.
Qed.

Lemma eigen_plus_coeff m1 m2 i j x y :
  rows m1 = rows m2 ->
  coeff m1 i j = Some x -> coeff m2 i j = Some y ->
  coeff (eigen_plus m1 m2) i j = Some (Double.add x y).
Proof.
  unfold coeff, eigen_plus. simpl. intros Hr H1 H2.
  rewrite lookup_zip_with, H1. simpl. rewrite Hr, H2. reflexivity.
Qed.

Lemma coeff_in_range m i j :
  wf_matrix m -> (i < rows m)%nat -> (j < cols m)%nat ->
  is_Some (coeff m i j).
Proof.
  unfold wf_matrix, coeff. intros Hwf Hi Hj.
  apply lookup_lt_is_Some. rewrite Hwf. nia.
Qed.

(** C10: [add(m1, m2)] throws [std::invalid_argument] when the
    dimensions of [m1] and [m2] differ; otherwise it returns a matrix
    of the same dimensions whose coefficient at every (i, j) is the sum
    of the coefficients of [m1] and [m2] at (i, j). *)
Theorem add_throws_or_sums (m1 m2 : Matrix) :
  wf_matrix m1 -> wf_matrix m2 ->
  (rows m1 <> rows m2 \/ cols m1 <> cols m2 ->
     add m1 m2 = Raise (invalid_argument "add" "m1" "m2"))
  /\ (rows m1 = rows m2 -> cols m1 = cols m2 ->
      exists m, add m1 m2 = Return m
        /\ rows m = rows m1 /\ cols m = cols m1 /\ wf_matrix m
        /\ forall i j, (i < rows m1)%nat -> (j < cols m1)%nat ->
             exists x y, coeff m1 i j = Some x /\ coeff m2 i j = Some y
               /\ coeff m i j = Some (Double.add x y)).
Proof.
  intros W1 W2. split.
  - intros H. unfold add.
    rewrite (check_matching_dims_throws _ _ _ _ _ H). reflexivity.
  - intros Hr Hc. exists (eigen_plus m1 m2). unfold add.
    rewrite check_matching_dims_ok by assumption. simpl.
    split; [reflexivity|]. split; [reflexivity|]. split; [reflexivity|].
    split; [apply eigen_plus_wf; assumption|].
    intros i j Hi Hj.
    destruct (coeff_in_range m1 i j W1 Hi Hj) as [x Hx].
    destruct (coeff_in_range m2 i j W2) as [y Hy]; [lia | lia |].
    exists x, y. split; [assumption|]. split; [assumption|].
    apply eigen_plus_coeff; assumption.
Qed.

Lemma add_throws_or_sums_witness :
  add (Scenario.m_2x2 1 2 3 4) (Scenario.m_1x3 1 2 3) = Raise (invalid_argument "add" "m1" "m2")
  /\ exists m, add (Scenario.m_2x2 1 2 3 4) (Scenario.m_2x2 10 20 30 40) = Return m
       /\ coeff m 1 0 = Some (Double.of_Z 22).
Proof.
  split.
  - apply (add_throws_or_sums (Scenario.m_2x2 1 2 3 4) (Scenario.m_1x3 1 2 3));
      [reflexivity | reflexivity | left; simpl; lia].
  - destruct (add_throws_or_sums (Scenario.m_2x2 1 2 3 4) (Scenario.m_2x2 10 20 30 40))
      as [_ H]; [reflexivity | reflexivity |].
    destruct (H eq_refl eq_refl) as (m & Hm & _).
    exists m. split; [exact Hm|].
    vm_compute in Hm. injection Hm as <-. vm_compute. reflexivity.
Defined.

End AddFacts.

(** ** Engine actions, step by step *)

Section EngineBasics.

Local Open Scope engine_scope.

Lemma new_vari_eq size x o stacked e :
  new_vari size x o stacked e =
    Ok (fst (Arena.allocate (memalloc_ e) size))
       {| memalloc_ := snd (Arena.allocate (memalloc_ e) size);
          mem := <[fst (Arena.allocate (memalloc_ e) size) :=
                     {| val_ := x; adj_ := Double.zero; op := o |}]> (mem e);
          var_stack_ :=
            if stacked
            then var_stack_ e ++ [fst (Arena.allocate (memalloc_ e) size)]
            else var_stack_ e;
          nested_ := nested_ e |}.
Proof.
  unfold new_vari, bind, alloc, store, push_var_stack, ret.
  destruct (Arena.allocate (memalloc_ e) size) as [a al]. simpl.
  destruct stacked; reflexivity.
Qed.

Lemma build_nodes_ok l e :
  exists e',
    build_nodes l e = Ok tt e'
    /\ (exists added, var_stack_ e' = var_stack_ e ++ added
                      /\ length added = length l)
    /\ nested_ e' = nested_ e.
Proof.
  revert e. induction l as [|[[size x] o] l IH]; intros e.
  - exists e. split; [reflexivity|]. split; [|reflexivity].
    exists []. rewrite app_nil_r. split; reflexivity.
  - simpl. unfold bind at 1. rewrite new_vari_eq.
    match goal with |- context [build_nodes l ?e1] =>
      destruct (IH e1) as (e' & Hrun & (added & Hst & Hlen) & Hn) end.
    exists e'. split; [exact Hrun|]. split.
    + eexists (_ :: added). simpl in Hst. rewrite Hst, <- app_assoc.
      split; [reflexivity|]. simpl. rewrite Hlen. reflexivity.
    + rewrite Hn. reflexivity.
Qed.

Lemma watermark_rewind al w : Arena.watermark (Arena.rewind al w) = w.
Proof. destruct w. reflexivity. Qed.

Lemma nested_bracket_ok l e :
  exists e',
    nested_bracket l e = Ok tt e'
    /\ var_stack_ e' = var_stack_ e
    /\ watermark e' = watermark e
    /\ nested_ e' = nested_ e.
Proof.
  unfold nested_bracket, bind at 1, start_nested.
  match goal with |- context [(build_nodes l ;;; _) ?e1] =>
    destruct (build_nodes_ok l e1) as (e2 & Hrun & (added & Hst & _) & Hn) end.
  unfold bind. rewrite Hrun.
  unfold recover_memory_nested. rewrite Hn. simpl.
  eexists. split; [reflexivity|]. simpl in *. rewrite Hst.
  split; [apply take_app_length|].
  split; [apply watermark_rewind | reflexivity].
Qed.

(** C4: for any list of node constructions (of any length [N >= 0]),
    [start_nested(); build the nodes; recover_memory_nested()] returns
    normally and leaves the tape (hence its size), the arena watermark
    and the checkpoint stack as they were; the same holds for any
    number of such brackets in a row. *)
Theorem nested_bracket_restores (e : engine)
    (l : list (N * double * operation))
    (ls : list (list (N * double * operation))) :
  (exists e', nested_bracket l e = Ok tt e'
     /\ length (var_stack_ e') = length (var_stack_ e)
     /\ watermark e' = watermark e)
  /\ (exists e', nested_brackets ls e = Ok tt e'
        /\ length (var_stack_ e') = length (var_stack_ e)
        /\ watermark e' = watermark e).
Proof.
  split.
  - destruct (nested_bracket_ok l e) as (e' & Hrun & Hst & Hw & _).
    exists e'. rewrite Hst. auto.
  - revert e. induction ls as [|l0 ls IH]; intros e.
    + exists e. simpl. auto.
    + destruct (nested_bracket_ok l0 e) as (e1 & Hrun & Hst & Hw & _).
      destruct (IH e1) as (e2 & Hrun2 & Hlen2 & Hw2).
      exists e2. simpl. unfold bind. rewrite Hrun.
      split; [exact Hrun2|]. rewrite Hlen2, Hw2, Hst, Hw. auto.
Qed.

(** C8: with an empty checkpoint stack [recover_memory_nested()] throws
    [std::logic_error] with its diagnostic, the engine state carried by
    the failure is the state before the call (tape and arena are not
    touched), and whatever code follows the call is not run: the
    failure is the outcome of the whole computation, be it any
    continuation or any further history of engine calls. *)
Theorem recover_nested_underflow (e : engine) :
  nested_ e = [] ->
  recover_memory_nested e =
    Throw (logic_error
      "empty_nested() must be false before calling recover_memory_nested()") e
  /\ (forall (B : Type) (k : unit -> M B),
        bind recover_memory_nested k e =
          Throw (logic_error
            "empty_nested() must be false before calling recover_memory_nested()")
            e)
  /\ (forall (ops : Laplace.lgp_operators) (l : list History.action),
        History.exec (History.a_recover_memory_nested :: l) e =
          Throw (logic_error
            "empty_nested() must be false before calling recover_memory_nested()")
            e).
Proof.
  intros H. simpl. unfold bind, recover_memory_nested. rewrite H. auto.
Qed.

Lemma recover_nested_underflow_witness :
  recover_memory_nested empty_engine =
    Throw (logic_error
      "empty_nested() must be false before calling recover_memory_nested()")
      empty_engine.
Proof.
  exact (proj1 (recover_nested_underflow empty_engine eq_refl)).
Defined.

End EngineBasics.

(** ** Concrete gradients *)

(** C6: leaves [x = 3.0] and [y = 4.0], [z = x * y + x], adjoint of [z]
    seeded to 1, reverse sweep: the adjoint of [x] is 5.0 and the
    adjoint of [y] is 3.0. *)
Theorem gradient_x_times_y_plus_x :
  exists e',
    Scenario.x_times_y_plus_x empty_engine
      = Ok [Double.of_Z 5; Double.of_Z 3] e'
    /\ length (var_stack_ e') = 4%nat.
Proof.
  eexists. split.
  - vm_compute. reflexivity.
  - reflexivity.
Qed.

(** The detached constant contributes no node: [x + c] is one new node
    whose only operand is [x], and the gradient with respect to [x]
    is 1.0. *)
Example gradient_x_plus_constant :
  exists z e',
    Scenario.x_plus_constant empty_engine = Ok (Var z, [Double.one]) e'
    /\ length (var_stack_ e') = 2%nat
    /\ op <$> mem e' !! z = Some (op_add_vd (0%nat, 0%N)).
Proof.
  eexists _, _. split; [vm_compute; reflexivity|].
  split; [reflexivity | vm_compute; reflexivity].
Qed.

(** ** Domain validation *)

Section DomainChecks.

Import PrimFun.
Local Open Scope engine_scope.

Lemma lt_zero_not_ge (y : double) :
  Double.lt y Double.zero = true -> Double.ge y Double.zero = false.
Proof. destruct y as [[]|[]| |[] m e]; intros H; cbv in H |- *; congruence. Qed.

Lemma lt_zero_not_nan (y : double) :
  Double.lt y Double.zero = true -> Double.is_nan y = false.
Proof. destruct y as [[]|[]| |[] m e]; intros H; cbv in H |- *; congruence. Qed.

Lemma le_zero_not_gt (y : double) :
  Double.le y Double.zero = true -> Double.gt y Double.zero = false.
Proof. destruct y as [[]|[]| |[] m e]; intros H; cbv in H |- *; congruence. Qed.

Lemma check_nonnegative_throws f n y :
  Double.lt y Double.zero = true ->
  check_nonnegative f n y = Raise (domain_error f n).
Proof.
  intros H. unfold check_nonnegative. rewrite (lt_zero_not_ge y H). reflexivity.
Qed.

Lemma check_positive_finite_throws f n y :
  Double.le y Double.zero = true \/ Double.isfinite y = false ->
  check_positive_finite f n y = Raise (domain_error f n).
Proof.
  intros [H|H]; unfold check_positive_finite.
  - rewrite (le_zero_not_gt y H). reflexivity.
  - rewrite H, andb_false_r. reflexivity.
Qed.

Lemma check_positive_finite_returns f n y :
  Double.gt y Double.zero = true -> Double.isfinite y = true ->
  check_positive_finite f n y = Return tt.
Proof.
  intros H1 H2. unfold check_positive_finite. rewrite H1, H2. reflexivity.
Qed.

(** The scalar cases of the unit test [CheckPositiveFinite]. *)
Example check_positive_finite_unit_test :
  let f := "check_positive_finite"%string in
  check_positive_finite f "x" (Double.of_Z 1) = Return tt
  /\ check_positive_finite f "x" (Double.of_Z (-1)) = Raise (domain_error f "x")
  /\ check_positive_finite f "x" (Double.of_Z 0) = Raise (domain_error f "x")
  /\ check_positive_finite f "x" Double.INFTY = Raise (domain_error f "x")
  /\ check_positive_finite f "x" Double.NEGATIVE_INFTY
       = Raise (domain_error f "x")
  /\ check_positive_finite f "x" Double.NOT_A_NUMBER
       = Raise (domain_error f "x").
Proof. repeat split. Qed.

Variables lgamma lgamma_stirling inv square : handle -> M handle.
Variable subtract : handle -> handle -> M handle.

Let lsd := lgamma_stirling_diff lgamma lgamma_stirling inv square subtract.

Lemma lgamma_stirling_diff_negative x v e :
  value_of x e = Ok v e -> Double.lt v Double.zero = true ->
  lsd x e = Throw (domain_error "lgamma_stirling_diff" "argument") e.
Proof.
  intros Hv Hlt. unfold lsd, lgamma_stirling_diff, bind at 1. rewrite Hv.
  rewrite (lt_zero_not_nan v Hlt). unfold bind.
  rewrite (check_nonnegative_throws _ _ v Hlt). reflexivity.
Qed.

Lemma lgamma_stirling_diff_nan_double e :
  lsd (Const Double.NOT_A_NUMBER) e = Ok (Const Double.NOT_A_NUMBER) e.
Proof. reflexivity. Qed.

Lemma lgamma_stirling_diff_nan_var a v e :
  mem e !! a = Some v -> Double.is_nan (val_ v) = true ->
  exists r e', lsd (Var a) e = Ok (Var r) e'
    /\ value_of (Var r) e' = Ok Double.NOT_A_NUMBER e'.
Proof.
  intros Hm Hnan. unfold lsd, lgamma_stirling_diff, bind at 1.
  unfold value_of at 1, bind, load, ret. rewrite Hm, Hnan.
  unfold to_return_type, makeLeaf, bind. rewrite new_vari_eq.
  eexists _, _. split; [reflexivity|].
  unfold value_of, bind, load, ret. simpl. rewrite lookup_insert_eq. reflexivity.
Qed.

(** C7: [lgamma_stirling_diff] throws a domain error for every negative
    argument and does so with the autodiff state untouched (no node has
    been constructed); [check_positive_finite] throws
    [std::domain_error] for every argument that is not positive or not
    finite; applied to NaN, [lgamma_stirling_diff] returns NaN and does
    not throw (for a double argument and for a node whose value is
    NaN). *)
Theorem domain_errors_before_nodes :
  (forall x v e,
      value_of x e = Ok v e -> Double.lt v Double.zero = true ->
      lsd x e = Throw (domain_error "lgamma_stirling_diff" "argument") e)
  /\ (forall f n y,
        Double.le y Double.zero = true \/ Double.isfinite y = false ->
        check_positive_finite f n y = Raise (domain_error f n))
  /\ (forall e,
        lsd (Const Double.NOT_A_NUMBER) e = Ok (Const Double.NOT_A_NUMBER) e)
  /\ (forall a v e,
        mem e !! a = Some v -> Double.is_nan (val_ v) = true ->
        exists r e', lsd (Var a) e = Ok (Var r) e'
          /\ value_of (Var r) e' = Ok Double.NOT_A_NUMBER e').
Proof.
  split; [exact lgamma_stirling_diff_negative|].
  split; [exact check_positive_finite_throws|].
  split; [exact lgamma_stirling_diff_nan_double|].
  exact lgamma_stirling_diff_nan_var.
Qed.

End DomainChecks.

Lemma domain_errors_before_nodes_witness :
  Scenario.lgamma_stirling_diff_stub (Const (Double.of_Z (-1))) empty_engine
    = Throw (domain_error "lgamma_stirling_diff" "argument") empty_engine
  /\ PrimFun.check_positive_finite "f" "x" Double.zero
       = Raise (domain_error "f" "x")
  /\ PrimFun.check_positive_finite "f" "x" Double.INFTY
       = Raise (domain_error "f" "x").
Proof.
  pose proof (domain_errors_before_nodes Scenario.unary_stub
    Scenario.unary_stub Scenario.unary_stub Scenario.unary_stub
    Scenario.binary_stub) as (H1 & H2 & _).
  split; [|split].
  - apply (H1 (Const (Double.of_Z (-1))) (Double.of_Z (-1)) empty_engine);
      reflexivity.
  - apply H2. left. reflexivity.
  - apply H2. right. reflexivity.
Defined.

(** ** The Newton iteration of the double instantiation *)

Section UpdateFacts.

Import Laplace.

Context {ops : lgp_operators}.
Variable system : lgp_conditional_system double.
Variable line_search : bool.
Variable fuel : nat.

(** [newton_update] is defined exactly where the body of the loop
    completes the update. *)
Lemma newton_step_of_update (gradient theta theta' : VectorXd) :
  newton_update system line_search fuel gradient theta = Some theta' ->
  newton_step system line_search fuel gradient theta = Updated theta'.
Proof.
  unfold newton_update.
  destruct (newton_step system line_search fuel gradient theta);
    intros H; try discriminate. injection H as ->. reflexivity.
Qed.


End UpdateFacts.

Section SolverFacts.

Import Laplace SolverClaims.

Context {ops : lgp_operators}.
Variable system : lgp_conditional_system double.
Variable tol : double.
Variable max_num_steps : Z.
Variable line_search : bool.
Variable fuel : nat.

Let update (theta : VectorXd) : option VectorXd :=
  newton_update system line_search fuel (cond_gradient system theta) theta.

Let iter := iterate system line_search fuel.

Let loop := newton_loop system tol max_num_steps line_search fuel.

Lemma iterate_shift k theta :
  iter (S k) theta = update theta ≫= iter k.
Proof.
  induction k as [|k IH].
  - change (iter 1 theta) with (Some theta ≫= update). simpl.
    destruct (update theta); reflexivity.
  - change (iter (S (S k)) theta) with (iter (S k) theta ≫= update).
    rewrite IH. destruct (update theta) as [theta'|]; reflexivity.
Qed.



(** With a negative limit the loop body never runs and the initial
    guess is returned as it is. *)
Lemma negative_limit_returns_guess theta_0 :
  max_num_steps < 0 ->
  lgp_newton_solver system tol max_num_steps line_search fuel theta_0
    = Returns theta_0.
Proof.
  intros H. unfold lgp_newton_solver. simpl.
  replace (0 <=? max_num_steps) with false by (symmetry; apply Z.leb_gt; lia).
  reflexivity.
Qed.


End SolverFacts.

Section SolverExamples.

Import Laplace SolverClaims SolverScenario.



End SolverExamples.

(** ** Propagation of a single node *)

Section ChainFacts.

Import NodeScenario.

Lemma set_adj_set_adj v d d' : set_adj (set_adj v d) d' = set_adj v d'.
Proof. reflexivity. Qed.

Lemma bump_adj_Some (m : memory) a d v :
  m !! a = Some v ->
  bump_adj m a d = Some (<[a := set_adj v (Double.add (adj_ v) d)]> m).
Proof. intros H. unfold bump_adj. rewrite H. reflexivity. Qed.

Lemma accumulate_cons acc a adjs j J :
  accumulate acc (a :: adjs) (j :: J)
  = accumulate (Double.add acc (Double.mul a j)) adjs J.
Proof. reflexivity. Qed.

Lemma foldM_cons {A B} (f : A -> B -> option A) b l a :
  foldM f (b :: l) a = f a b ≫= foldM f l.
Proof. reflexivity. Qed.

Lemma lgp_chain_step_at (p : addr) (pv tv : vari) (m0 : memory)
    ts_done t ts (J_done : list double) j J' acc :
  length J_done = length ts_done ->
  t <> p ->
  m0 !! t = Some tv ->
  lgp_chain_step [Some p] (Some <$> (ts_done ++ t :: ts)) (J_done ++ j :: J')
    (<[p := set_adj pv acc]> m0) (length ts_done)
  = Some (<[p := set_adj pv (Double.add acc (Double.mul (adj_ tv) j))]> m0).
Proof.
  intros HJd Ht Htv. unfold lgp_chain_step. simpl.
  rewrite list_lookup_fmap.
  rewrite (list_lookup_middle ts_done ts t) by reflexivity. simpl.
  rewrite (list_lookup_middle J_done J' j) by (symmetry; exact HJd). simpl.
  rewrite lookup_insert_ne by congruence. rewrite Htv. simpl.
  rewrite (bump_adj_Some _ p _ (set_adj pv acc)) by apply lookup_insert_eq.
  simpl. rewrite insert_insert_eq. reflexivity.
Qed.

(** The loop of [lgp_newton_solver_vari::chain], from index
    [length ts_done] on. *)
Lemma lgp_chain_loop (p : addr) (pv : vari) (m0 : memory) :
  m0 !! p = Some pv ->
  forall ts_rest ts_done J_done J_rest adjs acc,
    length J_done = length ts_done ->
    length J_rest = length ts_rest ->
    p ∉ ts_rest ->
    Forall2 (fun t a => adjoint m0 t = Some a) ts_rest adjs ->
    foldM (lgp_chain_step [Some p] (Some <$> (ts_done ++ ts_rest))
             (J_done ++ J_rest))
          (seq (length ts_done) (length ts_rest))
          (<[p := set_adj pv acc]> m0)
    = Some (<[p := set_adj pv (accumulate acc adjs J_rest)]> m0).
Proof.
  intros Hp ts_rest.
  induction ts_rest as [|t ts IH];
    intros ts_done J_done J_rest adjs acc HJd HJr Hnotin Hadj.
  - inversion Hadj; subst. reflexivity.
  - destruct J_rest as [|j J']; [discriminate|].
    inversion Hadj as [|? a ? adjs' Ha Hrest]; subst.
    assert (Ht : t <> p) by (intros ->; apply Hnotin; left).
    unfold adjoint in Ha. destruct (m0 !! t) as [tv|] eqn:Etv; [|discriminate].
    simpl in Ha. injection Ha as <-.
    simpl length. simpl seq. rewrite foldM_cons.
    rewrite (lgp_chain_step_at p pv tv m0) by assumption.
    simpl mbind.
    specialize (IH (ts_done ++ [t]) (J_done ++ [j]) J' adjs'
                  (Double.add acc (Double.mul (adj_ tv) j))).
    rewrite <- !app_assoc in IH. simpl in IH.
    replace (length (ts_done ++ [t])) with (S (length ts_done)) in IH
      by (rewrite length_app; simpl; lia).
    rewrite accumulate_cons. apply IH.
    + rewrite length_app. simpl. lia.
    + simpl in HJr. lia.
    + intros Hin. apply Hnotin. right. exact Hin.
    + exact Hrest.
Qed.

Lemma set_adj_same v : set_adj v (adj_ v) = v.
Proof. destruct v. reflexivity. Qed.

(** C1, amended: [lgp_newton_solver_vari::chain] does not use the
    adjoint of operand handles or sensitivities per operand.  Its only
    operand is [phi_[0]]; one call adds to the adjoint of [phi_[0]],
    once each and in index order, the products [theta_[i]->adj_ * J_[i]]
    of the adjoints of the solution nodes with the stored sensitivity
    vector, and changes nothing else (no other adjoint, no value, no
    reference). *)
Theorem lgp_chain_accumulates_into_phi (m : memory) (this p : addr)
    (v pv : vari) (ts : list addr) (adjs J : list double) :
  m !! this = Some v ->
  op v = op_lgp_newton_solver [Some p] (length ts) (Some <$> ts) J ->
  length J = length ts ->
  m !! p = Some pv ->
  p ∉ ts ->
  Forall2 (fun t a => adjoint m t = Some a) ts adjs ->
  chain m this
  = Some (<[p := set_adj pv (accumulate (adj_ pv) adjs J)]> m).
Proof.
  intros Hthis Hop HJ Hp Hnotin Hadj.
  unfold chain. rewrite Hthis. simpl. rewrite Hop.
  pose proof (lgp_chain_loop p pv m Hp ts [] [] J adjs (adj_ pv)
                eq_refl HJ Hnotin Hadj) as H.
  simpl in H. rewrite set_adj_same, insert_id in H by exact Hp.
  exact H.
Qed.

(** On the node built by the constructor for a solution with two
    components [a] and [b] and sensitivity vector [2.0, -1.0]: with the
    adjoints of [a] and [b] seeded to 1, one call of [chain] adds 2.0
    and then -1.0 to the adjoint of [phi]. *)
Lemma lgp_chain_accumulates_into_phi_witness :
  exists m1 pv,
    (seed built_memory a_addr ≫= fun m => seed m b_addr) = Some m1
    /\ m1 !! phi_addr = Some pv
    /\ chain m1 node_addr
       = Some (<[phi_addr :=
                   set_adj pv
                     (Double.add
                        (Double.add (adj_ pv)
                           (Double.mul Double.one (Double.of_Z 2)))
                        (Double.mul Double.one (Double.of_Z (-1))))]> m1).
Proof.
  eexists _, _. split; [vm_compute; reflexivity|].
  split; [vm_compute; reflexivity|].
  eapply (lgp_chain_accumulates_into_phi _ node_addr phi_addr _ _
            [a_addr; b_addr] [Double.one; Double.one]
            [Double.of_Z 2; Double.of_Z (-1)]).
  - vm_compute. reflexivity.
  - reflexivity.
  - reflexivity.
  - vm_compute. reflexivity.
  - intros Hin. apply list_elem_of_In in Hin. simpl in Hin.
    destruct Hin as [H|[H|[]]]; discriminate H.
  - repeat constructor.
Defined.

(** C1 as stated fails on this node: after its own adjoint is seeded
    to 1 and [chain] is run, the adjoints of [a] and [b] are still 0
    (not 2.0 and -1.0), and nothing has been added to the adjoint of
    [phi] either, since the node's own adjoint is not read. *)
Lemma chain_ignores_own_adjoint :
  exists m1 m2,
    seed built_memory node_addr = Some m1
    /\ adjoint m1 node_addr = Some Double.one
    /\ chain m1 node_addr = Some m2
    /\ adjoint m2 a_addr = Some Double.zero
    /\ adjoint m2 b_addr = Some Double.zero
    /\ adjoint m2 phi_addr = Some Double.zero
    /\ adjoint m2 a_addr <> Some (Double.of_Z 2)
    /\ adjoint m2 b_addr <> Some (Double.of_Z (-1)).
Proof.
  eexists _, _. split; [vm_compute; reflexivity|].
  split; [vm_compute; reflexivity|].
  split; [vm_compute; reflexivity|].
  split; [vm_compute; reflexivity|].
  split; [vm_compute; reflexivity|].
  split; [vm_compute; reflexivity|].
  split; vm_compute; discriminate.
Qed.

End ChainFacts.

(** ** Creation order and shape of the memory *)

Section OrderFacts.

Lemma addr_lt_spec (a b : addr) :
  addr_lt a b <->
  (fst a < fst b)%nat \/ (fst a = fst b /\ (snd a < snd b)%N).
Proof.
  unfold addr_lt, addr_ltb.
  rewrite orb_true_iff, andb_true_iff, Nat.ltb_lt, Nat.eqb_eq, N.ltb_lt.
  reflexivity.
Qed.

Lemma addr_lt_irrefl (a : addr) : ~ addr_lt a a.
Proof. rewrite addr_lt_spec. lia. Qed.

Lemma addr_lt_trans (a b c : addr) : addr_lt a b -> addr_lt b c -> addr_lt a c.
Proof. rewrite !addr_lt_spec. lia. Qed.

Lemma addr_lt_neq (a b : addr) : addr_lt a b -> a <> b.
Proof. intros H ->. exact (addr_lt_irrefl b H). Qed.

#[local] Instance addr_lt_transitive : Transitive addr_lt.
Proof. intros a b c. apply addr_lt_trans. Qed.

Lemma addr_lt_le_trans a b c : addr_lt a b -> addr_le b c -> addr_lt a c.
Proof. intros H [->|H']; [exact H | exact (addr_lt_trans _ _ _ H H')]. Qed.

Lemma addr_le_lt_trans a b c : addr_le a b -> addr_lt b c -> addr_lt a c.
Proof. intros [->|H'] H; [exact H | exact (addr_lt_trans _ _ _ H' H)]. Qed.

Lemma addr_le_trans a b c : addr_le a b -> addr_le b c -> addr_le a c.
Proof.
  intros [->|H]; [auto|]. intros H'. right.
  exact (addr_lt_le_trans _ _ _ H H').
Qed.

Lemma sorted_lookup_lt (tape : list addr) i j x y :
  StronglySorted addr_lt tape ->
  (i < j)%nat -> tape !! i = Some x -> tape !! j = Some y -> addr_lt x y.
Proof.
  intros Hs. revert i j x y.
  induction Hs as [|a l Hs IH Hall]; intros i j x y Hij Hi Hj.
  - discriminate.
  - destruct j as [|j]; [lia|]. simpl in Hj. destruct i as [|i].
    + simpl in Hi. injection Hi as <-.
      rewrite Forall_forall in Hall. apply Hall.
      eapply list_elem_of_lookup_2. exact Hj.
    + simpl in Hi. apply (IH i j); [lia | assumption | assumption].
Qed.

Lemma sorted_lookup_le (tape : list addr) i j x y :
  StronglySorted addr_lt tape ->
  (i <= j)%nat -> tape !! i = Some x -> tape !! j = Some y -> addr_le x y.
Proof.
  intros Hs Hij Hi Hj. destruct (decide (i = j)) as [->|Hne].
  - left. congruence.
  - right. apply (sorted_lookup_lt tape i j); [assumption | lia | assumption..].
Qed.

Lemma same_shape_refl m : same_shape m m.
Proof. intros a. reflexivity. Qed.

Lemma same_shape_trans m1 m2 m3 :
  same_shape m1 m2 -> same_shape m2 m3 -> same_shape m1 m3.
Proof. intros H1 H2 a. rewrite H1. apply H2. Qed.

Lemma same_shape_live m m' a : same_shape m m' -> live m a -> live m' a.
Proof.
  intros H [v Hv]. specialize (H a). rewrite Hv in H. simpl in H.
  unfold live. destruct (m' !! a); [eauto | discriminate].
Qed.

Lemma same_shape_lookup m m' a v :
  same_shape m m' -> m !! a = Some v ->
  exists v', m' !! a = Some v' /\ val_ v' = val_ v /\ op v' = op v.
Proof.
  intros H Hv. specialize (H a). rewrite Hv in H. simpl in H.
  destruct (m' !! a) as [v'|]; [|discriminate].
  simpl in H. injection H as H1 H2. eauto.
Qed.

Lemma same_shape_set_adj (m : memory) a v d :
  m !! a = Some v -> same_shape m (<[a := set_adj v d]> m).
Proof.
  intros Hv b. destruct (decide (a = b)) as [<-|Hne].
  - rewrite lookup_insert_eq, Hv. reflexivity.
  - rewrite lookup_insert_ne by assumption. reflexivity.
Qed.

Lemma node_ok_same_shape m m' this o :
  same_shape m m' -> node_ok m this o -> node_ok m' this o.
Proof.
  intros Hs. destruct o as [|a b|a|a b|a c|phi_ n theta_ J_]; simpl.
  - auto.
  - intros [[? ?] [? ?]]. repeat split; eauto using same_shape_live.
  - intros [? ?]. split; eauto using same_shape_live.
  - intros [[? ?] [? ?]]. repeat split; eauto using same_shape_live.
  - intros [? ?]. split; eauto using same_shape_live.
  - intros (p & ts & H1 & H2 & H3 & H4 & H5 & H6 & H7).
    exists p, ts. repeat (split; [assumption|]).
    split; [eauto using same_shape_live|].
    eapply Forall_impl; [exact H7|]. simpl.
    intros t [? ?]. split; eauto using same_shape_live.
Qed.

Lemma tape_ok_same_shape m m' tape :
  same_shape m m' -> tape_ok m tape -> tape_ok m' tape.
Proof.
  intros Hs [Hsorted Hall]. split; [assumption|].
  eapply Forall_impl; [exact Hall|]. simpl.
  intros a (v & Hv & Hok).
  destruct (same_shape_lookup m m' a v Hs Hv) as (v' & Hv' & _ & Hop).
  exists v'. split; [assumption|]. rewrite Hop.
  eapply node_ok_same_shape; eassumption.
Qed.

Lemma node_ok_updates_lt m this o r :
  node_ok m this o -> r ∈ chain_updates o -> addr_lt r this.
Proof.
  destruct o as [|a b|a|a b|a c|phi_ n theta_ J_]; simpl.
  - intros _ Hin. inversion Hin.
  - intros [[? ?] [? ?]] Hin.
    apply elem_of_cons in Hin as [->|Hin]; [assumption|].
    apply list_elem_of_singleton in Hin as ->. assumption.
  - intros [? ?] Hin. apply list_elem_of_singleton in Hin as ->. assumption.
  - intros [[? ?] [? ?]] Hin.
    apply elem_of_cons in Hin as [->|Hin]; [assumption|].
    apply list_elem_of_singleton in Hin as ->. assumption.
  - intros [? ?] Hin. apply list_elem_of_singleton in Hin as ->. assumption.
  - intros (p & ts & -> & H2 & H3 & H4 & H5 & H6 & H7) Hin.
    destruct n; [inversion Hin|]. simpl in Hin.
    apply list_elem_of_singleton in Hin as ->. assumption.
Qed.

End OrderFacts.

(** ** The reverse sweep *)

Section SweepFacts.

Lemma bump_adj_ok (m : memory) a d :
  live m a ->
  exists m', bump_adj m a d = Some m'
    /\ same_shape m m'
    /\ forall b, b <> a -> m' !! b = m !! b.
Proof.
  intros [v Hv]. rewrite (bump_adj_Some m a d v Hv).
  eexists. split; [reflexivity|]. split.
  - apply same_shape_set_adj. exact Hv.
  - intros b Hb. apply lookup_insert_ne. congruence.
Qed.

Lemma bump_adj_twice_ok (m : memory) a b d d' :
  live m a -> live m b ->
  exists m', (bump_adj m a d ≫= fun m1 => bump_adj m1 b d') = Some m'
    /\ same_shape m m'
    /\ forall c, c <> a -> c <> b -> m' !! c = m !! c.
Proof.
  intros Ha Hb.
  destruct (bump_adj_ok m a d Ha) as (m1 & H1 & Hs1 & Hf1).
  destruct (bump_adj_ok m1 b d' (same_shape_live _ _ _ Hs1 Hb))
    as (m2 & H2 & Hs2 & Hf2).
  exists m2. rewrite H1. simpl. split; [exact H2|].
  split; [exact (same_shape_trans _ _ _ Hs1 Hs2)|].
  intros c Hca Hcb. rewrite Hf2, Hf1 by assumption. reflexivity.
Qed.

Lemma live_adjoints (m : memory) ts :
  Forall (live m) ts ->
  exists adjs, Forall2 (fun t a => adjoint m t = Some a) ts adjs.
Proof.
  induction 1 as [|t ts [v Hv] _ [adjs IH]].
  - exists []. constructor.
  - exists (adj_ v :: adjs). constructor; [|exact IH].
    unfold adjoint. rewrite Hv. reflexivity.
Qed.

(** Under sound references the propagation of a node is defined, keeps
    every value and reference, and leaves alone every adjoint except
    those of the operands it updates. *)
Lemma chain_ok (m : memory) this v :
  m !! this = Some v -> node_ok m this (op v) ->
  exists m', chain m this = Some m'
    /\ same_shape m m'
    /\ forall a, a ∉ chain_updates (op v) -> m' !! a = m !! a.
Proof.
  intros Hthis Hok. unfold chain. rewrite Hthis. simpl.
  destruct (op v) as [|a b|a|a b|a c|phi_ n theta_ J_] eqn:Eop; simpl in *.
  - exists m. split; [reflexivity|]. split; [apply same_shape_refl | auto].
  - destruct Hok as [[_ Ha] [_ Hb]].
    destruct (bump_adj_twice_ok m a b (adj_ v) (adj_ v) Ha Hb)
      as (m' & H & Hs & Hf).
    exists m'. split; [exact H|]. split; [exact Hs|].
    intros c Hc. apply Hf; intros ->; apply Hc; repeat constructor.
  - destruct Hok as [_ Ha].
    destruct (bump_adj_ok m a (adj_ v) Ha) as (m' & H & Hs & Hf).
    exists m'. split; [exact H|]. split; [exact Hs|].
    intros c Hc. apply Hf. intros ->. apply Hc. repeat constructor.
  - destruct Hok as [[_ Ha] [_ Hb]].
    pose proof Ha as [va Hva]. pose proof Hb as [vb Hvb].
    rewrite Hva, Hvb. simpl.
    destruct (bump_adj_twice_ok m a b (Double.mul (adj_ v) (val_ vb))
                (Double.mul (adj_ v) (val_ va)) Ha Hb) as (m' & H & Hs & Hf).
    exists m'. split; [exact H|]. split; [exact Hs|].
    intros c Hc. apply Hf; intros ->; apply Hc; repeat constructor.
  - destruct Hok as [_ Ha].
    destruct (bump_adj_ok m a (Double.mul (adj_ v) c) Ha) as (m' & H & Hs & Hf).
    exists m'. split; [exact H|]. split; [exact Hs|].
    intros c0 Hc. apply Hf. intros ->. apply Hc. repeat constructor.
  - destruct Hok as (p & ts & -> & -> & <- & HJ & Hp & [pv Hpv] & Hts).
    assert (Hlive : Forall (live m) ts).
    { eapply Forall_impl; [exact Hts|]. simpl. intros t [_ H]. exact H. }
    destruct (live_adjoints m ts Hlive) as [adjs Hadjs].
    assert (Hnotin : p ∉ ts).
    { intros Hin. rewrite Forall_forall in Hts.
      destruct (Hts p Hin) as [Hlt _].
      exact (addr_lt_irrefl p (addr_lt_trans _ _ _ Hp Hlt)). }
    pose proof (lgp_chain_loop p pv m Hpv ts [] [] J_ adjs (adj_ pv)
                  eq_refl HJ Hnotin Hadjs) as H.
    simpl in H. rewrite set_adj_same, insert_id in H by exact Hpv.
    eexists. split; [exact H|]. split.
    + apply same_shape_set_adj. exact Hpv.
    + intros a Ha. destruct ts as [|t ts].
      * inversion Hadjs; subst. unfold accumulate. simpl.
        rewrite set_adj_same, insert_id by exact Hpv. reflexivity.
      * apply lookup_insert_ne. intros <-. apply Ha. simpl. repeat constructor.
Qed.

End SweepFacts.

Section SweepOrder.

Variable tape : list addr.

Lemma rev_seq_S lo k : rev (seq lo (S k)) = (lo + k)%nat :: rev (seq lo k).
Proof. rewrite seq_S, rev_app_distr. reflexivity. Qed.

(** The walk over the positions [lo + k - 1 .. lo] is defined on a
    well-formed tape; it visits exactly these positions, in this
    order; it changes adjoints only; and it leaves alone every node
    that is not older than all the nodes it visits. *)
Lemma sweep_down_ok lo k : forall m tr,
  tape_ok m tape -> (lo + k <= length tape)%nat ->
  exists m',
    sweep_down tape lo k (m, tr) = Some (m', tr ++ rev (seq lo k))
    /\ same_shape m m'
    /\ forall a,
         (forall i this, (lo <= i < lo + k)%nat -> tape !! i = Some this ->
            addr_le this a) ->
         m' !! a = m !! a.
Proof.
  induction k as [|k IH]; intros m tr Hok Hlen.
  - exists m. simpl. rewrite app_nil_r.
    split; [reflexivity|]. split; [apply same_shape_refl | auto].
  - rewrite rev_seq_S. simpl sweep_down.
    destruct (lookup_lt_is_Some_2 tape (lo + k)%nat ltac:(lia)) as [this Hthis].
    rewrite Hthis. simpl.
    pose proof Hok as [Hsorted Hall].
    rewrite Forall_forall in Hall.
    destruct (Hall this (list_elem_of_lookup_2 _ _ _ Hthis)) as (v & Hv & Hnode).
    destruct (chain_ok m this v Hv Hnode) as (m1 & Hchain & Hs1 & Hf1).
    rewrite Hchain. simpl.
    destruct (IH m1 (tr ++ [(lo + k)%nat])
                (tape_ok_same_shape _ _ _ Hs1 Hok) ltac:(lia))
      as (m' & Hrun & Hs' & Hf').
    exists m'. rewrite Hrun, <- app_assoc. simpl.
    split; [reflexivity|].
    split; [exact (same_shape_trans _ _ _ Hs1 Hs')|].
    intros a Ha. rewrite Hf'.
    + apply Hf1. intros Hin.
      pose proof (node_ok_updates_lt _ _ _ _ Hnode Hin) as Hlt.
      assert (Hle : addr_le this a) by (apply (Ha (lo + k)%nat); [lia | exact Hthis]).
      exact (addr_lt_irrefl a (addr_lt_le_trans _ _ _ Hlt Hle)).
    + intros i t Hi Ht. apply (Ha i); [lia | exact Ht].
Qed.

(** The walk over [lo .. lo + k1 + k2 - 1] is the walk over the upper
    [k2] positions followed by the walk over the lower [k1]. *)
Lemma sweep_down_split lo k1 k2 : forall st,
  sweep_down tape lo (k1 + k2) st
  = sweep_down tape (lo + k1) k2 st ≫= sweep_down tape lo k1.
Proof.
  induction k2 as [|k2 IH]; intros st.
  - rewrite Nat.add_0_r. reflexivity.
  - rewrite Nat.add_succ_r. simpl sweep_down.
    replace (lo + (k1 + k2))%nat with (lo + k1 + k2)%nat by lia.
    destruct (tape !! (lo + k1 + k2)%nat) as [this|]; [|reflexivity]. simpl.
    destruct (chain st.1 this) as [m1|]; [|reflexivity]. simpl.
    apply IH.
Qed.

Lemma strictly_decreasing_rev_seq lo k : strictly_decreasing (rev (seq lo k)).
Proof.
  unfold strictly_decreasing. induction k as [|k IH].
  - constructor.
  - rewrite rev_seq_S. constructor; [exact IH|].
    rewrite Forall_forall. intros j Hj.
    apply list_elem_of_In, in_rev, in_seq in Hj. lia.
Qed.

(** Once the sweep has visited every position above [j], the adjoint
    of the node at position [j] has its final value. *)
Lemma sweep_final_adjoint lo k j this m m' tr tr' :
  tape_ok m tape -> (lo + k <= length tape)%nat ->
  (lo <= j < lo + k)%nat -> tape !! j = Some this ->
  sweep_down tape lo k (m, tr) = Some (m', tr') ->
  exists m_mid,
    sweep_down tape (S j) (lo + k - S j) (m, tr)
      = Some (m_mid, tr ++ rev (seq (S j) (lo + k - S j)))
    /\ m_mid !! this = m' !! this.
Proof.
  intros Hok Hlen Hj Hthis Hrun.
  replace k with ((S j - lo) + (lo + k - S j))%nat in Hrun by lia.
  rewrite sweep_down_split in Hrun.
  replace (lo + (S j - lo))%nat with (S j) in Hrun by lia.
  destruct (sweep_down_ok (S j) (lo + k - S j) m tr Hok ltac:(lia))
    as (m_mid & Hmid & Hs & _).
  rewrite Hmid in Hrun. simpl in Hrun.
  destruct (sweep_down_ok lo (S j - lo) m_mid
              (tr ++ rev (seq (S j) (lo + k - S j)))
              (tape_ok_same_shape _ _ _ Hs Hok) ltac:(lia))
    as (m2 & Hlow & _ & Hf).
  rewrite Hlow in Hrun. injection Hrun as <- _.
  exists m_mid. split; [exact Hmid|].
  symmetry. apply Hf. intros i t Hi Ht.
  destruct Hok as [Hsorted _].
  apply (sorted_lookup_le tape i j); [assumption | lia | assumption..].
Qed.

(** The walk calls [chain] on the nodes at the positions
    [lo + k - 1 .. lo], in this order, and does nothing else to the
    memory. *)
Lemma sweep_down_chain lo k : forall m tr,
  (lo + k <= length tape)%nat ->
  sweep_down tape lo k (m, tr)
  = (m' ← foldM chain (rev (take k (drop lo tape))) m;
     Some (m', tr ++ rev (seq lo k))).
Proof.
  induction k as [|k IH]; intros m tr Hlen.
  - cbn. rewrite app_nil_r. reflexivity.
  - destruct (lookup_lt_is_Some_2 tape (lo + k)) as [this Hthis]; [lia|].
    assert (Hd : drop lo tape !! k = Some this)
      by (rewrite lookup_drop; exact Hthis).
    rewrite (take_S_r _ _ _ Hd), rev_app_distr. cbn [rev app].
    rewrite foldM_cons, rev_seq_S. cbn [sweep_down]. rewrite Hthis.
    simpl. destruct (chain m this) as [m1|]; [|reflexivity].
    simpl. rewrite IH by lia. rewrite <- app_assoc. reflexivity.
Qed.

End SweepOrder.

Section GradFacts.

Lemma set_zero_adjoints_ok (l : list addr) : forall m,
  Forall (live m) l ->
  exists m', foldM set_zero_adjoint l m = Some m' /\ same_shape m m'.
Proof.
  induction l as [|a l IH]; intros m Hall.
  - exists m. split; [reflexivity | apply same_shape_refl].
  - inversion Hall as [|? ? [v Hv] Hrest]; subst.
    assert (Hstep : set_zero_adjoint m a
                    = Some (<[a := set_adj v Double.zero]> m))
      by (unfold set_zero_adjoint; rewrite Hv; reflexivity).
    rewrite foldM_cons, Hstep. simpl.
    pose proof (same_shape_set_adj m a v Double.zero Hv) as Hs.
    destruct (IH (<[a := set_adj v Double.zero]> m)) as (m' & Hrun & Hs').
    { eapply Forall_impl; [exact Hrest|]. intros b. apply same_shape_live, Hs. }
    exists m'. split; [exact Hrun | exact (same_shape_trans _ _ _ Hs Hs')].
Qed.

Lemma tape_ok_live m tape : tape_ok m tape -> Forall (live m) tape.
Proof.
  intros [_ Hall]. eapply Forall_impl; [exact Hall|].
  intros a (v & Hv & _). exists v. exact Hv.
Qed.

Lemma prepare_ok e root :
  tape_ok (mem e) (var_stack_ e) -> live (mem e) root ->
  exists m0, prepare e root = Some m0 /\ same_shape (mem e) m0.
Proof.
  intros Hok Hroot. unfold prepare.
  destruct (set_zero_adjoints_ok (drop (nested_begin e) (var_stack_ e)) (mem e))
    as (m1 & Hz & Hs1).
  { apply Forall_drop, tape_ok_live, Hok. }
  rewrite Hz. simpl.
  destruct (same_shape_live _ _ _ Hs1 Hroot) as [v Hv].
  unfold seed. rewrite Hv. simpl. eexists. split; [reflexivity|].
  exact (same_shape_trans _ _ _ Hs1 (same_shape_set_adj m1 root v _ Hv)).
Qed.

(** C5, amended: on a well-formed tape the reverse sweep is defined and
    visits the tape positions in strictly decreasing order, from the
    last position down to the first position of the active nested
    segment, which is position 0 when no nested scope is open, calling
    the propagation operation of the node at each of these positions:
    the memory it leaves is the one obtained by applying [chain] to
    the nodes of the segment, last node first, and nothing besides;
    and for every visited position [j], once [chain] has been applied
    to the nodes above [j] the adjoint of the node at [j] already has
    the value it has at the end of the sweep. *)
Theorem reverse_sweep_order (e : engine) (root : addr) :
  tape_ok (mem e) (var_stack_ e) -> live (mem e) root ->
  exists m0 e',
    prepare e root = Some m0
    /\ grad_trace root e
       = Ok (rev (seq (nested_begin e)
                    (length (var_stack_ e) - nested_begin e))) e'
    /\ strictly_decreasing
         (rev (seq (nested_begin e) (length (var_stack_ e) - nested_begin e)))
    /\ (nested_ e = [] ->
        rev (seq (nested_begin e) (length (var_stack_ e) - nested_begin e))
        = rev (seq 0 (length (var_stack_ e))))
    /\ foldM chain (rev (drop (nested_begin e) (var_stack_ e))) m0
       = Some (mem e')
    /\ var_stack_ e' = var_stack_ e
    /\ forall j this,
         (nested_begin e <= j < length (var_stack_ e))%nat ->
         var_stack_ e !! j = Some this ->
         exists m_mid,
           foldM chain (rev (drop (S j) (var_stack_ e))) m0 = Some m_mid
           /\ adjoint m_mid this = adjoint (mem e') this.
Proof.
  intros Hok Hroot.
  destruct (prepare_ok e root Hok Hroot) as (m0 & Hprep & Hs0).
  pose proof (tape_ok_same_shape _ _ _ Hs0 Hok) as Hok0.
  set (lo := nested_begin e). set (n := length (var_stack_ e)).
  assert (Hrun : exists m',
    sweep_down (var_stack_ e) lo (n - lo) (m0, [])
    = Some (m', rev (seq lo (n - lo)))
    /\ foldM chain (rev (drop lo (var_stack_ e))) m0 = Some m').
  { destruct (decide (lo <= n)%nat) as [Hle|Hgt].
    - destruct (sweep_down_ok (var_stack_ e) lo (n - lo) m0 [] Hok0)
        as (m' & H & _); [unfold n in *; lia|]. exists m'.
      split; [exact H|].
      rewrite sweep_down_chain in H by (unfold n in *; lia).
      rewrite take_ge in H by (rewrite length_drop; unfold n; lia).
      destruct (foldM chain (rev (drop lo (var_stack_ e))) m0) as [m1|];
        [|discriminate].
      cbn in H. injection H as <-. reflexivity.
    - replace (n - lo)%nat with 0%nat by lia. exists m0.
      split; [reflexivity|].
      rewrite drop_ge by (unfold n in *; lia). reflexivity. }
  destruct Hrun as (m' & Hrun & Hfold).
  exists m0. eexists. split; [exact Hprep|]. split.
  { unfold grad_trace. fold lo. fold n. rewrite Hprep. simpl.
    rewrite Hrun. reflexivity. }
  split; [apply strictly_decreasing_rev_seq|].
  split.
  { intros Hnil. unfold lo, nested_begin. rewrite Hnil.
    rewrite Nat.sub_0_r. reflexivity. }
  split; [exact Hfold|]. split; [reflexivity|].
  intros j this Hj Hthis. simpl.
  destruct (sweep_final_adjoint (var_stack_ e) lo (n - lo) j this m0 m' [] _
              Hok0 ltac:(unfold n; lia) ltac:(unfold n; lia) Hthis Hrun)
    as (m_mid & Hmid & Heq).
  exists m_mid.
  rewrite sweep_down_chain in Hmid by (unfold n in *; lia).
  rewrite take_ge in Hmid by (rewrite length_drop; unfold n; lia).
  destruct (foldM chain (rev (drop (S j) (var_stack_ e))) m0) as [m1|];
    [|discriminate].
  cbn in Hmid. injection Hmid as <-.
  split; [reflexivity|]. unfold adjoint. rewrite Heq. reflexivity.
Qed.

End GradFacts.

Section GradExamples.

Import NestedScenario.

Lemma four_nodes_tape_ok :
  tape_ok (mem four_nodes_engine) (var_stack_ four_nodes_engine).
Proof.
  split.
  - change (var_stack_ four_nodes_engine)
      with [(0%nat, 0%N); (0%nat, 24%N); (0%nat, 48%N); (0%nat, 88%N)].
    repeat constructor.
  - change (var_stack_ four_nodes_engine)
      with [(0%nat, 0%N); (0%nat, 24%N); (0%nat, 48%N); (0%nat, 88%N)].
    repeat (apply Forall_cons_2;
      [eexists; split; [vm_compute; reflexivity|]; simpl;
       repeat split; try (eexists; vm_compute; reflexivity)|]).
    constructor.
Qed.

Lemma reverse_sweep_order_witness :
  exists m0 e',
    grad_trace z_addr four_nodes_engine = Ok [3; 2; 1; 0]%nat e'
    /\ strictly_decreasing [3; 2; 1; 0]%nat
    /\ foldM chain (rev (var_stack_ four_nodes_engine)) m0 = Some (mem e').
Proof.
  destruct (reverse_sweep_order four_nodes_engine z_addr four_nodes_tape_ok)
    as (m0 & e' & _ & Hrun & Hdec & _ & Hfold & _).
  - eexists. vm_compute. reflexivity.
  - exists m0, e'. split; [exact Hrun|]. split; [exact Hdec | exact Hfold].
Defined.

(** C5 as stated fails inside a nested scope.  With the product [xy]
    at position 2 created before [start_nested()] and [w = xy + xy] at
    position 3 created after it, the sweep from [w] visits position 3
    and stops: the positions 2, 1 and 0 are not visited, and the
    propagation operation of [xy] has not been called (calling it on
    the memory the sweep leaves changes the adjoint of [x]). *)
Lemma nested_sweep_stops_above_0 :
  exists wi e',
    NestedProductScenario.sweep_above_product empty_engine
      = Ok ([3]%nat, wi) e'
    /\ length (var_stack_ e') = 4%nat
    /\ var_stack_ e' !! 2%nat = Some NestedProductScenario.xy_addr
    /\ [3]%nat <> rev (seq 0 (length (var_stack_ e')))
    /\ ~ In 0%nat [3]%nat
    /\ exists m_next,
         chain (mem e') NestedProductScenario.xy_addr = Some m_next
         /\ adjoint m_next NestedProductScenario.x_addr
            <> adjoint (mem e') NestedProductScenario.x_addr.
Proof.
  eexists. eexists. split; [vm_compute; reflexivity|].
  split; [reflexivity|]. split; [reflexivity|]. split; [discriminate|].
  split; [simpl; intros [H|[]]; discriminate H|].
  eexists. split; [vm_compute; reflexivity|]. vm_compute. discriminate.
Qed.

End GradExamples.

(** ** The solver with a [var] global parameter *)

Section VarSolverFacts.

Import Laplace.
Local Open Scope engine_scope.

Lemma alloc_eq size e :
  alloc size e =
    Ok (fst (Arena.allocate (memalloc_ e) size))
       {| memalloc_ := snd (Arena.allocate (memalloc_ e) size);
          mem := mem e; var_stack_ := var_stack_ e; nested_ := nested_ e |}.
Proof.
  unfold alloc. destruct (Arena.allocate (memalloc_ e) size). reflexivity.
Qed.



End VarSolverFacts.

Section VarSolver.

Import Laplace.
Local Open Scope engine_scope.

Context {ops : lgp_operators}.



End VarSolver.

(** ** The arena hands out addresses in increasing order *)

Section ArenaFacts.

Import Arena.

Lemma addr_le_refl (a : addr) : addr_le a a.
Proof. left. reflexivity. Qed.

Lemma addr_le_spec (a b : addr) :
  addr_le a b <->
  (fst a < fst b)%nat \/ (fst a = fst b /\ (snd a <= snd b)%N).
Proof.
  unfold addr_le. rewrite addr_lt_spec. destruct a as [c o], b as [c' o'].
  simpl. split.
  - intros [H|H]; [injection H as -> ->|]; lia.
  - intros [H|[-> H]]; [right; lia|].
    destruct (decide (o = o')) as [->|]; [left; reflexivity | right; lia].
Qed.

(** On an arena whose cursor is inside its chunks, the address returned
    by [allocate] is at or after the old watermark and before the new
    one (strictly so for a request of at least one byte); no chunk is
    dropped. *)
Lemma allocate_spec (al : stack_alloc) (size : N) :
  (cur_chunk al < length (chunks al))%nat ->
  addr_le (watermark al) (fst (allocate al size))
  /\ addr_le (fst (allocate al size)) (watermark (snd (allocate al size)))
  /\ ((0 < size)%N ->
      addr_lt (fst (allocate al size)) (watermark (snd (allocate al size))))
  /\ (cur_chunk (snd (allocate al size))
      < length (chunks (snd (allocate al size))))%nat
  /\ (length (chunks al) <= length (chunks (snd (allocate al size))))%nat.
Proof.
  intros Hcur. unfold allocate.
  destruct (match chunks al !! cur_chunk al with
            | Some cap => (next_loc al + size <=? cap)%N
            | None => false
            end).
  - simpl. rewrite addr_le_spec, addr_le_spec, addr_lt_spec.
    unfold watermark. simpl. repeat split; lia.
  - set (i := (S (cur_chunk al)
               + first_fit (drop (S (cur_chunk al)) (chunks al)) size)%nat).
    assert (Hi : (cur_chunk al < i)%nat) by (unfold i; lia).
    destruct (i <? length (chunks al))%nat eqn:Elt.
    + apply Nat.ltb_lt in Elt. simpl.
      rewrite addr_le_spec, addr_le_spec, addr_lt_spec.
      unfold watermark. simpl. repeat split; lia.
    + simpl. rewrite addr_le_spec, addr_le_spec, addr_lt_spec.
      unfold watermark. simpl. rewrite length_app. simpl.
      repeat split; lia.
Qed.

End ArenaFacts.

Section InvariantFacts.

Import History.

Lemma checkpoints_ok_chunks n n' tape cs :
  (n <= n')%nat -> checkpoints_ok n tape cs -> checkpoints_ok n' tape cs.
Proof.
  intros Hn. revert tape. induction cs as [|c rest IH]; intros tape; simpl.
  - auto.
  - intros (H1 & H2 & H3 & H4). repeat split; [lia | assumption.. | auto].
Qed.

Lemma checkpoints_ok_app n tape added cs :
  checkpoints_ok n tape cs -> checkpoints_ok n (tape ++ added) cs.
Proof.
  destruct cs as [|c rest]; simpl; [auto|].
  intros (H1 & H2 & H3 & H4).
  rewrite take_app_le by assumption.
  rewrite length_app. repeat split; [assumption | lia | assumption..].
Qed.

Lemma empty_engine_inv : engine_inv empty_engine.
Proof.
  constructor; simpl.
  - lia.
  - intros a v H. rewrite lookup_empty in H. discriminate.
  - intros a v H. rewrite lookup_empty in H. discriminate.
  - constructor.
  - constructor.
  - exact I.
Qed.

Lemma extends_refl e : extends e e.
Proof.
  constructor; [apply addr_le_refl | auto | auto |].
  exists []. rewrite app_nil_r. reflexivity.
Qed.

Lemma extends_trans e1 e2 e3 : extends e1 e2 -> extends e2 e3 -> extends e1 e3.
Proof.
  intros [W1 M1 N1 [a1 T1]] [W2 M2 N2 [a2 T2]]. constructor.
  - exact (addr_le_trans _ _ _ W1 W2).
  - intros a Ha. rewrite M2, M1; [reflexivity | assumption |].
    exact (addr_lt_le_trans _ _ _ Ha W1).
  - congruence.
  - exists (a1 ++ a2). rewrite T2, T1, app_assoc. reflexivity.
Qed.

Lemma extends_preserved e e' :
  engine_inv e -> extends e e' -> node_preserved e e'.
Proof.
  intros Hinv Hext this v Hv. right. exists v.
  rewrite (ext_mem _ _ Hext) by exact (inv_mem _ Hinv _ _ Hv). auto.
Qed.

End InvariantFacts.

Section StepFacts.

Import History.
Local Open Scope engine_scope.

(** Allocation moves the watermark forward and nothing else. *)
Lemma alloc_inv size e :
  engine_inv e ->
  exists a e',
    alloc size e = Ok a e'
    /\ engine_inv e' /\ extends e e'
    /\ mem e' = mem e /\ var_stack_ e' = var_stack_ e
    /\ addr_le (watermark e) a
    /\ ((0 < size)%N -> addr_lt a (watermark e')).
Proof.
  intros Hinv. rewrite alloc_eq. eexists _, _. split; [reflexivity|].
  destruct (allocate_spec (memalloc_ e) size (inv_arena _ Hinv))
    as (H1 & H2 & H3 & H4 & H5).
  assert (Hw : addr_le (watermark e)
                 (Arena.watermark (Arena.allocate (memalloc_ e) size).2))
    by exact (addr_le_trans _ _ _ H1 H2).
  split; [|split; [|auto]].
  - constructor; simpl.
    + exact H4.
    + intros a v Hv. unfold watermark. simpl.
      exact (addr_lt_le_trans _ _ _ (inv_mem _ Hinv _ _ Hv) Hw).
    + exact (inv_refs _ Hinv).
    + exact (inv_sorted _ Hinv).
    + eapply Forall_impl; [exact (inv_tape _ Hinv)|]. simpl.
      intros a Ha. exact (addr_lt_le_trans _ _ _ Ha Hw).
    + exact (checkpoints_ok_chunks _ _ _ _ H5 (inv_nested _ Hinv)).
  - constructor; simpl; [exact Hw | auto | auto |].
    exists []. rewrite app_nil_r. reflexivity.
Qed.

(** Storing a node with sound references at an address below the
    watermark. *)
Lemma store_inv a v e :
  engine_inv e -> addr_lt a (watermark e) -> refs_ok a (op v) ->
  engine_inv {| memalloc_ := memalloc_ e; mem := <[a := v]> (mem e);
                var_stack_ := var_stack_ e; nested_ := nested_ e |}.
Proof.
  intros Hinv Ha Hrefs. constructor; simpl.
  - exact (inv_arena _ Hinv).
  - intros b w Hb. destruct (decide (a = b)) as [<-|Hne]; [exact Ha|].
    rewrite lookup_insert_ne in Hb by assumption.
    exact (inv_mem _ Hinv _ _ Hb).
  - intros b w Hb. destruct (decide (a = b)) as [<-|Hne].
    + rewrite lookup_insert_eq in Hb. injection Hb as <-. exact Hrefs.
    + rewrite lookup_insert_ne in Hb by assumption.
      exact (inv_refs _ Hinv _ _ Hb).
  - exact (inv_sorted _ Hinv).
  - exact (inv_tape _ Hinv).
  - exact (inv_nested _ Hinv).
Qed.

(** Putting on the tape a node that is younger than every node on it. *)
Lemma push_inv a e :
  engine_inv e -> addr_lt a (watermark e) ->
  Forall (fun b => addr_lt b a) (var_stack_ e) ->
  engine_inv {| memalloc_ := memalloc_ e; mem := mem e;
                var_stack_ := var_stack_ e ++ [a]; nested_ := nested_ e |}.
Proof.
  intros Hinv Ha Hall. constructor; simpl.
  - exact (inv_arena _ Hinv).
  - exact (inv_mem _ Hinv).
  - exact (inv_refs _ Hinv).
  - apply StronglySorted_app_2.
    + intros x y Hx Hy. apply list_elem_of_singleton in Hy as ->.
      rewrite Forall_forall in Hall. exact (Hall x Hx).
    + exact (inv_sorted _ Hinv).
    + repeat constructor.
  - apply Forall_app. split; [exact (inv_tape _ Hinv)|].
    repeat constructor. exact Ha.
  - apply checkpoints_ok_app. exact (inv_nested _ Hinv).
Qed.

End StepFacts.

Section ConstructorFacts.

Import History.
Local Open Scope engine_scope.

Lemma refs_ok_below (o : operation) (w a : addr) :
  (forall r, r ∈ chain_updates o -> addr_lt r w) ->
  match o with op_lgp_newton_solver _ _ _ _ => False | _ => True end ->
  addr_le w a -> refs_ok a o.
Proof.
  intros Hup Hkind Hle. split.
  - intros r Hr. exact (addr_lt_le_trans _ _ _ (Hup r Hr) Hle).
  - destruct o; [exact I..|destruct Hkind].
Qed.

(** Construction of an elementary node whose operands are below the
    watermark. *)
Lemma new_vari_inv size x o stacked e :
  engine_inv e -> (0 < size)%N ->
  (forall r, r ∈ chain_updates o -> addr_lt r (watermark e)) ->
  match o with op_lgp_newton_solver _ _ _ _ => False | _ => True end ->
  exists a e',
    new_vari size x o stacked e = Ok a e'
    /\ engine_inv e' /\ extends e e'
    /\ addr_le (watermark e) a /\ addr_lt a (watermark e')
    /\ var_stack_ e' = (if stacked then var_stack_ e ++ [a] else var_stack_ e).
Proof.
  intros Hinv Hsize Hup Hkind. rewrite new_vari_eq.
  destruct (alloc_inv size e Hinv)
    as (a & e1 & Halloc & Hinv1 & Hext1 & Hm1 & Ht1 & Hle & Hlt).
  rewrite alloc_eq in Halloc. injection Halloc as Ha He1.
  rewrite Ha. specialize (Hlt Hsize).
  set (v := {| val_ := x; adj_ := Double.zero; op := o |}).
  assert (Hinv2 : engine_inv
            {| memalloc_ := memalloc_ e1; mem := <[a := v]> (mem e1);
               var_stack_ := var_stack_ e1; nested_ := nested_ e1 |}).
  { apply store_inv; [exact Hinv1 | exact Hlt |].
    exact (refs_ok_below o _ a Hup Hkind Hle). }
  assert (Hmem : forall b, addr_lt b (watermark e) ->
                           <[a := v]> (mem e) !! b = mem e !! b).
  { intros b Hb. apply lookup_insert_ne. intros <-.
    exact (addr_lt_irrefl a (addr_lt_le_trans _ _ _ Hb Hle)). }
  rewrite <- He1 in Hinv2, Hlt. simpl in Hinv2.
  eexists _, _. split; [reflexivity|].
  destruct stacked.
  - split; [|split; [|auto]].
    + apply (push_inv a _ Hinv2); [exact Hlt|]. simpl.
      eapply Forall_impl; [exact (inv_tape _ Hinv)|]. simpl.
      intros b Hb. exact (addr_lt_le_trans _ _ _ Hb Hle).
    + constructor; simpl; [|exact Hmem | reflexivity | eauto].
      exact (addr_le_trans _ _ _ Hle (or_intror Hlt)).
  - split; [exact Hinv2|]. split; [|auto].
    constructor; simpl; [|exact Hmem | reflexivity |].
    + exact (addr_le_trans _ _ _ Hle (or_intror Hlt)).
    + exists []. rewrite app_nil_r. reflexivity.
Qed.

Lemma value_of_Ok h v e e' :
  value_of h e = Ok v e' ->
  e' = e /\ match h with Const _ => True | Var a => live (mem e) a end.
Proof.
  destruct h as [c|a]; simpl.
  - unfold ret. intros H. injection H as _ <-. auto.
  - unfold bind, load, ret. destruct (mem e !! a) as [w|] eqn:E; [|discriminate].
    intros H. injection H as _ <-. split; [reflexivity|]. exists w. exact E.
Qed.

Lemma live_below e a : engine_inv e -> live (mem e) a -> addr_lt a (watermark e).
Proof. intros Hinv [v Hv]. exact (inv_mem _ Hinv _ _ Hv). Qed.

Lemma makeLeaf_inv x e h e' :
  engine_inv e -> makeLeaf x e = Ok h e' -> engine_inv e' /\ extends e e'.
Proof.
  intros Hinv. unfold makeLeaf, bind.
  destruct (new_vari_inv sizeof_vari x op_leaf true e Hinv)
    as (a & e1 & Hrun & Hinv1 & Hext1 & _); [reflexivity | | exact I |].
  { intros r Hr. inversion Hr. }
  rewrite Hrun. unfold ret. intros H. injection H as _ <-. auto.
Qed.

End ConstructorFacts.

Section ArithmeticFacts.

Import History.
Local Open Scope engine_scope.

(** A binary operation on handles whose node, when one is built, has
    as operands the tape-participating arguments. *)
Lemma binary_inv (f : handle -> handle -> M handle) :
  (forall x y e h e',
     f x y e = Ok h e' ->
     (exists c, h = Const c /\ e' = e)
     \/ exists size s o n,
          new_vari size s o true e = Ok n e' /\ (0 < size)%N
          /\ match o with op_lgp_newton_solver _ _ _ _ => False | _ => True end
          /\ forall r, r ∈ chain_updates o -> live (mem e) r) ->
  forall x y e h e',
    engine_inv e -> f x y e = Ok h e' -> engine_inv e' /\ extends e e'.
Proof.
  intros Hf x y e h e' Hinv Hrun.
  destruct (Hf x y e h e' Hrun)
    as [(c & _ & ->)|(size & s & o & n & Hnew & Hsize & Hkind & Hlive)].
  - split; [exact Hinv | apply extends_refl].
  - destruct (new_vari_inv size s o true e Hinv Hsize) as
      (a & e1 & Hrun1 & Hinv1 & Hext1 & _);
      [intros r Hr; exact (live_below e r Hinv (Hlive r Hr)) | exact Hkind |].
    rewrite Hrun1 in Hnew. injection Hnew as _ <-. auto.
Qed.

Ltac node_case H :=
  unfold bind in H;
  match type of H with
  | context [new_vari ?size ?s ?o true ?e] =>
      right; exists size, s, o;
      destruct (new_vari size s o true e) as [n e2| | |] eqn:Enew;
        try discriminate H;
      exists n; unfold ret in H; injection H as _ <-;
      split; [reflexivity|]; split; [reflexivity|]; split; [exact I|]
  end.

Lemma add_h_shape x y e h e' :
  add_h x y e = Ok h e' ->
  (exists c, h = Const c /\ e' = e)
  \/ exists size s o n,
       new_vari size s o true e = Ok n e' /\ (0 < size)%N
       /\ match o with op_lgp_newton_solver _ _ _ _ => False | _ => True end
       /\ forall r, r ∈ chain_updates o -> live (mem e) r.
Proof.
  intros H. unfold add_h in H. unfold bind at 1 in H.
  destruct (value_of x e) as [vx e1| | |] eqn:Ex; try discriminate.
  apply value_of_Ok in Ex as [-> Hx]. unfold bind at 1 in H.
  destruct (value_of y e) as [vy e1| | |] eqn:Ey; try discriminate.
  apply value_of_Ok in Ey as [-> Hy].
  destruct x as [cx|a], y as [cy|b]; simpl in H.
  - left. unfold ret in H. injection H as <- <-. eauto.
  - node_case H. intros r Hr. simpl in Hr.
    apply list_elem_of_singleton in Hr as ->. exact Hy.
  - node_case H. intros r Hr. simpl in Hr.
    apply list_elem_of_singleton in Hr as ->. exact Hx.
  - node_case H. intros r Hr. simpl in Hr.
    apply elem_of_cons in Hr as [->|Hr]; [exact Hx|].
    apply list_elem_of_singleton in Hr as ->. exact Hy.
Qed.

Lemma multiply_h_shape x y e h e' :
  multiply_h x y e = Ok h e' ->
  (exists c, h = Const c /\ e' = e)
  \/ exists size s o n,
       new_vari size s o true e = Ok n e' /\ (0 < size)%N
       /\ match o with op_lgp_newton_solver _ _ _ _ => False | _ => True end
       /\ forall r, r ∈ chain_updates o -> live (mem e) r.
Proof.
  intros H. unfold multiply_h in H. unfold bind at 1 in H.
  destruct (value_of x e) as [vx e1| | |] eqn:Ex; try discriminate.
  apply value_of_Ok in Ex as [-> Hx]. unfold bind at 1 in H.
  destruct (value_of y e) as [vy e1| | |] eqn:Ey; try discriminate.
  apply value_of_Ok in Ey as [-> Hy].
  destruct x as [cx|a], y as [cy|b]; simpl in H.
  - left. unfold ret in H. injection H as <- <-. eauto.
  - node_case H. intros r Hr. simpl in Hr.
    apply list_elem_of_singleton in Hr as ->. exact Hy.
  - node_case H. intros r Hr. simpl in Hr.
    apply list_elem_of_singleton in Hr as ->. exact Hx.
  - node_case H. intros r Hr. simpl in Hr.
    apply elem_of_cons in Hr as [->|Hr]; [exact Hx|].
    apply list_elem_of_singleton in Hr as ->. exact Hy.
Qed.

Lemma add_h_inv x y e h e' :
  engine_inv e -> add_h x y e = Ok h e' -> engine_inv e' /\ extends e e'.
Proof. apply (binary_inv add_h add_h_shape). Qed.

Lemma multiply_h_inv x y e h e' :
  engine_inv e -> multiply_h x y e = Ok h e' -> engine_inv e' /\ extends e e'.
Proof. apply (binary_inv multiply_h multiply_h_shape). Qed.

End ArithmeticFacts.

Section NestingFacts.

Import History.
Local Open Scope engine_scope.

Lemma node_preserved_same_mem e e' : mem e' = mem e -> node_preserved e e'.
Proof. intros H this v Hv. right. exists v. rewrite H. auto. Qed.

Lemma start_nested_inv e e' :
  engine_inv e -> start_nested e = Ok tt e' ->
  engine_inv e' /\ node_preserved e e'.
Proof.
  intros Hinv H. unfold start_nested in H. injection H as <-.
  split; [|apply node_preserved_same_mem; reflexivity].
  constructor; simpl.
  - exact (inv_arena _ Hinv).
  - exact (inv_mem _ Hinv).
  - exact (inv_refs _ Hinv).
  - exact (inv_sorted _ Hinv).
  - exact (inv_tape _ Hinv).
  - rewrite firstn_all. repeat split.
    + exact (inv_arena _ Hinv).
    + lia.
    + exact (inv_tape _ Hinv).
    + exact (inv_nested _ Hinv).
Qed.

Lemma release_lookup (token : addr) (m : memory) (a : addr) (v : vari) :
  release token m !! a = Some v <-> m !! a = Some v /\ addr_lt a token.
Proof. unfold release. apply map_lookup_filter_Some. Qed.

Lemma sorted_take (tape : list addr) n :
  StronglySorted addr_lt tape -> StronglySorted addr_lt (take n tape).
Proof.
  intros H. rewrite <- (take_drop n tape) in H.
  exact (StronglySorted_app_1_l _ _ _ H).
Qed.

Lemma recover_memory_nested_inv e e' :
  engine_inv e -> recover_memory_nested e = Ok tt e' ->
  engine_inv e' /\ node_preserved e e'.
Proof.
  intros Hinv H. unfold recover_memory_nested in H.
  pose proof (inv_nested _ Hinv) as Hn.
  destruct (nested_ e) as [|c rest]; [discriminate|].
  injection H as <-. simpl in Hn. destruct Hn as (Hc & Hlen & Hall & Hrest).
  split.
  - constructor; simpl.
    + exact Hc.
    + intros a v Hv. apply release_lookup in Hv as [_ Hlt].
      unfold watermark. simpl. rewrite watermark_rewind. exact Hlt.
    + intros a v Hv. apply release_lookup in Hv as [Hv _].
      exact (inv_refs _ Hinv _ _ Hv).
    + apply sorted_take. exact (inv_sorted _ Hinv).
    + unfold watermark. simpl. rewrite watermark_rewind. exact Hall.
    + exact Hrest.
  - intros this v Hv. simpl.
    destruct (release (cp_watermark c) (mem e) !! this) as [v'|] eqn:E;
      [|left; reflexivity].
    apply release_lookup in E as [E _]. right. exists v'.
    split; [reflexivity|]. split; congruence.
Qed.

Lemma recover_memory_inv e e' :
  engine_inv e -> recover_memory e = Ok tt e' ->
  engine_inv e' /\ node_preserved e e'.
Proof.
  intros Hinv H. unfold recover_memory in H. injection H as <-. split.
  - constructor; simpl.
    + pose proof (inv_arena _ Hinv). lia.
    + intros a v Hv. rewrite lookup_empty in Hv. discriminate.
    + intros a v Hv. rewrite lookup_empty in Hv. discriminate.
    + constructor.
    + constructor.
    + exact I.
  - intros this v Hv. left. apply lookup_empty.
Qed.

Lemma same_shape_sym m m' : same_shape m m' -> same_shape m' m.
Proof. intros H a. symmetry. apply H. Qed.

Lemma bump_adj_shape (m : memory) (a : addr) (d : double) (m' : memory) :
  bump_adj m a d = Some m' -> same_shape m m'.
Proof.
  unfold bump_adj. destruct (m !! a) as [v|] eqn:E; [|discriminate].
  simpl. intros H. injection H as <-. apply same_shape_set_adj. exact E.
Qed.

Lemma foldM_shape {B} (f : memory -> B -> option memory) :
  (forall m b m', f m b = Some m' -> same_shape m m') ->
  forall l m m', foldM f l m = Some m' -> same_shape m m'.
Proof.
  intros Hf l. induction l as [|b l IH]; intros m m' H.
  - injection H as <-. apply same_shape_refl.
  - rewrite foldM_cons in H. destruct (f m b) as [m1|] eqn:E; [|discriminate].
    simpl in H. exact (same_shape_trans _ _ _ (Hf _ _ _ E) (IH _ _ H)).
Qed.

Lemma lgp_chain_step_shape (phi_ theta_ : list (option addr))
    (J_ : list double) (m : memory) (i : nat) (m' : memory) :
  lgp_chain_step phi_ theta_ J_ m i = Some m' -> same_shape m m'.
Proof.
  unfold lgp_chain_step.
  destruct (phi_ !! 0%nat ≫= id) as [p|]; [|discriminate]. simpl.
  destruct (theta_ !! i ≫= id) as [t|]; [|discriminate]. simpl.
  destruct (J_ !! i) as [j|]; [|discriminate]. simpl.
  destruct (m !! t) as [tv|]; [|discriminate]. simpl.
  apply bump_adj_shape.
Qed.

(** Whenever it is defined, propagation changes adjoints only. *)
Lemma chain_shape (m : memory) (this : addr) (m' : memory) :
  chain m this = Some m' -> same_shape m m'.
Proof.
  unfold chain. destruct (m !! this) as [v|]; [|discriminate]. simpl.
  destruct (op v) as [|a b|a|a b|a c|phi_ n theta_ J_].
  - intros H. injection H as <-. apply same_shape_refl.
  - destruct (bump_adj m a (adj_ v)) as [m1|] eqn:E1; [|discriminate]. simpl.
    intros H2. exact (same_shape_trans _ _ _ (bump_adj_shape _ _ _ _ E1)
                        (bump_adj_shape _ _ _ _ H2)).
  - apply bump_adj_shape.
  - destruct (m !! a) as [va|]; [|discriminate]. simpl.
    destruct (m !! b) as [vb|]; [|discriminate]. simpl.
    destruct (bump_adj m a _) as [m1|] eqn:E1; [|discriminate]. simpl.
    intros H2. exact (same_shape_trans _ _ _ (bump_adj_shape _ _ _ _ E1)
                        (bump_adj_shape _ _ _ _ H2)).
  - apply bump_adj_shape.
  - apply foldM_shape. intros m0 i m1. apply lgp_chain_step_shape.
Qed.

Lemma sweep_down_shape tape lo k : forall m tr m' tr',
  sweep_down tape lo k (m, tr) = Some (m', tr') -> same_shape m m'.
Proof.
  induction k as [|k IH]; intros m tr m' tr' H.
  - injection H as <- _. apply same_shape_refl.
  - simpl in H. destruct (tape !! (lo + k)%nat) as [this|]; [|discriminate].
    simpl in H. destruct (chain m this) as [m1|] eqn:E; [|discriminate].
    simpl in H.
    exact (same_shape_trans _ _ _ (chain_shape _ _ _ E) (IH _ _ _ _ H)).
Qed.

Lemma prepare_shape e root m0 :
  prepare e root = Some m0 -> same_shape (mem e) m0.
Proof.
  unfold prepare.
  destruct (foldM set_zero_adjoint _ (mem e)) as [m1|] eqn:E; [|discriminate].
  simpl. intros H.
  apply (same_shape_trans _ m1).
  - revert E. apply foldM_shape. intros m a m'. unfold set_zero_adjoint.
    destruct (m !! a) as [v|] eqn:Ev; [|discriminate]. simpl.
    intros H'. injection H' as <-. apply same_shape_set_adj. exact Ev.
  - unfold seed in H. destruct (m1 !! root) as [v|] eqn:Ev; [|discriminate].
    simpl in H. injection H as <-. apply same_shape_set_adj. exact Ev.
Qed.

Lemma grad_trace_inv root e tr e' :
  engine_inv e -> grad_trace root e = Ok tr e' ->
  engine_inv e' /\ node_preserved e e'.
Proof.
  intros Hinv H. unfold grad_trace in H.
  destruct (prepare e root) as [m0|] eqn:Ep; [|discriminate]. simpl in H.
  destruct (sweep_down _ _ _ (m0, [])) as [[m' tr0]|] eqn:Es; [|discriminate].
  injection H as _ <-.
  assert (Hs : same_shape (mem e) m')
    by exact (same_shape_trans _ _ _ (prepare_shape _ _ _ Ep)
                (sweep_down_shape _ _ _ _ _ _ _ Es)).
  split.
  - constructor; simpl.
    + exact (inv_arena _ Hinv).
    + intros a v Hv.
      destruct (same_shape_lookup _ _ a v (same_shape_sym _ _ Hs) Hv)
        as (v0 & Hv0 & _). exact (inv_mem _ Hinv _ _ Hv0).
    + intros a v Hv.
      destruct (same_shape_lookup _ _ a v (same_shape_sym _ _ Hs) Hv)
        as (v0 & Hv0 & _ & Hop). rewrite <- Hop.
      exact (inv_refs _ Hinv _ _ Hv0).
    + exact (inv_sorted _ Hinv).
    + exact (inv_tape _ Hinv).
    + exact (inv_nested _ Hinv).
  - intros this v Hv. right. simpl.
    destruct (same_shape_lookup _ _ this v Hs Hv) as (v' & Hv' & Hval & Hop).
    exists v'. auto.
Qed.

End NestingFacts.

Section LgpConstructorFacts.

Import History Laplace.
Local Open Scope engine_scope.

Lemma extends_push e a :
  extends e {| memalloc_ := memalloc_ e; mem := mem e;
               var_stack_ := var_stack_ e ++ [a]; nested_ := nested_ e |}.
Proof. constructor; simpl; [apply addr_le_refl | auto | auto | eauto]. Qed.

Lemma extends_store e0 e a v :
  addr_le (watermark e0) a -> extends e0 e ->
  extends e0 {| memalloc_ := memalloc_ e; mem := <[a := v]> (mem e);
                var_stack_ := var_stack_ e; nested_ := nested_ e |}.
Proof.
  intros Hle [W Hm N T]. constructor; simpl; [exact W | | exact N | exact T].
  intros b Hb. rewrite lookup_insert_ne; [exact (Hm b Hb)|].
  intros <-. exact (addr_lt_irrefl a (addr_lt_le_trans _ _ _ Hb Hle)).
Qed.

(** The loop of the constructor keeps the invariant; the solution nodes
    it creates lie at or after the watermark it started from. *)
Lemma fill_theta_inv (theta_dbl : VectorXd) :
  forall (i : nat) (theta_ : list (option addr)) (e : engine),
  engine_inv e ->
  (i + length theta_dbl <= length theta_)%nat ->
  exists ts e',
    fill_theta theta_dbl i theta_ e
    = Ok (take i theta_ ++ (Some <$> ts) ++ drop (i + length theta_dbl) theta_)
         e'
    /\ length ts = length theta_dbl
    /\ var_stack_ e' = var_stack_ e
    /\ engine_inv e' /\ extends e e'
    /\ Forall (addr_le (watermark e)) ts.
Proof.
  induction theta_dbl as [|x rest IH]; intros i theta_ e Hinv Hlen.
  - exists [], e. simpl. rewrite Nat.add_0_r, take_drop.
    split; [reflexivity|]. split; [reflexivity|]. split; [reflexivity|].
    split; [assumption|]. split; [apply extends_refl | constructor].
  - simpl fill_theta. unfold bind at 1.
    destruct (new_vari_inv sizeof_vari x op_leaf false e Hinv)
      as (a & e1 & Hrun & Hinv1 & Hext1 & Hle & Hlt & Hst1);
      [reflexivity | intros r Hr; inversion Hr | exact I |].
    rewrite Hrun. simpl in Hlen.
    destruct (IH (S i) (<[i := Some a]> theta_) e1 Hinv1)
      as (ts & e' & Hfill & Hts & Hst & Hinv' & Hext' & Hall).
    { rewrite length_insert. lia. }
    exists (a :: ts), e'. rewrite Hfill. split.
    + f_equal.
      rewrite (take_S_r _ _ (Some a)) by (apply list_lookup_insert_eq; lia).
      rewrite take_insert_ge by lia.
      rewrite drop_insert_lt by lia.
      rewrite <- app_assoc. simpl.
      replace (S (i + length rest)) with (i + S (length rest))%nat by lia.
      reflexivity.
    + simpl. rewrite Hts, Hst, Hst1.
      split; [reflexivity|]. split; [reflexivity|]. split; [assumption|].
      split; [exact (extends_trans _ _ _ Hext1 Hext')|].
      constructor; [exact Hle|].
      eapply Forall_impl; [exact Hall|]. simpl. intros t Ht.
      exact (addr_le_trans _ _ _ (ext_watermark _ _ Hext1) Ht).
Qed.

Context {ops : lgp_operators}.

Lemma new_lgp_newton_solver_vari_inv phi system theta_dbl e this e' :
  engine_inv e -> live (mem e) phi ->
  new_lgp_newton_solver_vari phi system theta_dbl e = Ok this e' ->
  engine_inv e' /\ extends e e'.
Proof.
  intros Hinv Hphi H. unfold new_lgp_newton_solver_vari in H.
  destruct (alloc_inv sizeof_lgp_newton_solver_vari e Hinv)
    as (this0 & e1 & Ha1 & Hinv1 & Hext1 & Hm1 & Ht1 & Hle1 & Hlt1).
  specialize (Hlt1 eq_refl).
  unfold bind at 1 in H. rewrite Ha1 in H.
  unfold bind at 1 in H.
  destruct theta_dbl as [|x0 rest]; [discriminate|].
  simpl lift_option in H. cbv beta iota in H.
  unfold bind at 1 in H. unfold push_var_stack at 1 in H. cbv beta iota in H.
  match type of H with context [bind (alloc _) _ ?E] => set (e2 := E) in H end.
  assert (Hinv2 : engine_inv e2).
  { apply push_inv; [exact Hinv1 | exact Hlt1 |]. rewrite Ht1.
    eapply Forall_impl; [exact (inv_tape _ Hinv)|]. simpl.
    intros b Hb. exact (addr_lt_le_trans _ _ _ Hb Hle1). }
  assert (Hext2 : extends e e2)
    by exact (extends_trans _ _ _ Hext1 (extends_push e1 this0)).
  destruct (alloc_inv (1 * sizeof_ptr) e2 Hinv2)
    as (p_arr & e3 & Ha3 & Hinv3 & Hext3 & _).
  unfold bind at 1 in H. rewrite Ha3 in H.
  destruct (alloc_inv (N.of_nat (length (x0 :: rest)) * sizeof_ptr) e3 Hinv3)
    as (t_arr & e4 & Ha4 & Hinv4 & Hext4 & _).
  unfold bind at 1 in H. rewrite Ha4 in H.
  destruct (fill_theta_inv (x0 :: rest) 0
              (<[0%nat := Some this0]> (replicate (length (x0 :: rest)) None))
              e4 Hinv4)
    as (ts & e5 & Hfill & Hts & Hst5 & Hinv5 & Hext5 & Hall).
  { rewrite length_insert, length_replicate. simpl. lia. }
  rewrite drop_ge in Hfill
    by (rewrite length_insert, length_replicate; simpl; lia).
  simpl take in Hfill. rewrite app_nil_r in Hfill. simpl app in Hfill.
  unfold bind at 1 in H. rewrite Hfill in H.
  unfold bind, store, ret in H. simpl in H. injection H as <- <-.
  assert (Hw14 : addr_le (watermark e1) (watermark e4)).
  { assert (Hw12 : addr_le (watermark e1) (watermark e2)) by apply addr_le_refl.
    exact (addr_le_trans _ _ _ Hw12
             (addr_le_trans _ _ _ (ext_watermark _ _ Hext3)
                (ext_watermark _ _ Hext4))). }
  assert (Hext05 : extends e e5).
  { exact (extends_trans _ _ _ Hext2
             (extends_trans _ _ _ Hext3 (extends_trans _ _ _ Hext4 Hext5))). }
  split.
  - apply store_inv; [exact Hinv5 | |].
    + exact (addr_lt_le_trans _ _ _ Hlt1
               (addr_le_trans _ _ _ Hw14 (ext_watermark _ _ Hext5))).
    + split.
      * simpl. intros r Hr. apply list_elem_of_singleton in Hr as ->.
        exact (addr_lt_le_trans _ _ _ (live_below e phi Hinv Hphi) Hle1).
      * simpl. intros t Ht.
        apply list_elem_of_fmap in Ht as (t' & Heq & Hin).
        injection Heq as ->. rewrite Forall_forall in Hall.
        exact (addr_lt_le_trans _ _ _ Hlt1
                 (addr_le_trans _ _ _ Hw14 (Hall t' Hin))).
  - apply extends_store; [exact Hle1 | exact Hext05].
Qed.

Lemma theta_handles_state (theta_ : list (option addr)) (n : nat) :
  forall (i : nat) (e : engine) (r : list handle) (e' : engine),
  theta_handles theta_ n i e = Ok r e' -> e' = e.
Proof.
  induction n as [|n IH]; intros i e r e' H.
  - injection H as _ <-. reflexivity.
  - simpl in H. unfold bind at 1, lift_option in H.
    destruct (theta_ !! i ≫= id) as [a|]; [|discriminate].
    unfold bind at 1 in H.
    destruct (theta_handles theta_ n (S i) e) as [rest e1| | |] eqn:E;
      try discriminate.
    apply IH in E as ->. unfold ret in H. injection H as _ <-. reflexivity.
Qed.

Lemma lgp_newton_solver_var_inv fuel theta_0 system tol max_num_steps
    line_search e hs e' :
  engine_inv e ->
  lgp_newton_solver_var fuel theta_0 system tol max_num_steps line_search e
    = Ok hs e' ->
  engine_inv e' /\ extends e e'.
Proof.
  intros Hinv H. unfold lgp_newton_solver_var in H.
  unfold bind at 1 in H.
  destruct (value_of (Var (get_phi system)) e) as [pval e1| | |] eqn:Ev;
    try discriminate.
  apply value_of_Ok in Ev as [-> Hphi].
  unfold bind at 1 in H.
  destruct (lgp_newton_solver _ tol max_num_steps line_search fuel theta_0)
    as [theta_dbl| | | |]; try discriminate.
  simpl lift_solver in H. unfold ret at 1 in H.
  unfold bind at 1 in H.
  destruct (new_lgp_newton_solver_vari _ _ theta_dbl e) as [vi0 e1| | |] eqn:En;
    try discriminate.
  destruct (new_lgp_newton_solver_vari_inv _ _ _ _ _ _ Hinv Hphi En)
    as [Hinv1 Hext1].
  unfold bind at 1, load in H.
  destruct (mem e1 !! vi0) as [v|]; [|discriminate].
  destruct (op v) as [| | | | |phi_ n theta_ J_]; try discriminate.
  unfold bind at 1, lift_option in H.
  destruct (theta_ !! 0%nat ≫= id); [|discriminate].
  apply theta_handles_state in H as ->. auto.
Qed.

End LgpConstructorFacts.

(** ** The invariant along every history *)

Section HistoryFacts.

Import History Laplace.
Local Open Scope engine_scope.

Context {ops : lgp_operators}.

Lemma discard_Ok {A} (m : M A) e e' :
  discard m e = Ok tt e' -> exists r, m e = Ok r e'.
Proof.
  unfold discard, bind, ret. destruct (m e) as [r e1| | |]; try discriminate.
  intros H. injection H as <-. eauto.
Qed.

(** Every call keeps the invariant, and either releases a node or
    leaves its value and references alone. *)
Lemma run_inv (a : action) e e' :
  engine_inv e -> run a e = Ok tt e' ->
  engine_inv e' /\ node_preserved e e'.
Proof.
  intros Hinv H. destruct a; simpl in H.
  - apply discard_Ok in H as [r H].
    destruct (makeLeaf_inv _ _ _ _ Hinv H) as [Hinv' Hext].
    split; [exact Hinv' | exact (extends_preserved _ _ Hinv Hext)].
  - apply discard_Ok in H as [r H].
    destruct (add_h_inv _ _ _ _ _ Hinv H) as [Hinv' Hext].
    split; [exact Hinv' | exact (extends_preserved _ _ Hinv Hext)].
  - apply discard_Ok in H as [r H].
    destruct (multiply_h_inv _ _ _ _ _ Hinv H) as [Hinv' Hext].
    split; [exact Hinv' | exact (extends_preserved _ _ Hinv Hext)].
  - apply discard_Ok in H as [r H].
    destruct (lgp_newton_solver_var_inv _ _ _ _ _ _ _ _ _ Hinv H)
      as [Hinv' Hext].
    split; [exact Hinv' | exact (extends_preserved _ _ Hinv Hext)].
  - exact (start_nested_inv _ _ Hinv H).
  - exact (recover_memory_nested_inv _ _ Hinv H).
  - exact (recover_memory_inv _ _ Hinv H).
  - apply discard_Ok in H as [r H]. exact (grad_trace_inv _ _ _ _ Hinv H).
Qed.

Lemma exec_inv (l : list action) : forall e e',
  engine_inv e -> exec l e = Ok tt e' -> engine_inv e'.
Proof.
  induction l as [|a l IH]; intros e e' Hinv H.
  - injection H as <-. exact Hinv.
  - simpl in H. unfold bind in H.
    destruct (run a e) as [[] e1| | |] eqn:Ea; try discriminate.
    destruct (run_inv a e e1 Hinv Ea) as [Hinv1 _].
    exact (IH e1 e' Hinv1 H).
Qed.

Lemma inv_operands_precede e : engine_inv e -> operands_precede e.
Proof.
  intros Hinv i this v r Hi Hv Hr.
  destruct (inv_refs _ Hinv _ _ Hv) as [Hup _].
  pose proof (Hup r Hr) as Hlt. split; [exact Hlt|].
  intros j Hj. destruct (decide (j < i)%nat) as [|Hge]; [assumption|].
  exfalso.
  pose proof (sorted_lookup_le _ i j this r (inv_sorted _ Hinv)
                ltac:(lia) Hi Hj) as Hle.
  exact (addr_lt_irrefl r (addr_lt_le_trans _ _ _ Hlt Hle)).
Qed.

Lemma inv_solution_nodes_follow e this v phi_ n theta_ J_ t :
  engine_inv e -> mem e !! this = Some v ->
  op v = op_lgp_newton_solver phi_ n theta_ J_ -> Some t ∈ theta_ ->
  addr_lt this t
  /\ forall i j, var_stack_ e !! i = Some this -> var_stack_ e !! j = Some t ->
       (i < j)%nat.
Proof.
  intros Hinv Hv Hop Ht.
  destruct (inv_refs _ Hinv _ _ Hv) as [_ Hth]. rewrite Hop in Hth.
  pose proof (Hth t Ht) as Hlt. split; [exact Hlt|].
  intros i j Hi Hj. destruct (decide (i < j)%nat) as [|Hge]; [assumption|].
  exfalso.
  pose proof (sorted_lookup_le _ j i t this (inv_sorted _ Hinv)
                ltac:(lia) Hj Hi) as Hle.
  exact (addr_lt_irrefl this (addr_lt_le_trans _ _ _ Hlt Hle)).
Qed.

(** C2, amended: in every engine state reached by a history of calls,
    each node on the tape was created after every operand whose adjoint
    its [chain] updates, and such an operand, when it is on the tape,
    is at a strictly smaller position; every solution node whose
    adjoint [lgp_newton_solver_vari::chain] reads is the node itself or
    a node created after it, and is at no smaller tape position; and no
    call changes the value or the references of a node that exists: it
    releases the node or leaves them as they were. *)
Theorem operands_created_before (l : list action) (e : engine) :
  exec l empty_engine = Ok tt e ->
  operands_precede e
  /\ (forall this v phi_ n theta_ J_ t,
        mem e !! this = Some v ->
        op v = op_lgp_newton_solver phi_ n theta_ J_ -> Some t ∈ theta_ ->
        addr_le this t
        /\ forall i j, var_stack_ e !! i = Some this ->
             var_stack_ e !! j = Some t -> (i <= j)%nat)
  /\ (forall a e', run a e = Ok tt e' -> node_preserved e e').
Proof.
  intros Hexec.
  pose proof (exec_inv l _ _ empty_engine_inv Hexec) as Hinv.
  split; [exact (inv_operands_precede e Hinv)|]. split.
  - intros this v phi_ n theta_ J_ t Hv Hop Ht.
    destruct (inv_solution_nodes_follow e this v phi_ n theta_ J_ t
                Hinv Hv Hop Ht) as [Hlt Hpos].
    split; [right; exact Hlt|].
    intros i j Hi Hj. specialize (Hpos i j Hi Hj). lia.
  - intros a e' Hrun. exact (proj2 (run_inv a e e' Hinv Hrun)).
Qed.

End HistoryFacts.

Section HistoryExamples.

Import History HistoryScenario NodeScenario.

Lemma operands_created_before_witness :
  operands_precede product_engine
  /\ operands_precede solver_engine.
Proof.
  split.
  - apply (operands_created_before (ops := sens_ops) product_history).
    vm_compute. reflexivity.
  - apply (operands_created_before (ops := sens_ops) solver_history).
    vm_compute. reflexivity.
Defined.

(** C2 as stated fails on the node the solver constructs: the node is
    at tape position 1, its [chain] reads the adjoint of the second
    solution node [b = theta_[1]], and this node was created after the
    node and is at no tape position at all. *)
Lemma solver_node_reads_younger_nodes :
  var_stack_ solver_engine = [phi_addr; node_addr]
  /\ (op <$> mem solver_engine !! node_addr)
     = Some (op_lgp_newton_solver [Some phi_addr] 2
               [Some a_addr; Some b_addr]
               [Double.of_Z 2; Double.of_Z (-1)])
  /\ addr_lt node_addr b_addr
  /\ (b_addr ∉ var_stack_ solver_engine)
  /\ (exists m1 m2 m2',
        seed (mem solver_engine) b_addr = Some m1
        /\ chain m1 node_addr = Some m2
        /\ chain (mem solver_engine) node_addr = Some m2'
        /\ adjoint m2 phi_addr <> adjoint m2' phi_addr)
  /\ ~ references_precede solver_engine.
Proof.
  split; [vm_compute; reflexivity|].
  split; [vm_compute; reflexivity|].
  split; [reflexivity|].
  assert (Hnot : b_addr ∉ var_stack_ solver_engine).
  { intros Hin. apply list_elem_of_In in Hin. vm_compute in Hin.
    destruct Hin as [H|[H|[]]]; discriminate H. }
  split; [exact Hnot|]. split.
  - eexists _, _, _. split; [vm_compute; reflexivity|].
    split; [vm_compute; reflexivity|]. split; [vm_compute; reflexivity|].
    vm_compute. discriminate.
  - intros Hclaim.
    destruct (mem solver_engine !! node_addr) as [v|] eqn:Ev;
      [|vm_compute in Ev; discriminate].
    destruct (Hclaim 1%nat node_addr v b_addr) as (j & Hj & Hlook).
    + vm_compute. reflexivity.
    + exact Ev.
    + vm_compute in Ev. injection Ev as <-. vm_compute.
      apply list_elem_of_In. simpl. auto.
    + apply Hnot. eapply list_elem_of_lookup_2. exact Hlook.
Qed.

End HistoryExamples.

Section VarSolverExamples.

Import Laplace HistoryScenario NodeScenario.


End VarSolverExamples.

(* ================================================================= *)
(** * Further properties of the modelled code *)

(** ** The Newton iteration: edge cases of the limit and of the test *)

Section SolverEdgeFacts.

Import Laplace SolverClaims.

Context {ops : lgp_operators}.
Variable system : lgp_conditional_system double.
Variable tol : double.
Variable max_num_steps : Z.
Variable line_search : bool.
Variable fuel : nat.

Let loop := newton_loop system tol max_num_steps line_search fuel.


(** With a limit above [INT_MAX], from a counter that is [k] updates
    below [INT_MAX], when none of the next [k + 1] iterates passes the
    test, the loop reaches [i++] with [i = INT_MAX]. *)
Lemma loop_overflows (k : nat) : forall n i theta,
  0 <= i -> i + Z.of_nat k = INT_MAX -> INT_MAX < max_num_steps ->
  (k < n)%nat ->
  (forall j : nat, (j <= k)%nat ->
     exists th th',
       iterate system line_search fuel j theta = Some th
       /\ newton_update system line_search fuel (cond_gradient system th) th
          = Some th'
       /\ converged system tol th = false) ->
  loop n i theta = SignedOverflow.
Proof.
  induction k as [|k IH]; intros n i theta Hi Hk Hmax Hn Hnc;
    (destruct n as [|n]; [lia|]); unfold loop; cbn [newton_loop];
    replace (i <=? max_num_steps) with true by (symmetry; apply Z.leb_le; lia);
    replace (i =? max_num_steps) with false
      by (symmetry; apply Z.eqb_neq; lia);
    cbn [negb];
    (destruct (Hnc 0%nat) as (th & th' & H0 & Hu & Hc); [lia|]);
    cbn [iterate] in H0; injection H0 as <-;
    rewrite (newton_step_of_update _ _ _ _ _ _ Hu);
    unfold converged in Hc; rewrite Hc.
  - replace (i =? INT_MAX) with true by (symmetry; apply Z.eqb_eq; lia).
    reflexivity.
  - replace (i =? INT_MAX) with false by (symmetry; apply Z.eqb_neq; lia).
    apply IH; try lia.
    intros j Hj. destruct (Hnc (S j)) as (tj & tj' & Hj1 & Hj2 & Hj3); [lia|].
    rewrite iterate_shift, Hu in Hj1. cbn in Hj1.
    exists tj, tj'. auto.
Qed.

(** X2: the loop counter is an [int] and the limit a [long].  For a
    limit above [INT_MAX] the test [i == max_num_steps] is false at
    every value the counter can hold, so the limit stops nothing: a
    call in which none of the first [INT_MAX + 1] iterates passes the
    convergence test (each update completing) does not reach the
    [throw]; after the update of iterate number [INT_MAX] it executes
    [i++] with [i = INT_MAX], a signed overflow, whose behaviour is
    undefined. *)
Theorem limit_above_int_max_overflows (theta_0 : VectorXd) :
  INT_MAX < max_num_steps ->
  (forall j : nat, Z.of_nat j <= INT_MAX ->
     exists th th',
       iterate system line_search fuel j theta_0 = Some th
       /\ newton_update system line_search fuel (cond_gradient system th) th
          = Some th'
       /\ converged system tol th = false) ->
  lgp_newton_solver system tol max_num_steps line_search fuel theta_0
    = SignedOverflow.
Proof.
  intros Hmax Hnc. unfold lgp_newton_solver.
  apply (loop_overflows (Z.to_nat INT_MAX)); unfold INT_MAX in *; try lia.
  intros j Hj. apply Hnc. lia.
Qed.

End SolverEdgeFacts.

Section SolverTermination.

Import Laplace SolverClaims.

Context {ops : lgp_operators}.
Variable system : lgp_conditional_system double.
Variable tol : double.
Variable max_num_steps : Z.
Variable fuel : nat.

(** The operators of the system return vectors of the size [len] at
    vectors of this size. *)
Let sizes_kept (len : nat) : Prop :=
  forall theta, length theta = len ->
    length (cond_gradient system theta) = len
    /\ length (cond_hessian system theta) = len.

Lemma plain_step_keeps_size (len : nat) (gradient theta : VectorXd) :
  length theta = len -> length gradient = len ->
  length (cond_hessian system theta) = len ->
  exists theta',
    newton_step system false fuel gradient theta = Updated theta'
    /\ length theta' = len.
Proof.
  intros Ht Hg Hh. unfold newton_step, elt_divide.
  rewrite decide_True by congruence. cbn [negb]. unfold vec_add, vec_neg.
  rewrite decide_True by (rewrite length_map, length_zip_with; lia).
  eexists. split; [reflexivity|].
  rewrite length_zip_with, length_map, length_zip_with. lia.
Qed.

Lemma plain_loop_terminates (len k : nat) : forall n i theta,
  sizes_kept len -> length theta = len ->
  0 <= i -> i + Z.of_nat k = max_num_steps -> max_num_steps <= INT_MAX ->
  (k < n)%nat ->
  (exists theta_r,
     newton_loop system tol max_num_steps false fuel n i theta
       = Returns theta_r /\ length theta_r = len)
  \/ newton_loop system tol max_num_steps false fuel n i theta
     = Throws (evaluation_error (max_steps_message max_num_steps)).
Proof.
  induction k as [|k IH]; intros n i theta Hsz Hlen Hi Hk Hmax Hn.
  - right. destruct n as [|n]; [lia|]. cbn [newton_loop].
    replace (i <=? max_num_steps) with true by (symmetry; apply Z.leb_le; lia).
    replace (i =? max_num_steps) with true by (symmetry; apply Z.eqb_eq; lia).
    reflexivity.
  - destruct n as [|n]; [lia|]. cbn [newton_loop].
    replace (i <=? max_num_steps) with true by (symmetry; apply Z.leb_le; lia).
    replace (i =? max_num_steps) with false by (symmetry; apply Z.eqb_neq; lia).
    cbn [negb]. destruct (Hsz theta Hlen) as [Hg Hh].
    destruct (plain_step_keeps_size len (cond_gradient system theta) theta
                Hlen Hg Hh) as (theta' & Hstep & Hlen').
    rewrite Hstep.
    destruct (Double.le _ tol); [left; eauto|].
    replace (i =? INT_MAX) with false by (symmetry; apply Z.eqb_neq; lia).
    apply IH; (assumption || lia).
Qed.

(** X3: without line search, with a limit
    [0 <= max_num_steps <= INT_MAX] and a system whose gradient and
    Hessian have the size of the vector they are computed at, every
    call ends within the limit: no size check fails, the counter does
    not overflow, and the call returns a vector of the size of the
    guess or throws the exception that reports the exceeded maximum
    number of iterations. *)
Theorem plain_solver_terminates (theta_0 : VectorXd) :
  0 <= max_num_steps <= INT_MAX ->
  (forall theta, length theta = length theta_0 ->
     length (cond_gradient system theta) = length theta_0
     /\ length (cond_hessian system theta) = length theta_0) ->
  (exists theta_r,
     lgp_newton_solver system tol max_num_steps false fuel theta_0
       = Returns theta_r /\ length theta_r = length theta_0)
  \/ lgp_newton_solver system tol max_num_steps false fuel theta_0
     = Throws (evaluation_error (max_steps_message max_num_steps)).
Proof.
  intros Hmax Hsz. unfold lgp_newton_solver.
  apply (plain_loop_terminates (length theta_0) (Z.to_nat max_num_steps));
    (exact Hsz || reflexivity || lia).
Qed.

End SolverTermination.

Section SolverEdgeExamples.

Import Laplace SolverClaims SolverScenario.


Lemma stuck_iterate (j : nat) :
  iterate (ops := StuckScenario.stuck) unit_system false 0 j [Double.zero]
  = Some [Double.zero].
Proof.
  induction j as [|j IH]; [reflexivity|].
  cbn [iterate]. rewrite IH. vm_compute. reflexivity.
Qed.

Lemma limit_above_int_max_overflows_witness :
  lgp_newton_solver (ops := StuckScenario.stuck) unit_system tol_default
    2147483648 false 0 [Double.zero]
  = SignedOverflow.
Proof.
  apply (limit_above_int_max_overflows (ops := StuckScenario.stuck)
           unit_system tol_default 2147483648 false 0 [Double.zero]).
  - unfold INT_MAX. lia.
  - intros j _. exists [Double.zero], [Double.zero].
    split; [apply stuck_iterate|]. split; vm_compute; reflexivity.
Defined.

Lemma plain_solver_terminates_witness :
  (exists theta_r,
     lgp_newton_solver (ops := quadratic) unit_system tol_default 3 false 0
       [Double.zero] = Returns theta_r
     /\ length theta_r = 1%nat)
  \/ lgp_newton_solver (ops := quadratic) unit_system tol_default 3 false 0
       [Double.zero] = Throws (evaluation_error (max_steps_message 3)).
Proof.
  apply (plain_solver_terminates (ops := quadratic) unit_system tol_default 3
           0 [Double.zero]).
  - unfold INT_MAX. lia.
  - intros theta Hlen. destruct theta as [|x [|y theta]]; try discriminate.
    split; reflexivity.
Defined.

End SolverEdgeExamples.

(** ** [chain] with a sensitivity vector that is too short *)

Section ShortSensitivities.

Lemma foldM_None {A B} (f : A -> B -> option A) (b : B) :
  (forall a, f a b = None) ->
  forall l a, b ∈ l -> foldM f l a = None.
Proof.
  intros Hb l. induction l as [|c l IH]; intros a Hin.
  - inversion Hin.
  - rewrite foldM_cons. apply elem_of_cons in Hin as [<-|Hin].
    + rewrite Hb. reflexivity.
    + destruct (f a c) as [a'|]; [|reflexivity]. simpl. apply IH. exact Hin.
Qed.

Lemma lgp_chain_step_out_of_range (phi_ theta_ : list (option addr))
    (J_ : list double) (m : memory) (i : nat) :
  (length J_ <= i)%nat -> lgp_chain_step phi_ theta_ J_ m i = None.
Proof.
  intros Hi. unfold lgp_chain_step.
  destruct (phi_ !! 0%nat ≫= id) as [p|]; [|reflexivity]. simpl.
  destruct (theta_ !! i ≫= id) as [t|]; [|reflexivity]. simpl.
  rewrite (lookup_ge_None_2 J_ i Hi). reflexivity.
Qed.

(** X4: the constructor stores whatever [solver_gradient] returns and
    does not compare its size with [theta_size_].  When [J_] has fewer
    than [theta_size_] entries, [chain] indexes [J_] out of range: its
    behaviour is undefined, whatever the memory holds. *)
Theorem chain_undefined_on_short_sensitivities (m : memory) (this : addr)
    (v : vari) (phi_ theta_ : list (option addr)) (n : nat)
    (J_ : list double) :
  m !! this = Some v ->
  op v = op_lgp_newton_solver phi_ n theta_ J_ ->
  (length J_ < n)%nat ->
  chain m this = None.
Proof.
  intros Hv Hop Hlen. unfold chain. rewrite Hv. simpl. rewrite Hop.
  apply (foldM_None _ (length J_)).
  - intros m'. apply lgp_chain_step_out_of_range. lia.
  - apply list_elem_of_In, in_seq. lia.
Qed.

Lemma chain_undefined_on_short_sensitivities_witness :
  chain ShortJScenario.short_memory NodeScenario.node_addr = None.
Proof.
  apply (chain_undefined_on_short_sensitivities ShortJScenario.short_memory
           NodeScenario.node_addr ShortJScenario.short_node
           [Some NodeScenario.phi_addr]
           [Some (0%nat, 120%N); Some (0%nat, 144%N); Some (0%nat, 168%N)] 3
           [Double.of_Z 2; Double.of_Z (-1)]).
  - vm_compute. reflexivity.
  - reflexivity.
  - simpl. lia.
Defined.

End ShortSensitivities.

(** ** [lgamma_stirling_diff] at zero *)

Section StirlingAtZero.

Import PrimFun.
Local Open Scope engine_scope.

Variables lgamma lgamma_stirling inv square : handle -> M handle.
Variable subtract : handle -> handle -> M handle.

Let lsd := lgamma_stirling_diff lgamma lgamma_stirling inv square subtract.

Lemma eq_zero_cases (v : double) :
  Double.eq v Double.zero = true ->
  Double.is_nan v = false /\ Double.ge v Double.zero = true.
Proof. destruct v as [[]|[]| |[] m e]; intros H; cbv in H |- *; auto; discriminate. Qed.

(** X5: at an argument equal to zero, of either sign, the function
    returns positive infinity: for a double argument it does so
    without touching the autodiff state and without calling [lgamma];
    for a [var] argument the result is a new node whose value is
    infinity. *)
Theorem lgamma_stirling_diff_at_zero (v : double) :
  Double.eq v Double.zero = true ->
  (forall e, lsd (Const v) e = Ok (Const Double.INFTY) e)
  /\ (forall a w e,
        mem e !! a = Some w -> val_ w = v ->
        exists r e', lsd (Var a) e = Ok (Var r) e'
          /\ value_of (Var r) e' = Ok Double.INFTY e').
Proof.
  intros Hz. destruct (eq_zero_cases v Hz) as [Hnan Hge]. split.
  - intros e. unfold lsd, lgamma_stirling_diff, bind at 1. simpl value_of.
    unfold ret at 1. rewrite Hnan. unfold bind at 1, check_nonnegative.
    rewrite Hge. simpl. rewrite Hz. reflexivity.
  - intros a w e Hm Hval. unfold lsd, lgamma_stirling_diff, bind at 1.
    unfold value_of at 1, bind, load, ret. rewrite Hm, Hval, Hnan.
    unfold check_nonnegative. rewrite Hge. simpl. rewrite Hz.
    unfold makeLeaf, bind. rewrite new_vari_eq.
    eexists _, _. split; [reflexivity|].
    unfold value_of, bind, load, ret. simpl. rewrite lookup_insert_eq.
    reflexivity.
Qed.

End StirlingAtZero.

Lemma lgamma_stirling_diff_at_zero_witness :
  Scenario.lgamma_stirling_diff_stub (Const (S754_zero true)) empty_engine
  = Ok (Const Double.INFTY) empty_engine.
Proof.
  apply (lgamma_stirling_diff_at_zero Scenario.unary_stub Scenario.unary_stub
           Scenario.unary_stub Scenario.unary_stub Scenario.binary_stub
           (S754_zero true)).
  reflexivity.
Defined.

(** ** [add]: symmetry, and the scalar overloads *)

Section AddSymmetry.

Import Prim.

Lemma double_add_comm (x y : double) : Double.add x y = Double.add y x.
Proof.
  unfold Double.add.
  destruct x as [sx|sx| |sx mx ex], y as [sy|sy| |sy my ey];
    try reflexivity; try (destruct sx, sy; reflexivity).
  unfold SFadd. rewrite (Z.min_comm ex ey).
  rewrite (Z.add_comm (cond_Zopp sx _)). reflexivity.
Qed.

Lemma zip_with_add_comm (l1 l2 : list double) :
  zip_with Double.add l1 l2 = zip_with Double.add l2 l1.
Proof.
  revert l2. induction l1 as [|x l1 IH]; intros [|y l2]; simpl;
    try reflexivity.
  rewrite double_add_comm, IH. reflexivity.
Qed.

(** X6: [add(m1, m2)] and [add(m2, m1)] have the same outcome for all
    matrices: both throw when the dimensions differ, and otherwise
    both return the same matrix, coefficient for coefficient (IEEE
    addition is commutative). *)
Theorem add_symmetric (m1 m2 : Matrix) :
  match add m1 m2, add m2 m1 with
  | Return a, Return b => a = b
  | Raise _, Raise _ => True
  | _, _ => False
  end.
Proof.
  unfold add, check_matching_dims.
  destruct (decide (rows m1 = rows m2)) as [Hr|Hr];
    destruct (decide (cols m1 = cols m2)) as [Hc|Hc].
  - rewrite !bool_decide_eq_true_2 by congruence. simpl.
    unfold eigen_plus. rewrite Hr, Hc, zip_with_add_comm. reflexivity.
  - rewrite (bool_decide_eq_false_2 (cols m1 = cols m2)) by assumption.
    rewrite (bool_decide_eq_false_2 (cols m2 = cols m1)) by congruence.
    rewrite !andb_false_r. exact I.
  - rewrite (bool_decide_eq_false_2 (rows m1 = rows m2)) by assumption.
    rewrite (bool_decide_eq_false_2 (rows m2 = rows m1)) by congruence.
    exact I.
  - rewrite (bool_decide_eq_false_2 (rows m1 = rows m2)) by assumption.
    rewrite (bool_decide_eq_false_2 (rows m2 = rows m1)) by congruence.
    exact I.
Qed.

Lemma coeff_map (f : double -> double) (m : Matrix) (i j : nat) :
  coeff {| rows := rows m; cols := cols m; coeffs := map f (coeffs m) |} i j
  = f <$> coeff m i j.
Proof. unfold coeff. simpl. apply list_lookup_fmap. Qed.

(** X7: the two scalar overloads never throw and agree:
    [add(c, m) = add(m, c)]; the result has the dimensions of [m], and
    its coefficient at every (i, j) is [m(i, j) + c]; on an empty
    matrix the result is the empty matrix. *)
Theorem add_scalar_overloads (m : Matrix) (c : double) :
  add_sm c m = add_ms m c
  /\ rows (add_ms m c) = rows m /\ cols (add_ms m c) = cols m
  /\ (wf_matrix m -> wf_matrix (add_ms m c))
  /\ (forall i j,
        coeff (add_ms m c) i j = (fun x => Double.add x c) <$> coeff m i j)
  /\ (coeffs m = [] -> coeffs (add_ms m c) = []).
Proof.
  split.
  { unfold add_sm, add_ms. f_equal. apply map_ext. intros x.
    apply double_add_comm. }
  split; [reflexivity|]. split; [reflexivity|]. split.
  { unfold wf_matrix, add_ms. simpl. rewrite length_map. auto. }
  split.
  { intros i j. unfold add_ms. apply coeff_map. }
  intros H. unfold add_ms. simpl. rewrite H. reflexivity.
Qed.

Lemma add_scalar_overloads_witness :
  wf_matrix (add_ms (Scenario.m_2x2 1 2 3 4) (Double.of_Z 10))
  /\ add_sm (Double.of_Z 10) (Scenario.m_2x2 1 2 3 4)
     = Scenario.m_2x2 11 12 13 14.
Proof.
  destruct (add_scalar_overloads (Scenario.m_2x2 1 2 3 4) (Double.of_Z 10))
    as (Heq & _ & _ & Hwf & _).
  split; [apply Hwf; reflexivity|].
  rewrite Heq. vm_compute. reflexivity.
Defined.

End AddSymmetry.

(** ** The handles returned by the solver with a [var] parameter *)

Section SolutionHandles.

Import History Laplace.
Local Open Scope engine_scope.


Context {ops : lgp_operators}.





End SolutionHandles.

Section SolutionHandlesExample.

Import History Laplace HistoryScenario NodeScenario.


End SolutionHandlesExample.

(** ** The line search of the Newton solver *)

Section LineSearch.

Import Laplace.

Context {ops : lgp_operators}.
Variable system : lgp_conditional_system double.
Variable tol : double.
Variable max_num_steps : Z.

Lemma armijo_never_accepts (theta direction : VectorXd) (m : double) :
  length direction = length theta ->
  (forall k candidate,
     vec_add theta (vec_scale (armijo_step_size k) direction)
     = Some candidate ->
     Double.gt (log_density system candidate)
       (Double.add (log_density system theta) (Double.mul Double.half m))
     = true) ->
  forall fuel k candidate,
    vec_add theta (vec_scale (armijo_step_size k) direction) = Some candidate ->
    armijo system fuel theta direction Double.half Double.half m
      (armijo_step_size k) candidate = UpdateSearching.
Proof.
  intros Hlen Hgt fuel.
  induction fuel as [|fuel IH]; intros k candidate Hc; [reflexivity|].
  cbn [armijo]. rewrite (Hgt k candidate Hc).
  change (Double.mul Double.half (armijo_step_size k))
    with (armijo_step_size (S k)).
  destruct (vec_add theta (vec_scale (armijo_step_size (S k)) direction))
    as [candidate'|] eqn:Hc'.
  - exact (IH (S k) candidate' Hc').
  - unfold vec_add, vec_scale in Hc'.
    rewrite decide_True in Hc' by (rewrite length_map; congruence).
    discriminate.
Qed.

(** X9: the [while] loop of the line search has no bound of its own.
    With [line_search] set and a positive iteration limit, if at the
    initial guess (with a direction of the size of the guess) the log
    density of the candidate exceeds the bound
    [log_density(theta) + c * m] at every step size the loop tries
    (1, 1/2, 1/4, ... as computed in binary64), the call neither
    returns nor throws, however long it runs: the iteration limit is
    never looked at again. *)
Theorem line_search_never_returns (theta_0 quotient : VectorXd) :
  0 < max_num_steps ->
  elt_divide (cond_gradient system theta_0) (cond_hessian system theta_0)
  = Return quotient ->
  length quotient = length theta_0 ->
  (forall k candidate,
     vec_add theta_0 (vec_scale (armijo_step_size k) (vec_neg quotient))
     = Some candidate ->
     Double.gt (log_density system candidate)
       (Double.add (log_density system theta_0)
          (Double.mul Double.half
             (dot (vec_neg quotient) (cond_gradient system theta_0))))
     = true) ->
  forall fuel,
    lgp_newton_solver system tol max_num_steps true fuel theta_0
    = StillSearching.
Proof.
  intros Hmax Hq Hlen Hgt fuel. unfold lgp_newton_solver.
  cbn [newton_loop].
  replace (0 <=? max_num_steps) with true by (symmetry; apply Z.leb_le; lia).
  replace (0 =? max_num_steps) with false by (symmetry; apply Z.eqb_neq; lia).
  cbn [negb]. unfold newton_step. rewrite Hq. cbn [negb].
  assert (Hlen' : length (vec_neg quotient) = length theta_0)
    by (unfold vec_neg; rewrite length_map; exact Hlen).
  change Double.one with (armijo_step_size 0).
  destruct (vec_add theta_0 (vec_scale (armijo_step_size 0) (vec_neg quotient)))
    as [candidate|] eqn:Hc.
  - rewrite (armijo_never_accepts _ _ _ Hlen' Hgt fuel 0%nat candidate Hc).
    reflexivity.
  - unfold vec_add, vec_scale in Hc.
    rewrite decide_True in Hc by (rewrite length_map; congruence).
    discriminate.
Qed.

End LineSearch.

Lemma line_search_never_returns_witness :
  Laplace.lgp_newton_solver (ops := LineSearchScenario.flat)
    SolverScenario.unit_system SolverScenario.tol_default 100 true 1000
    [Double.zero]
  = Laplace.StillSearching.
Proof.
  apply (line_search_never_returns (ops := LineSearchScenario.flat)
           SolverScenario.unit_system SolverScenario.tol_default 100
           [Double.zero] [Double.one]).
  - lia.
  - vm_compute. reflexivity.
  - reflexivity.
  - intros k candidate _. vm_compute. reflexivity.
Defined.

(** ** [lgamma_stirling_diff] at large arguments *)

Section StirlingLarge.

Import PrimFun.
Local Open Scope engine_scope.

Variables inv square : handle -> M handle.

Lemma compare_cont_not_lt (m q : positive) :
  match Pos.compare_cont Eq q m with Gt => false | _ => true end = true ->
  match Pos.compare_cont Eq m q with Lt => true | _ => false end = false.
Proof.
  fold (Pos.compare q m). fold (Pos.compare m q).
  rewrite (Pos.compare_antisym m q).
  destruct (Pos.compare m q); cbn [CompOpp]; intros H;
    try reflexivity; discriminate.
Qed.

Lemma ge_useful_cases (v : double) :
  Double.ge v lgamma_stirling_diff_useful = true ->
  Double.is_nan v = false /\ Double.ge v Double.zero = true
  /\ Double.eq v Double.zero = false
  /\ Double.lt v lgamma_stirling_diff_useful = false.
Proof.
  change lgamma_stirling_diff_useful
    with (S754_finite false 5629499534213120 (-49)).
  unfold Double.ge, Double.lt, Double.eq, Double.is_nan, Double.zero,
    SFleb, SFltb, SFeqb.
  destruct v as [[]|[]| |[] m e]; cbn [SFcompare]; intros H;
    try discriminate; repeat split; try reflexivity.
  revert H.
  rewrite (Z.compare_antisym e (-49)).
  destruct (e ?= -49) eqn:He; cbn [CompOpp]; try reflexivity; try discriminate.
  apply compare_cont_not_lt.
Qed.

(** X10: at an argument of at least [lgamma_stirling_diff_useful]
    (infinity included) the function does not call [lgamma],
    [lgamma_stirling] or the subtraction: the outcome is the same
    whatever these three are (only the branch of the Stirling series,
    which uses [inv] and [square], is run). *)
Theorem lgamma_stirling_diff_large_skips_lgamma
    (lgamma1 lgamma_stirling1 lgamma2 lgamma_stirling2 : handle -> M handle)
    (subtract1 subtract2 : handle -> handle -> M handle)
    (x : handle) (v : double) (e : engine) :
  value_of x e = Ok v e ->
  Double.ge v lgamma_stirling_diff_useful = true ->
  lgamma_stirling_diff lgamma1 lgamma_stirling1 inv square subtract1 x e
  = lgamma_stirling_diff lgamma2 lgamma_stirling2 inv square subtract2 x e.
Proof.
  intros Hv Hge.
  destruct (ge_useful_cases v Hge) as (Hnan & Hge0 & Hz & Hlt).
  unfold lgamma_stirling_diff, bind, check_nonnegative.
  rewrite Hv. cbv beta iota. rewrite Hnan, Hge0.
  cbn [lift_result]. unfold ret. cbv beta iota.
  rewrite Hz, Hlt. reflexivity.
Qed.

End StirlingLarge.

Lemma lgamma_stirling_diff_large_skips_lgamma_witness :
  PrimFun.lgamma_stirling_diff Scenario.unary_stub Scenario.unary_stub
    Scenario.unary_stub Scenario.unary_stub Scenario.binary_stub
    (Const Double.INFTY) empty_engine
  = PrimFun.lgamma_stirling_diff (fun _ _ => Undef) (fun _ _ => Undef)
      Scenario.unary_stub Scenario.unary_stub (fun _ _ _ => Undef)
      (Const Double.INFTY) empty_engine.
Proof.
  apply (lgamma_stirling_diff_large_skips_lgamma Scenario.unary_stub
           Scenario.unary_stub _ _ _ _ _ _ (Const Double.INFTY) Double.INFTY).
  - reflexivity.
  - reflexivity.
Defined.

(** ** The covariance matrix and the data vector of the dense system *)

Section LoopFacts.

Import DenseSystem.

Lemma run_bind_done {A B : Type} (a : A) (k : A -> run B) :
  (Done a ≫= k) = k a.
Proof. reflexivity. Qed.

(** The invariant rule of the [for] loop. *)
Lemma for_loop_inv {St : Type} (Inv : Z -> St -> Prop)
    (body : Z -> St -> run St) :
  forall (n : nat) (lo : Z) (s : St),
  Inv lo s ->
  (forall k s, lo <= k < lo + Z.of_nat n -> Inv k s ->
     exists s', body k s = Done s' /\ Inv (k + 1) s') ->
  exists s', for_loop body lo n s = Done s' /\ Inv (lo + Z.of_nat n) s'.
Proof.
  induction n as [|n IH]; intros lo s Hs Hbody.
  - exists s. split; [reflexivity|].
    replace (lo + Z.of_nat 0) with lo by lia. exact Hs.
  - destruct (Hbody lo s) as (s1 & Hb & Hs1); [lia | exact Hs |].
    cbn [for_loop]. rewrite Hb, run_bind_done.
    destruct (IH (lo + 1) s1 Hs1) as (s' & Hrun & Hs').
    { intros k s2 Hk. apply Hbody. lia. }
    exists s'. split; [exact Hrun|].
    replace (lo + Z.of_nat (S n)) with (lo + 1 + Z.of_nat n) by lia.
    exact Hs'.
Qed.

End LoopFacts.

Section CovarianceFacts.

Import DenseSystem.

Context {T : Type}.
Variable pow : T -> double -> T.
Variable mul : T -> T -> T.
Variable M : Z.
Variables sigma rho : T.
Variable space_matters : bool.
Hypothesis HM : 0 <= M.

Let entry := covariance_entry pow mul sigma rho space_matters.

Let shape (m : EigenMatrix T) : Prop :=
  e_rows m = M /\ e_cols m = M /\ length (e_data m) = Z.to_nat (M * M).

Let holds (m : EigenMatrix T) (r c : Z) : Prop :=
  e_data m !! Z.to_nat (r + c * M) = Some (Some (entry r c)).

Lemma index_inj (i j r c : Z) :
  0 <= i < M -> 0 <= j < M -> 0 <= r < M -> 0 <= c < M ->
  Z.to_nat (i + j * M) = Z.to_nat (r + c * M) -> i = r /\ j = c.
Proof.
  intros Hi Hj Hr Hc Heq.
  assert (H : i + j * M = r + c * M) by nia.
  assert (j = c) by nia. subst. lia.
Qed.

Lemma mat_write_spec (m : EigenMatrix T) (i j : Z) (v : T) :
  shape m -> 0 <= i < M -> 0 <= j < M ->
  exists m', mat_write m i j v = Done m' /\ shape m'
    /\ e_data m' !! Z.to_nat (i + j * M) = Some (Some v)
    /\ forall r c, 0 <= r < M -> 0 <= c < M -> (r <> i \/ c <> j) ->
         e_data m' !! Z.to_nat (r + c * M) = e_data m !! Z.to_nat (r + c * M).
Proof.
  intros (Hr & Hc & Hlen) Hi Hj. unfold mat_write, in_range, index_of.
  rewrite Hr, Hc. rewrite decide_True by lia.
  eexists. split; [reflexivity|]. unfold shape. cbn [e_rows e_cols e_data].
  split; [|split].
  - split; [reflexivity|]. split; [reflexivity|].
    rewrite length_insert. exact Hlen.
  - apply list_lookup_insert_eq. rewrite Hlen. nia.
  - intros r c Hr' Hc' Hne. apply list_lookup_insert_ne.
    intros Heq. destruct (index_inj i j r c Hi Hj Hr' Hc' Heq). lia.
Qed.

Lemma mat_read_spec (m : EigenMatrix T) (i j : Z) (v : T) :
  shape m -> 0 <= i < M -> 0 <= j < M ->
  e_data m !! Z.to_nat (i + j * M) = Some (Some v) ->
  mat_read m i j = Done v.
Proof.
  intros (Hr & Hc & Hlen) Hi Hj Hv. unfold mat_read, in_range, index_of.
  rewrite Hr, Hc. rewrite decide_True by lia. rewrite Hv. reflexivity.
Qed.

Lemma entry_below (i k : Z) :
  0 <= k < i ->
  entry i k
  = mul (pow rho (if space_matters then Double.of_Z (i - k)
                  else Double.of_Z 1)) sigma
  /\ entry k i = entry i k.
Proof.
  intros Hk. unfold entry, covariance_entry.
  replace (i =? k) with false by (symmetry; apply Z.eqb_neq; lia).
  replace (k =? i) with false by (symmetry; apply Z.eqb_neq; lia).
  replace (Z.abs (i - k)) with (i - k) by lia.
  replace (Z.abs (k - i)) with (i - k) by lia.
  split; reflexivity.
Qed.

Lemma entry_diagonal (i : Z) : entry i i = sigma.
Proof. unfold entry, covariance_entry. rewrite Z.eqb_refl. reflexivity. Qed.

Lemma entry_symmetric (i j : Z) : entry i j = entry j i.
Proof.
  unfold entry, covariance_entry. rewrite (Z.eqb_sym j i).
  replace (Z.abs (j - i)) with (Z.abs (i - j)) by lia. reflexivity.
Qed.

(** The loops of [lgp_covariance], started on a fresh matrix. *)
Lemma covariance_loops (Sigma0 : EigenMatrix T) :
  shape Sigma0 ->
  exists Sigma,
    for_loop (fun i Sigma =>
        Sigma ← for_loop (fun j Sigma =>
            let exponent :=
              if space_matters then Double.of_Z (i - j) else Double.of_Z 1 in
            Sigma ← mat_write Sigma i j (mul (pow rho exponent) sigma);
            v ← mat_read Sigma i j;
            mat_write Sigma j i v)
          0 (Z.to_nat i) Sigma;
        mat_write Sigma i i sigma)
      0 (Z.to_nat M) Sigma0 = Done Sigma
    /\ shape Sigma
    /\ forall r c, 0 <= r < M -> 0 <= c < M -> holds Sigma r c.
Proof.
  intros Hshape.
  match goal with |- exists Sigma, for_loop ?body _ _ _ = _ /\ _ =>
    destruct (for_loop_inv
      (fun i m => shape m
                  /\ forall r c, 0 <= r < i -> 0 <= c < i -> holds m r c)
      body (Z.to_nat M) 0 Sigma0) as (Sigma & Hrun & Hsh & Hall)
  end.
  - split; [exact Hshape|]. intros r c Hr. lia.
  - intros i m Hi (Hsh & Hdone). cbv beta.
    rewrite Z2Nat.id in Hi by exact HM.
    destruct (for_loop_inv
      (fun j m => shape m
                  /\ (forall r c, 0 <= r < i -> 0 <= c < i -> holds m r c)
                  /\ forall c, 0 <= c < j -> holds m i c /\ holds m c i)
      (fun j Sigma =>
         let exponent :=
           if space_matters then Double.of_Z (i - j) else Double.of_Z 1 in
         Sigma ← mat_write Sigma i j (mul (pow rho exponent) sigma);
         v ← mat_read Sigma i j;
         mat_write Sigma j i v)
      (Z.to_nat i) 0 m) as (m1 & Hrun1 & Hsh1 & Hold1 & Hrow1).
    + split; [exact Hsh|]. split; [exact Hdone|]. intros c Hc. lia.
    + intros k m0 Hk (Hsh0 & Hold0 & Hrow0). cbv beta zeta.
      rewrite Z2Nat.id in Hk by lia.
      destruct (entry_below i k) as [Hik Hki]; [lia|].
      destruct (mat_write_spec m0 i k
                  (mul (pow rho (if space_matters then Double.of_Z (i - k)
                                 else Double.of_Z 1)) sigma) Hsh0)
        as (m2 & Hw2 & Hsh2 & Hat2 & Hkeep2); [lia | lia |].
      rewrite Hw2, run_bind_done.
      rewrite (mat_read_spec m2 i k _ Hsh2) by (lia || exact Hat2).
      rewrite run_bind_done.
      destruct (mat_write_spec m2 k i
                  (mul (pow rho (if space_matters then Double.of_Z (i - k)
                                 else Double.of_Z 1)) sigma) Hsh2)
        as (m3 & Hw3 & Hsh3 & Hat3 & Hkeep3); [lia | lia |].
      exists m3. split; [exact Hw3|]. split; [exact Hsh3|]. split.
      * intros r c Hr Hc. unfold holds.
        rewrite Hkeep3 by lia. rewrite Hkeep2 by lia. exact (Hold0 r c Hr Hc).
      * intros c Hc. destruct (Z.eq_dec c k) as [->|Hne].
        -- split; unfold holds.
           ++ rewrite Hkeep3 by lia. rewrite Hat2, Hik. reflexivity.
           ++ rewrite Hat3, Hki, Hik. reflexivity.
        -- destruct (Hrow0 c) as [H1 H2]; [lia|]. split; unfold holds.
           ++ rewrite Hkeep3 by lia. rewrite Hkeep2 by lia. exact H1.
           ++ rewrite Hkeep3 by lia. rewrite Hkeep2 by lia. exact H2.
    + rewrite Hrun1, run_bind_done.
      rewrite Z.add_0_l, Z2Nat.id in Hrow1 by lia.
      destruct (mat_write_spec m1 i i sigma Hsh1)
        as (m2 & Hw2 & Hsh2 & Hat2 & Hkeep2); [lia | lia |].
      exists m2. split; [exact Hw2|]. split; [exact Hsh2|].
      intros r c Hr Hc. unfold holds.
      destruct (Z.eq_dec r i) as [->|Hri]; destruct (Z.eq_dec c i) as [->|Hci].
      * rewrite Hat2, entry_diagonal. reflexivity.
      * rewrite Hkeep2 by lia. destruct (Hrow1 c) as [H1 _]; [lia|]. exact H1.
      * rewrite Hkeep2 by lia. destruct (Hrow1 r) as [_ H2]; [lia|]. exact H2.
      * rewrite Hkeep2 by lia. apply Hold1; lia.
  - exists Sigma. split; [exact Hrun|]. split; [exact Hsh|].
    intros r c Hr Hc. apply Hall; rewrite Z.add_0_l, Z2Nat.id by exact HM; lia.
Qed.

(** X11: for a dimension [M >= 0] and a parameter vector with at
    least two components [sigma] and [rho], [lgp_covariance] returns
    an [M] by [M] matrix in which every coefficient has been written:
    [sigma] on the diagonal and [pow(rho, exponent) * sigma] elsewhere,
    with exponent the distance from the diagonal when [space_matters]
    is set and 1 otherwise; the matrix is symmetric. *)
Theorem lgp_covariance_entries (rest : list T) :
  exists Sigma,
    lgp_covariance pow mul (sigma :: rho :: rest) M space_matters = Done Sigma
    /\ e_rows Sigma = M /\ e_cols Sigma = M
    /\ (forall i j, 0 <= i < M -> 0 <= j < M ->
          mat_read Sigma i j
          = Done (covariance_entry pow mul sigma rho space_matters i j))
    /\ (forall i j, 0 <= i < M -> 0 <= j < M ->
          mat_read Sigma i j = mat_read Sigma j i).
Proof.
  unfold lgp_covariance.
  change (vec_read (sigma :: rho :: rest) 0) with (Done sigma).
  rewrite run_bind_done.
  change (vec_read (sigma :: rho :: rest) 1) with (Done rho).
  rewrite run_bind_done.
  unfold new_matrix. rewrite decide_True by lia. rewrite run_bind_done.
  destruct (covariance_loops
              {| e_rows := M; e_cols := M;
                 e_data := replicate (Z.to_nat (M * M)) None |})
    as (Sigma & Hrun & Hsh & Hall).
  { split; [reflexivity|]. split; [reflexivity|]. apply length_replicate. }
  exists Sigma. split; [exact Hrun|].
  destruct Hsh as (Hr & Hc & Hlen) eqn:E. clear E.
  split; [exact Hr|]. split; [exact Hc|].
  assert (Hread : forall i j, 0 <= i < M -> 0 <= j < M ->
            mat_read Sigma i j
            = Done (covariance_entry pow mul sigma rho space_matters i j)).
  { intros i j Hi Hj.
    apply mat_read_spec; [repeat split; assumption | exact Hi | exact Hj |].
    exact (Hall i j Hi Hj). }
  split; [exact Hread|].
  intros i j Hi Hj. rewrite (Hread i j Hi Hj), (Hread j i Hj Hi).
  f_equal. apply entry_symmetric.
Qed.

End CovarianceFacts.

Lemma lgp_covariance_entries_witness :
  exists Sigma,
    DenseSystem.lgp_covariance (fun r _ => r) Double.mul
      [Double.one; Double.half] 3 true = DenseSystem.Done Sigma
    /\ DenseSystem.mat_read Sigma 2 0 = DenseSystem.mat_read Sigma 0 2.
Proof.
  destruct (lgp_covariance_entries (fun r _ => r) Double.mul 3
              Double.one Double.half true ltac:(lia) [])
    as (Sigma & Hrun & _ & _ & _ & Hsym).
  exists Sigma. split; [exact Hrun|]. apply Hsym; lia.
Defined.

Section DataVector.

Import DenseSystem.

Lemma vec_read_at {A : Type} (v : list A) (i : nat) (a : A) :
  v !! i = Some a -> vec_read v (Z.of_nat i) = Done a.
Proof.
  intros H. unfold vec_read. rewrite decide_True by lia.
  rewrite Nat2Z.id, H. reflexivity.
Qed.

Lemma vec_read_beyond {A : Type} (v : list A) (i : nat) :
  v !! i = None -> vec_read v (Z.of_nat i) = Undefined.
Proof.
  intros H. unfold vec_read. rewrite decide_True by lia.
  rewrite Nat2Z.id, H. reflexivity.
Qed.

Lemma vec_write_at {A : Type} (v : list A) (i : nat) (a : A) :
  (i < length v)%nat -> vec_write v (Z.of_nat i) a = Done (<[i := a]> v).
Proof.
  intros H. unfold vec_write. rewrite decide_True by lia.
  rewrite Nat2Z.id. reflexivity.
Qed.

(** A loop that copies [src] into [dat] from position [off] on. *)
Lemma copy_loop (src : list double) (g : Z -> Z) (off : nat) :
  (forall i : nat, g (Z.of_nat i) = Z.of_nat (off + i)) ->
  forall (n lo : nat) (dat : list double),
  (lo + n <= length src)%nat -> (off + lo + n <= length dat)%nat ->
  for_loop (fun i dat => x ← vec_read src i; vec_write dat (g i) x)
    (Z.of_nat lo) n dat
  = Done (take (off + lo) dat ++ take n (drop lo src)
          ++ drop (off + lo + n) dat).
Proof.
  intros Hg. induction n as [|n IH]; intros lo dat Hsrc Hdat.
  - cbn [for_loop]. rewrite Nat.add_0_r, take_0, app_nil_l, take_drop.
    reflexivity.
  - destruct (lookup_lt_is_Some_2 src lo) as [x Hx]; [lia|].
    cbn [for_loop]. rewrite (vec_read_at src lo x Hx), run_bind_done.
    rewrite Hg, vec_write_at by lia. rewrite run_bind_done.
    replace (Z.of_nat lo + 1) with (Z.of_nat (S lo)) by lia.
    rewrite IH by (rewrite ?length_insert; lia). f_equal.
    replace (off + S lo)%nat with (S (off + lo)) by lia.
    rewrite (take_S_r _ _ x) by (apply list_lookup_insert_eq; lia).
    rewrite take_insert_ge by lia.
    rewrite drop_insert_lt by lia.
    rewrite (drop_S src x lo Hx), firstn_cons.
    rewrite <- app_assoc. cbn [app].
    replace (S (off + lo) + n)%nat with (off + lo + S n)%nat by lia.
    reflexivity.
Qed.

(** The same loop when [src] ends before the loop does. *)
Lemma copy_loop_short (src : list double) (g : Z -> Z) (off : nat) :
  (forall i : nat, g (Z.of_nat i) = Z.of_nat (off + i)) ->
  forall (n lo : nat) (dat : list double),
  (lo <= length src < lo + n)%nat -> (off + lo + n <= length dat)%nat ->
  for_loop (fun i dat => x ← vec_read src i; vec_write dat (g i) x)
    (Z.of_nat lo) n dat
  = Undefined.
Proof.
  intros Hg. induction n as [|n IH]; intros lo dat Hsrc Hdat; [lia|].
  cbn [for_loop].
  destruct (src !! lo) as [x|] eqn:Hx.
  - rewrite (vec_read_at src lo x Hx), run_bind_done.
    rewrite Hg, vec_write_at by lia. rewrite run_bind_done.
    replace (Z.of_nat lo + 1) with (Z.of_nat (S lo)) by lia.
    apply lookup_lt_Some in Hx.
    apply IH; rewrite ?length_insert; lia.
  - rewrite (vec_read_beyond src lo Hx). reflexivity.
Qed.

(** The loop as [get_dat] uses it: the target holds [pre] followed by
    initial values, and the loop overwrites the first [length src] of
    these. *)
Lemma copy_block (src pre : list double) (g : Z -> Z) (k : nat) (z : double) :
  (forall i : nat, g (Z.of_nat i) = Z.of_nat (length pre + i)) ->
  for_loop (fun i dat => x ← vec_read src i; vec_write dat (g i) x)
    0 (length src) (pre ++ replicate (length src + k) z)
  = Done (pre ++ src ++ replicate k z).
Proof.
  intros Hg. change 0 with (Z.of_nat 0).
  rewrite (copy_loop src g (length pre) Hg)
    by (rewrite ?length_app, ?length_replicate; lia).
  rewrite !Nat.add_0_r, take_app_length, drop_0, (take_ge src) by lia.
  rewrite drop_app_add, drop_replicate_add. reflexivity.
Qed.

Lemma copy_block_short (src pre : list double) (g : Z -> Z) (n k : nat)
    (z : double) :
  (forall i : nat, g (Z.of_nat i) = Z.of_nat (length pre + i)) ->
  (length src < n)%nat ->
  for_loop (fun i dat => x ← vec_read src i; vec_write dat (g i) x)
    0 n (pre ++ replicate (n + k) z)
  = Undefined.
Proof.
  intros Hg Hn. change 0 with (Z.of_nat 0).
  apply (copy_loop_short src g (length pre) Hg);
    rewrite ?length_app, ?length_replicate; lia.
Qed.

Context {T0 : Type}.
Variable to_array_1d : EigenMatrix T0 -> list double.

Lemma sizes_fit (m : nat) :
  Z.of_nat m * (2 + Z.of_nat m) <= Laplace.INT_MAX ->
  fits_int (2 + Z.of_nat m) && fits_int (Z.of_nat m * (2 + Z.of_nat m))
  && fits_int (Z.of_nat m * Z.of_nat m) && fits_int (2 * Z.of_nat m) = true.
Proof.
  intros H. unfold fits_int, INT_MIN, Laplace.INT_MAX in *.
  repeat (apply andb_true_intro; split);
    try (apply Z.leb_le; nia).
Qed.

(** X12: for a system whose [n_samples_] and [sums_] both have [M_]
    components and whose precision matrix flattens to [M_ * M_]
    numbers, [get_dat] returns the concatenation of [n_samples_],
    [sums_] and the flattened precision matrix, in this order: every
    one of the [M_ * (2 + M_)] positions has been overwritten. *)
Theorem get_dat_layout (s : lgp_dense_system T0) :
  M_ s = Z.of_nat (length (n_samples_ s)) ->
  length (sums_ s) = length (n_samples_ s) ->
  length (to_array_1d (Q_ s))
  = (length (n_samples_ s) * length (n_samples_ s))%nat ->
  M_ s * (2 + M_ s) <= Laplace.INT_MAX ->
  get_dat to_array_1d s
  = Done (n_samples_ s ++ sums_ s ++ to_array_1d (Q_ s)).
Proof.
  intros HM Hsums HQ Hfit. unfold get_dat. rewrite HM in *.
  rewrite (sizes_fit _ Hfit). cbn [negb].
  rewrite decide_False by nia.
  rewrite Nat2Z.id.
  replace (Z.to_nat (Z.of_nat (length (n_samples_ s))
                     * Z.of_nat (length (n_samples_ s))))
    with (length (to_array_1d (Q_ s))) by nia.
  replace (Z.to_nat (Z.of_nat (length (n_samples_ s))
                     * (2 + Z.of_nat (length (n_samples_ s)))))
    with (length (n_samples_ s)
          + (length (sums_ s) + (length (to_array_1d (Q_ s)) + 0)))%nat
    by nia.
  match goal with |- context [replicate ?n Double.zero] =>
    change (replicate n Double.zero) with ([] ++ replicate n Double.zero)
  end.
  rewrite (copy_block (n_samples_ s) [] (fun i => i) _ Double.zero)
    by reflexivity.
  rewrite run_bind_done, app_nil_l.
  rewrite <- Hsums at 1.
  rewrite (copy_block (sums_ s) (n_samples_ s)
             (fun i => Z.of_nat (length (n_samples_ s)) + i) _ Double.zero)
    by (intros i; lia).
  rewrite run_bind_done, (app_assoc (n_samples_ s)).
  rewrite (copy_block (to_array_1d (Q_ s)) (n_samples_ s ++ sums_ s)
             (fun i => 2 * Z.of_nat (length (n_samples_ s)) + i) _
             Double.zero)
    by (intros i; rewrite length_app; lia).
  cbn [replicate]. rewrite app_nil_r, <- app_assoc. reflexivity.
Qed.

Lemma get_dat_reads_beyond_sums (s : lgp_dense_system T0) :
  M_ s = Z.of_nat (length (n_samples_ s)) ->
  (length (sums_ s) < length (n_samples_ s))%nat ->
  M_ s * (2 + M_ s) <= Laplace.INT_MAX ->
  get_dat to_array_1d s = Undefined.
Proof.
  intros HM Hsums Hfit. unfold get_dat. rewrite HM in *.
  rewrite (sizes_fit _ Hfit). cbn [negb].
  rewrite decide_False by nia.
  rewrite Nat2Z.id.
  replace (Z.to_nat (Z.of_nat (length (n_samples_ s))
                     * (2 + Z.of_nat (length (n_samples_ s)))))
    with (length (n_samples_ s)
          + (length (n_samples_ s)
             + length (n_samples_ s) * length (n_samples_ s)))%nat
    by nia.
  match goal with |- context [replicate ?n Double.zero] =>
    change (replicate n Double.zero) with ([] ++ replicate n Double.zero)
  end.
  rewrite (copy_block (n_samples_ s) [] (fun i => i) _ Double.zero)
    by reflexivity.
  rewrite run_bind_done, app_nil_l.
  rewrite (copy_block_short (sums_ s) (n_samples_ s)
             (fun i => Z.of_nat (length (n_samples_ s)) + i) _ _ Double.zero)
    by (lia || (intros i; lia)).
  reflexivity.
Qed.

Variable inverse_spd : EigenMatrix T0 -> run (EigenMatrix T0).
Variable pow : T0 -> double -> T0.
Variable mul : T0 -> T0 -> T0.

(** X13: the constructor does not compare the sizes of [n_samples] and
    [sums].  When [phi] has its two components and the inversion of
    the covariance matrix succeeds, it constructs a system from a
    [sums] that is shorter than [n_samples]; [get_dat] on this system
    reads [sums_] beyond its end. *)
Theorem short_sums_accepted_then_read_beyond (sigma rho : T0)
    (rest : list T0) (n_samples sums : list double) (space_matters : bool) :
  (length sums < length n_samples)%nat ->
  Z.of_nat (length n_samples) * (2 + Z.of_nat (length n_samples))
  <= Laplace.INT_MAX ->
  (forall Sigma,
     lgp_covariance pow mul (sigma :: rho :: rest)
       (Z.of_nat (length n_samples)) true = Done Sigma ->
     exists Q, inverse_spd Sigma = Done Q) ->
  exists s,
    new_lgp_dense_system inverse_spd pow mul (sigma :: rho :: rest)
      n_samples sums space_matters = Done s
    /\ get_n_samples s = n_samples /\ get_sums s = sums
    /\ get_dat to_array_1d s = Undefined.
Proof.
  intros Hshort Hfit Hinv. unfold new_lgp_dense_system.
  destruct (covariance_loops pow mul (Z.of_nat (length n_samples)) sigma rho
              true ltac:(lia)
              {| e_rows := Z.of_nat (length n_samples);
                 e_cols := Z.of_nat (length n_samples);
                 e_data := replicate
                   (Z.to_nat (Z.of_nat (length n_samples)
                              * Z.of_nat (length n_samples))) None |})
    as (Sigma & Hrun & _).
  { split; [reflexivity|]. split; [reflexivity|]. apply length_replicate. }
  assert (Hcov : lgp_covariance pow mul (sigma :: rho :: rest)
                   (Z.of_nat (length n_samples)) true = Done Sigma).
  { unfold lgp_covariance.
    change (vec_read (sigma :: rho :: rest) 0) with (Done sigma).
    rewrite run_bind_done.
    change (vec_read (sigma :: rho :: rest) 1) with (Done rho).
    rewrite run_bind_done.
    unfold new_matrix. rewrite decide_True by lia. rewrite run_bind_done.
    exact Hrun. }
  destruct (Hinv Sigma Hcov) as [Q HQ].
  rewrite Hcov, run_bind_done, HQ, run_bind_done.
  eexists. split; [reflexivity|].
  split; [reflexivity|]. split; [reflexivity|].
  apply get_dat_reads_beyond_sums; cbn [M_ n_samples_ sums_];
    [reflexivity | exact Hshort | exact Hfit].
Qed.

End DataVector.

Lemma get_dat_layout_witness :
  DenseSystem.get_dat DenseScenario.flatten DenseScenario.two_by_two
  = DenseSystem.Done
      ([Double.one; Double.one] ++ [Double.of_Z 3; Double.of_Z 4]
       ++ DenseScenario.flatten DenseScenario.identity_2x2).
Proof.
  apply (get_dat_layout DenseScenario.flatten DenseScenario.two_by_two).
  - reflexivity.
  - reflexivity.
  - reflexivity.
  - unfold Laplace.INT_MAX. cbn. lia.
Defined.

Lemma short_sums_accepted_then_read_beyond_witness :
  exists s,
    DenseSystem.new_lgp_dense_system
      (fun _ => DenseSystem.Done DenseScenario.identity_2x2)
      (fun r _ => r) Double.mul [Double.one; Double.half]
      [Double.one; Double.one] [Double.of_Z 3] false = DenseSystem.Done s
    /\ DenseSystem.get_dat DenseScenario.flatten s = DenseSystem.Undefined.
Proof.
  destruct (short_sums_accepted_then_read_beyond DenseScenario.flatten
              (fun _ => DenseSystem.Done DenseScenario.identity_2x2)
              (fun r _ => r) Double.mul Double.one Double.half []
              [Double.one; Double.one] [Double.of_Z 3] false)
    as (s & Hnew & _ & _ & Hdat).
  - cbn. lia.
  - unfold Laplace.INT_MAX. cbn. lia.
  - intros Sigma _. exists DenseScenario.identity_2x2. reflexivity.
  - exists s. split; [exact Hnew | exact Hdat].
Defined.

(** ** The parts of a generated kernel *)

Section KernelParts.

Import KernelGenerator.
Local Open Scope string_scope.

Lemma append_assoc (a b c : string) : (a ++ b) ++ c = a ++ (b ++ c).
Proof.
  induction a as [|x a IH]; [reflexivity|].
  change (String x ((a ++ b) ++ c) = String x (a ++ (b ++ c))).
  rewrite IH. reflexivity.
Qed.

Lemma append_empty_r (a : string) : a ++ "" = a.
Proof.
  induction a as [|x a IH]; [reflexivity|].
  change (String x (a ++ "") = String x a).
  rewrite IH. reflexivity.
Qed.

Lemma parts_add_assoc (a b c : kernel_parts) :
  parts_add (parts_add a b) c = parts_add a (parts_add b c).
Proof. unfold parts_add. cbn. rewrite !append_assoc. reflexivity. Qed.

Lemma parts_add_empty_l (a : kernel_parts) : parts_add empty_parts a = a.
Proof. destruct a. reflexivity. Qed.

Lemma parts_add_empty_r (a : kernel_parts) : parts_add a empty_parts = a.
Proof. destruct a. unfold parts_add. cbn. rewrite !append_empty_r. reflexivity. Qed.

Lemma fold_left_parts_add (l : list kernel_parts) (a : kernel_parts) :
  fold_left parts_add l a = parts_add a (accumulate_parts l).
Proof.
  unfold accumulate_parts. revert a.
  induction l as [|p l IH]; intros a; cbn [fold_left].
  - rewrite parts_add_empty_r. reflexivity.
  - rewrite IH, (IH (parts_add empty_parts p)), parts_add_empty_l.
    apply parts_add_assoc.
Qed.

(** X14: [operator+] of [kernel_parts] is associative and has
    [kernel_parts{}] as its identity on both sides; hence accumulating
    the parts of a list of arguments and appending further parts gives
    the accumulated parts of the whole list, and the parts accumulated
    from the arguments do not depend on how the arguments are
    grouped. *)
Theorem accumulate_parts_app (l1 l2 : list kernel_parts) :
  (forall a b c, parts_add (parts_add a b) c = parts_add a (parts_add b c))
  /\ (forall a, parts_add empty_parts a = a /\ parts_add a empty_parts = a)
  /\ accumulate_parts (l1 ++ l2)
     = parts_add (accumulate_parts l1) (accumulate_parts l2).
Proof.
  split; [exact parts_add_assoc|].
  split; [intros a; split; [apply parts_add_empty_l | apply parts_add_empty_r]|].
  unfold accumulate_parts at 1. rewrite fold_left_app.
  apply fold_left_parts_add.
Qed.

End KernelParts.

(** ** Generation of the kernel parts of an expression *)

Section GenerationFacts.

Import KernelGenerator.
Local Open Scope string_scope.

Lemma operation_nested_ind (P : operation -> Prop) :
  (forall this derived arguments_,
     Forall P arguments_ -> P (Op this derived arguments_)) ->
  forall op, P op.
Proof.
  intros H. fix IH 1. intros [this derived arguments_]. apply H.
  induction arguments_ as [|a l IHl]; constructor; [apply IH | exact IHl].
Qed.

Variable name_generator : Type.
Variable generate_name : name_generator -> string * name_generator.

Let state := gen_state name_generator.
Let gkp := get_kernel_parts name_generator generate_name.

(** What a generation may change: objects are only added to
    [generated], and the names of those that were in it stay. *)
Let grows (st st' : state) : Prop :=
  generated _ st ⊆ generated _ st'
  /\ forall p, p ∈ generated _ st ->
       var_names _ st' !! p = var_names _ st !! p.

Lemma grows_refl (st : state) : grows st st.
Proof. split; [reflexivity | intros; reflexivity]. Qed.

Lemma grows_trans (st1 st2 st3 : state) :
  grows st1 st2 -> grows st2 st3 -> grows st1 st3.
Proof.
  intros [H1 N1] [H2 N2]. split; [etransitivity; eassumption|].
  intros p Hp. rewrite N2 by (apply H1; exact Hp). apply N1. exact Hp.
Qed.

Lemma arguments_parts_grows (i j : string) (vh : bool)
    (arguments : list operation) :
  Forall (fun a => forall i j vh st, grows st (gkp a i j vh st).2) arguments ->
  forall transitivity st,
    grows st (arguments_parts name_generator gkp i j vh arguments
                transitivity st).2.
Proof.
  induction 1 as [|a l Ha _ IH]; intros vt st; cbn [arguments_parts].
  - apply grows_refl.
  - specialize (Ha i j (vh && hd false vt) st).
    destruct (gkp a i j (vh && hd false vt) st) as [p st1].
    specialize (IH (tl vt) st1).
    destruct (arguments_parts name_generator gkp i j vh l (tl vt) st1)
      as [ps st2].
    cbn [snd] in *. exact (grows_trans _ _ _ Ha IH).
Qed.

Lemma get_kernel_parts_post (op : operation) :
  forall i j vh st,
    grows st (gkp op i j vh st).2
    /\ address op ∈ generated _ (gkp op i j vh st).2
    /\ body_prefix (gkp op i j vh st).1 = "".
Proof.
  induction op as [this derived arguments_ IH] using operation_nested_ind.
  intros i j vh st. unfold gkp. cbn [get_kernel_parts address].
  destruct (decide (this ∈ generated _ st)) as [Hin|Hout].
  - cbn [fst snd]. split; [apply grows_refl|]. split; [exact Hin | reflexivity].
  - destruct (generate_name (name_gen _ st)) as [name ng].
    destruct (modify_argument_indices derived i j) as [i_arg j_arg].
    match goal with |- context [arguments_parts _ _ _ _ _ _ _ ?s] =>
      set (st0 := s) end.
    assert (Hargs : grows st0
              (arguments_parts name_generator gkp i_arg j_arg vh arguments_
                 (view_transitivity derived) st0).2).
    { apply arguments_parts_grows.
      eapply Forall_impl; [exact IH|]. cbv beta.
      intros a Ha i' j' vh' st'. exact (proj1 (Ha i' j' vh' st')). }
    fold gkp.
    destruct (arguments_parts name_generator gkp i_arg j_arg vh arguments_
                (view_transitivity derived) st0) as [ps st1].
    cbn [fst snd] in *.
    assert (H0 : grows st st0).
    { split; cbn [generated var_names].
      - set_solver.
      - intros p Hp. apply lookup_insert_ne. intros <-. exact (Hout Hp). }
    split; [exact (grows_trans _ _ _ H0 Hargs)|].
    split; [|reflexivity].
    apply (proj1 Hargs). cbn [generated]. set_solver.
Qed.

(** X15: the kernel code of an object is generated once.  After
    [get_kernel_parts] has run on an expression, from any state and
    with any indices, a second call on the same expression with the
    state the first one left returns empty parts and changes nothing:
    no name is drawn and no [var_name] is set. *)
Theorem get_kernel_parts_once (op : operation) (i j i' j' : string)
    (vh vh' : bool) (st : gen_state name_generator) :
  get_kernel_parts name_generator generate_name op i' j' vh'
    (get_kernel_parts name_generator generate_name op i j vh st).2
  = (empty_parts,
     (get_kernel_parts name_generator generate_name op i j vh st).2).
Proof.
  destruct (get_kernel_parts_post op i j vh st) as (_ & Hin & _).
  unfold gkp in Hin.
  destruct (get_kernel_parts name_generator generate_name op i j vh st)
    as [p st1].
  cbn [snd] in *. destruct op as [this derived arguments_].
  cbn [get_kernel_parts address] in *.
  rewrite decide_True by exact Hin. reflexivity.
Qed.

(** X16: what a generation leaves behind.  The parts it returns have
    an empty [body_prefix] (the prefixes of the arguments and of the
    object have been moved to the front of the body); the object is in
    [generated] afterwards; no object is removed from [generated]; and
    the [var_name] of every object that had been generated before the
    call is the one it had. *)
Theorem get_kernel_parts_frame (op : operation) (i j : string) (vh : bool)
    (st : gen_state name_generator) :
  let res := get_kernel_parts name_generator generate_name op i j vh st in
  body_prefix res.1 = ""
  /\ address op ∈ generated _ res.2
  /\ generated _ st ⊆ generated _ res.2
  /\ forall p, p ∈ generated _ st ->
       var_names _ res.2 !! p = var_names _ st !! p.
Proof.
  cbv zeta.
  destruct (get_kernel_parts_post op i j vh st) as ([Hsub Hnames] & Hin & Hpre).
  split; [exact Hpre|]. split; [exact Hin|]. split; [exact Hsub|exact Hnames].
Qed.

End GenerationFacts.

Example exp_of_source_parts :
  (KernelGenerator.get_kernel_parts nat KernelScenario.counter_names
     KernelScenario.exp_source "i" "j" true (KernelScenario.start ∅)).1
  = {| KernelGenerator.includes := "";
       KernelGenerator.initialization := "";
       KernelGenerator.body_prefix := "";
       KernelGenerator.body :=
         String.append "double vv = 0;double v = exp(vv);"
           (String (Ascii.ascii_of_nat 10) "");
       KernelGenerator.reduction := "";
       KernelGenerator.args := "" |}.
Proof. vm_compute. reflexivity. Qed.

(** ** Promotion of the scalars of a container *)

Section PromoteFacts.

Import DenseSystem PromoteScalar.

(** Writing the next element of a partly filled container. *)
Lemma fill_step {A B : Type} (g : A -> B) (d : B) (x : list A) (k : nat)
    (xi : A) :
  x !! k = Some xi ->
  <[k := g xi]> (map g (take k x) ++ replicate (length x - k) d)
  = map g (take (S k) x) ++ replicate (length x - S k) d.
Proof.
  intros Hx. pose proof (lookup_lt_Some _ _ _ Hx) as Hlt.
  assert (Hlen : length (map g (take k x)) = k)
    by (rewrite length_map, length_take; lia).
  rewrite insert_app_r_alt by lia. rewrite Hlen, Nat.sub_diag.
  replace (length x - k)%nat with (S (length x - S k)) by lia.
  cbn [replicate]. rewrite (take_S_r x k xi Hx), map_app, <- app_assoc.
  reflexivity.
Qed.

Lemma apply_vector_map {A B : Type} (apply : A -> run B) (f : A -> B)
    (init : B) (x : list A) :
  (forall xi, xi ∈ x -> apply xi = Done (f xi)) ->
  apply_vector apply init x = Done (map f x).
Proof.
  intros Happly. unfold apply_vector.
  destruct (for_loop_inv
    (fun k y => y = map f (take (Z.to_nat k) x)
                    ++ replicate (length x - Z.to_nat k) init)
    (fun i y => xi ← vec_read x i; r ← apply xi; vec_write y i r)
    (length x) 0 (replicate (length x) init)) as (y & Hrun & Hy).
  - cbn. rewrite Nat.sub_0_r. reflexivity.
  - intros k y Hk ->.
    destruct (lookup_lt_is_Some_2 x (Z.to_nat k)) as [xi Hxi]; [lia|].
    exists (map f (take (Z.to_nat (k + 1)) x)
            ++ replicate (length x - Z.to_nat (k + 1)) init).
    split; [|reflexivity].
    unfold vec_read. rewrite decide_True by lia. rewrite Hxi, run_bind_done.
    rewrite (Happly xi) by (eapply list_elem_of_lookup_2; exact Hxi).
    rewrite run_bind_done. unfold vec_write.
    rewrite decide_True
      by (rewrite length_app, length_map, length_take, length_replicate; lia).
    rewrite (fill_step f init x _ xi Hxi).
    replace (Z.to_nat (k + 1)) with (S (Z.to_nat k)) by lia. reflexivity.
  - rewrite Hrun, Hy. f_equal.
    replace (Z.to_nat (0 + Z.of_nat (length x))) with (length x) by lia.
    rewrite take_ge, Nat.sub_diag by lia. apply app_nil_r.
Qed.

(** X17: promoting a [std::vector] promotes every element, in order,
    and keeps the size; promoting to the scalar type the vector already
    has returns an equal vector; and the specialisation nests: a
    vector of vectors is promoted element by element at the inner
    level. *)
Theorem promote_scalar_vector {A T : Type} (convert : A -> T) (init : T) :
  (forall x : list A,
     apply_vector (apply_base convert) init x = Done (map convert x))
  /\ (forall x : list T, apply_vector apply_same init x = Done x)
  /\ (forall (xs : list (list A)) (init' : list T),
        apply_vector (apply_vector (apply_base convert) init) init' xs
        = Done (map (map convert) xs)).
Proof.
  split; [|split].
  - intros x. apply apply_vector_map. reflexivity.
  - intros x. rewrite <- (map_id x) at 2.
    apply apply_vector_map. reflexivity.
  - intros xs init'. apply apply_vector_map.
    intros x _. apply apply_vector_map. reflexivity.
Qed.

(** While the counter stays within [int], the loop with an [int]
    counter is the plain loop. *)
Lemma for_loop_int_in_range {St : Type} (body : Z -> St -> run St) :
  forall (n : nat) (lo : Z) (s : St),
  lo + Z.of_nat n <= Laplace.INT_MAX ->
  for_loop_int body lo n s = for_loop body lo n s.
Proof.
  induction n as [|n IH]; intros lo s Hn; [reflexivity|].
  cbn [for_loop_int for_loop].
  destruct (body lo s) as [s'| |]; try reflexivity.
  rewrite !run_bind_done. rewrite decide_True by lia. apply IH. lia.
Qed.

(** X18: promoting an Eigen matrix of at most [INT_MAX] coefficients,
    all of them written, returns a matrix of the same dimensions whose
    coefficients are the promoted ones, in storage order. *)
Theorem promote_scalar_matrix {A T : Type} (convert : A -> T)
    (x : EigenMatrix A) (cs : list A) :
  0 <= e_rows x -> 0 <= e_cols x ->
  e_rows x * e_cols x <= Laplace.INT_MAX ->
  e_data x = map Some cs ->
  Z.of_nat (length cs) = e_rows x * e_cols x ->
  apply_matrix (apply_base convert) x
  = Done {| e_rows := e_rows x; e_cols := e_cols x;
            e_data := map (fun c => Some (convert c)) cs |}.
Proof.
  intros Hr Hc Hint Hdata Hlen. unfold apply_matrix, new_matrix.
  rewrite decide_True by lia. rewrite run_bind_done.
  rewrite <- Hlen, Nat2Z.id.
  rewrite for_loop_int_in_range by lia.
  destruct (for_loop_inv
    (fun k y => y = {| e_rows := e_rows x; e_cols := e_cols x;
                       e_data := map (fun c => Some (convert c))
                                   (take (Z.to_nat k) cs)
                                 ++ replicate (length cs - Z.to_nat k) None |})
    (fun i y => xi ← coeff_read x i; r ← apply_base convert xi;
                coeff_write y i r)
    (length cs) 0
    {| e_rows := e_rows x; e_cols := e_cols x;
       e_data := replicate (length cs) None |}) as (y & Hrun & Hy).
  - cbn. rewrite Nat.sub_0_r. reflexivity.
  - intros k y Hk ->.
    destruct (lookup_lt_is_Some_2 cs (Z.to_nat k)) as [xi Hxi]; [lia|].
    eexists. split; [|reflexivity].
    unfold coeff_read. rewrite decide_True by lia.
    rewrite Hdata, list_lookup_fmap, Hxi. cbn [fmap option_fmap option_map].
    rewrite run_bind_done. unfold apply_base. rewrite run_bind_done.
    unfold coeff_write. cbn [e_rows e_cols e_data].
    rewrite decide_True by lia.
    rewrite (fill_step (fun c => Some (convert c)) None cs _ xi Hxi).
    replace (Z.to_nat (k + 1)) with (S (Z.to_nat k)) by lia. reflexivity.
  - rewrite Hrun, Hy. f_equal.
    replace (Z.to_nat (0 + Z.of_nat (length cs))) with (length cs) by lia.
    rewrite take_ge, Nat.sub_diag by lia. cbn [replicate].
    rewrite app_nil_r. reflexivity.
Qed.

End PromoteFacts.

Lemma promote_scalar_matrix_witness :
  PromoteScalar.apply_matrix (PromoteScalar.apply_base Double.of_Z)
    {| DenseSystem.e_rows := 1; DenseSystem.e_cols := 2;
       DenseSystem.e_data := [Some 3; Some 4] |}
  = DenseSystem.Done
      {| DenseSystem.e_rows := 1; DenseSystem.e_cols := 2;
         DenseSystem.e_data := [Some (Double.of_Z 3); Some (Double.of_Z 4)] |}.
Proof.
  apply (promote_scalar_matrix Double.of_Z
           {| DenseSystem.e_rows := 1; DenseSystem.e_cols := 2;
              DenseSystem.e_data := [Some 3; Some 4] |} [3; 4]).
  - cbn. lia.
  - cbn. lia.
  - unfold Laplace.INT_MAX. cbn. lia.
  - reflexivity.
  - reflexivity.
Defined.
